(** * The BREF relevance aggregator, patent ranking, selection and chat
      context of the pollution-abatement dashboard

    A shallow embedding of the logic of the dashboard:

    - [HierarchicalBrefSelector.jsx]: [findRelevantNodes],
      [calculateAllPatentCounts], [calculateCumulativeCounts],
      [checkNodeMatches], [handleSelectNode], [filteredBrefHierarchy],
      [toggleExpanded];
    - [PatentRankingBox.jsx]: [getRelevanceScore],
      [getBrefRelevantPatentCount], [rankedPatents], [getColorByScore];
    - [PatentDetailsBox.jsx]: the top BREF sections of a patent;
    - [OptimizedPollutionAbatementDashboard.jsx]: [handleBrefSelect],
      [handleAddBrefToContext], [handlePatentToggle], [handleRemovePatent],
      [handleRemoveBref];
    - [ChatInterface.jsx]: [callChatAPI], [handleSendMessage] and the
      handlers of the prompt buttons; [promptTemplates.js];
    - [chatApiService.js]: [callOpenAI]; [server-render.js] and
      [api/openai.js]: the two completion routes;
    - [dataLoader.js]: the cache and the loaders that go through it;
    - [brefUtils.js]: [getBrefSectionName], [getBrefType],
      [formatBrefPath], [extractBrefTitle].

    Conventions.  A JavaScript object that is used as a dictionary and is
    only read and written by key (the count tables, the relevant-node
    table) is a [gmap string _] or a [gset string]; its keys are taken to
    differ from the property names every object inherits.  An object or
    array whose enumeration order is observable (the relevance matrix
    walked by [for ... in], the React state arrays) is a list, in
    enumeration order.  Identifiers are strings.

    Relevance scores are finite doubles.  The code only compares them, with
    each other and with the literal [0.68], and tests them for being
    non-zero, so a score is kept as the rational it denotes.  The double
    written [0.68] is the one nearest to 68/100; it lies just above it with
    no double in between, so a double is at least that literal exactly when
    it is at least 68/100, which is the threshold used here. *)

From Stdlib Require Import QArith NArith Ascii String.
From stdpp Require Import gmap strings list sorting pretty.

Local Open Scope string_scope.
Local Open Scope nat_scope.
Local Open Scope list_scope.
Local Open Scope stdpp_scope.

(** ** JavaScript helpers *)

Module Js.

(** [const RELIABILITY_THRESHOLD = 0.68;] (declared in both
    HierarchicalBrefSelector.jsx and PatentRankingBox.jsx). *)
Definition RELIABILITY_THRESHOLD : Q := 68 # 100.

(** [score >= RELIABILITY_THRESHOLD] *)
Definition ge_threshold (score : Q) : bool :=
  Qle_bool RELIABILITY_THRESHOLD score.

(** Truthiness of a number: everything but zero. *)
Definition truthy_num (score : Q) : bool := negb (Qeq_bool score 0).

(** Truthiness of a string-valued property that may be missing:
    [undefined] and the empty string are falsy. *)
Definition truthy_str (s : option string) : option string :=
  match s with
  | Some s' => if String.eqb s' "" then None else Some s'
  | None => None
  end.

(** [table[key] || 0] on a table of counts. *)
Definition count (table : gmap string nat) (key : string) : nat :=
  default 0 (table !! key).

(** [obj[key]] on an object kept as its list of entries. *)
Fixpoint get {A} (obj : list (string * A)) (key : string) : option A :=
  match obj with
  | [] => None
  | (k, v) :: rest => if String.eqb k key then Some v else get rest key
  end.

(** [map.set(key, value)] on a [Map], kept as its entries in insertion
    order: an existing key keeps its position and takes the new value, a
    new key goes to the end. *)
Fixpoint Map_set {A} (m : list (string * A)) (key : string) (value : A)
  : list (string * A) :=
  match m with
  | [] => [(key, value)]
  | (k, v) :: rest =>
      if String.eqb k key then (k, value) :: rest
      else (k, v) :: Map_set rest key value
  end.

(** [new Map(entries)] *)
Definition Map_new {A} (entries : list (string * A)) : list (string * A) :=
  fold_left (fun m kv => Map_set m (fst kv) (snd kv)) entries [].

(** [Array.from(map.values())] *)
Definition Map_values {A} (m : list (string * A)) : list A := map snd m.

(** [arr.slice(0, n)] for a count [n]. *)
Definition slice0 {A} (n : nat) (arr : list A) : list A := firstn n arr.

(** Text typed by the user and shown in the transcript: a JavaScript
    string, as its UTF-16 code units. *)
Definition text : Type := list N.

Definition text_of (s : string) : text :=
  map N_of_ascii (list_ascii_of_string s).

(** The code units [String.prototype.trim] strips: WhiteSpace and
    LineTerminator of ECMAScript. *)
Definition isWhiteSpace (c : N) : bool :=
  existsb (N.eqb c)
    [9; 10; 11; 12; 13; 32; 160; 5760; 8192; 8193; 8194; 8195; 8196; 8197;
     8198; 8199; 8200; 8201; 8202; 8232; 8233; 8239; 8287; 12288; 65279]%N.

Fixpoint trimStart (s : text) : text :=
  match s with
  | [] => []
  | c :: rest => if isWhiteSpace c then trimStart rest else s
  end.

(** [s.trim()] *)
Definition trim (s : text) : text := rev (trimStart (rev (trimStart s))).

(** Truthiness of a string value. *)
Definition truthy_text (s : text) : bool :=
  match s with [] => false | _ => true end.

(** [arr.sort((a, b) => key(b) - key(a))]: descending by [key].
    [Array.prototype.sort] is stable, and for a comparator that is a
    total preorder the stable sorted arrangement of an array is unique, so
    the algorithm chosen here (insertion, each element going in front of
    the first element that is not greater) fixes nothing that the
    language leaves open. *)
Fixpoint sort_insert {A} (key : A -> Q) (x : A) (sorted : list A) : list A :=
  match sorted with
  | [] => [x]
  | y :: rest =>
      if Qle_bool (key y) (key x) then x :: y :: rest
      else y :: sort_insert key x rest
  end.

Fixpoint sort_desc {A} (key : A -> Q) (arr : list A) : list A :=
  match arr with
  | [] => []
  | x :: rest => sort_insert key x (sort_desc key rest)
  end.

End Js.

(** ** HierarchicalBrefSelector.jsx *)

Module BrefSelector.
Import Js.

(** The shapes of hierarchy data the traversals tell apart.

    - [HPrim]: a value for which [typeof v !== 'object'] (a string, a
      number, a boolean); the traversals skip it;
    - [HArr items]: an array;
    - [HObj id m c children others]: any other object.  [id] is
      [node.id]; [m] is [node.hasMatchForPollutant === true] and [c] is
      [node.hasChildrenWithMatchForPollutant === true]; [children] is
      [node.children]; [others] are the remaining own properties, in
      enumeration order.

    [node.children] is absent or falsy ([KNone]), an array ([KArr]) or
    an object keyed by child key ([KMap]), whose keys differ from [id]
    and [children].  A [null] inside a children collection, on which
    [child.id] would throw, is not part of the model. *)
Inductive kids (A : Type) : Type :=
| KNone
| KArr (items : list A)
| KMap (entries : list (string * A)).
Arguments KNone {A}.
Arguments KArr {A} items.
Arguments KMap {A} entries.

#[warnings="-register-all"]
Inductive hnode : Type :=
| HPrim
| HArr (items : list hnode)
| HObj (id : option string) (hasMatch hasChildrenMatch : bool)
       (children : kids hnode) (others : list (string * hnode)).

(** [child.id], read off any value: only objects carry one. *)
Definition id_of (node : hnode) : option string :=
  match node with
  | HObj id _ _ _ _ => id
  | _ => None
  end.

(** The relevance matrix [{ patentId: { brefId: score } }] in [for ... in]
    order. *)
Definition matrix : Type := list (string * list (string * Q)).

(** *** [findRelevantNodes] *)

Fixpoint traverseNode (node : hnode) (relevantNodes : gset string)
  : gset string :=
  match node with
  | HPrim => relevantNodes
  | HArr items =>
      fold_left (fun acc childNode => traverseNode childNode acc)
                items relevantNodes
  | HObj id hasMatchForPollutant hasChildrenWithMatchForPollutant
         children others =>
      match truthy_str id with
      | None =>
          match children with
          | KArr items =>
              fold_left (fun acc childNode => traverseNode childNode acc)
                        items relevantNodes
          | KMap entries =>
              fold_left (fun acc kv => traverseNode (snd kv) acc)
                        entries relevantNodes
          | KNone =>
              fold_left (fun acc kv => traverseNode (snd kv) acc)
                        others relevantNodes
          end
      | Some nodeId =>
          let marked :=
            if hasMatchForPollutant || hasChildrenWithMatchForPollutant
            then {[nodeId]} ∪ relevantNodes else relevantNodes in
          match children with
          | KArr items =>
              fold_left (fun acc childNode => traverseNode childNode acc)
                        items marked
          | KMap entries =>
              fold_left (fun acc kv => traverseNode (snd kv) acc)
                        entries marked
          | KNone => marked
          end
      end
  end.

Definition findRelevantNodes (hierarchy : hnode) : gset string :=
  traverseNode hierarchy ∅.

(** *** The direct-match phase of [calculateAllPatentCounts] *)

(** The body of the inner loop, for one [brefId] of one patent's scores. *)
Definition countDirectMatch (relevantNodes : gset string)
    (directMatches : gmap string nat) (entry : string * Q)
  : gmap string nat :=
  let '(brefId, score) := entry in
  if ge_threshold score && bool_decide (brefId ∈ relevantNodes) then
    let directMatches' :=
      match directMatches !! brefId with
      | Some (S _) => directMatches
      | _ => <[brefId := 0]> directMatches
      end in
    <[brefId := S (count directMatches' brefId)]> directMatches'
  else directMatches.

Definition directMatchCounts (relevanceScores : matrix)
    (relevantNodes : gset string) : gmap string nat :=
  fold_left
    (fun directMatches patent =>
       fold_left (countDirectMatch relevantNodes) (snd patent) directMatches)
    relevanceScores ∅.

(** *** [calculateCumulativeCounts] *)

Section Cumulative.
Variable directMatches : gmap string nat.
Variable relevantNodes : gset string.

(** The body of both [forEach] loops over the children of a node that
    has an id: [childId] is the id the loop computed for the child
    ([None] when the array loop finds no id), [recurse] the recursive
    call on the child, and the accumulator is [cumulativeCount] together
    with the shared [result] object. *)
Definition addChild (childId : option string)
    (recurse : gmap string nat -> gmap string nat)
    (acc : nat * gmap string nat) : nat * gmap string nat :=
  match childId with
  | Some cid =>
      if bool_decide (cid ∈ relevantNodes) then
        let result' := recurse (snd acc) in
        (fst acc + count result' cid, result')
      else acc
  | None => acc
  end.

Fixpoint calculateCumulativeCounts (node : hnode)
    (result : gmap string nat) : gmap string nat :=
  match node with
  | HPrim => result
  | HArr items =>
      fold_left (fun res childNode => calculateCumulativeCounts childNode res)
                items result
  | HObj id _ _ children others =>
      match truthy_str id with
      | None =>
          match children with
          | KArr items =>
              fold_left
                (fun res childNode => calculateCumulativeCounts childNode res)
                items result
          | KMap entries =>
              fold_left
                (fun res kv => calculateCumulativeCounts (snd kv) res)
                entries result
          | KNone =>
              fold_left
                (fun res kv => calculateCumulativeCounts (snd kv) res)
                others result
          end
      | Some nodeId =>
          let start := (count directMatches nodeId, result) in
          let final :=
            match children with
            | KArr items =>
                fold_left
                  (fun acc child =>
                     addChild (truthy_str (id_of child))
                              (calculateCumulativeCounts child) acc)
                  items start
            | KMap entries =>
                fold_left
                  (fun acc kv =>
                     addChild
                       (Some (default (fst kv) (truthy_str (id_of (snd kv)))))
                       (calculateCumulativeCounts (snd kv)) acc)
                  entries start
            | KNone => start
            end in
          <[nodeId := fst final]> (snd final)
      end
  end.
End Cumulative.

(** [calculateAllPatentCounts]: the table handed to
    [setPatentCountCache]. *)
Definition calculateAllPatentCounts (relevanceScores : option matrix)
    (hierarchy : option hnode) (relevantNodes : gset string)
  : gmap string nat :=
  match relevanceScores, hierarchy with
  | Some scores, Some h =>
      let directMatches := directMatchCounts scores relevantNodes in
      calculateCumulativeCounts directMatches relevantNodes h ∅
  | _, _ => ∅
  end.

(** *** Selection *)

(** An element of the breadcrumb path, [{ id, name }]. *)
Record pathEntry : Type := {
  path_id : option string;
  path_name : string
}.

(** [checkNodeMatches]: the pair [(direct, children)]. *)
Fixpoint checkNodeMatches (node : hnode) : bool * bool :=
  match node with
  | HObj _ hasDirectMatch hasChildrenMatch children _ =>
      if hasDirectMatch || hasChildrenMatch
      then (hasDirectMatch, hasChildrenMatch)
      else
        let childrenHaveMatches :=
          match children with
          | KArr items =>
              existsb (fun child =>
                         let childMatches := checkNodeMatches child in
                         fst childMatches || snd childMatches) items
          | KMap entries =>
              existsb (fun kv =>
                         let childMatches := checkNodeMatches (snd kv) in
                         fst childMatches || snd childMatches) entries
          | KNone => false
          end in
        (hasDirectMatch, childrenHaveMatches)
  | _ => (false, false)
  end.

(** [hasChildren] of [renderNode]. *)
Definition hasChildren (node : hnode) : bool :=
  match node with
  | HObj _ _ _ (KArr items) _ => Nat.ltb 0 (length items)
  | HObj _ _ _ (KMap entries) _ => Nat.ltb 0 (length entries)
  | _ => false
  end.

(** Truthiness of the [selectedPollutant] prop. *)
Definition pollutantActive (selectedPollutant : option string) : bool :=
  match truthy_str selectedPollutant with Some _ => true | None => false end.

(** [handleSelectNode]: the calls it makes to the [onBrefSelect] prop,
    each with its two arguments. *)
Definition handleSelectNode (selectedPollutant : option string)
    (node : hnode) (path : option (list pathEntry))
    (isRelevant isLeaf : bool) : list (hnode * list pathEntry) :=
  if negb isLeaf then []
  else if pollutantActive selectedPollutant && negb isRelevant then []
  else
    let currentPath := default [] path in
    [(node, currentPath)].

(** The [onClick] of the row [renderNode] draws for [node], whose
    [currentPath] is the path of its ancestors followed by the node
    itself.  Values that are not plain objects draw nothing, and neither
    does a node the relevance filter hides. *)
Definition clickNode (selectedPollutant : option string)
    (showOnlyRelevant : bool) (node : hnode) (currentPath : list pathEntry)
  : list (hnode * list pathEntry) :=
  match node with
  | HObj _ _ _ _ _ =>
      let matches := checkNodeMatches node in
      let isRelevant := fst matches || snd matches in
      let isLeaf := negb (hasChildren node) in
      if pollutantActive selectedPollutant && negb isRelevant && showOnlyRelevant
      then []
      else handleSelectNode selectedPollutant node (Some currentPath)
                            isRelevant isLeaf
  | _ => []
  end.

(** *** The relevance filter and the expansion state *)

(** [hasMatchForPollutant === true || hasChildrenWithMatchForPollutant
    === true], read off any value. *)
Definition hasFlag (node : hnode) : bool :=
  match node with
  | HObj _ hasMatch hasChildrenMatch _ _ => hasMatch || hasChildrenMatch
  | _ => false
  end.

(** [doesBrefMatch] of [filteredBrefHierarchy]. *)
Fixpoint doesBrefMatch (brefContent : hnode) : bool :=
  match brefContent with
  | HPrim => false
  | HArr items => existsb hasFlag items
  | HObj _ hasMatch hasChildrenMatch children _ =>
      if hasMatch then true
      else if hasChildrenMatch then true
      else
        match children with
        | KArr items =>
            existsb (fun child => hasFlag child || doesBrefMatch child) items
        | KMap entries =>
            existsb (fun kv => hasFlag (snd kv) || doesBrefMatch (snd kv))
                    entries
        | KNone => false
        end
  end.

(** [filteredBrefHierarchy]; the hierarchy is the object of top-level
    documents, as its entries ([None] when the prop is missing). *)
Definition filteredBrefHierarchy (showOnlyRelevant : bool)
    (selectedPollutant : option string)
    (brefHierarchy : option (list (string * hnode)))
  : option (list (string * hnode)) :=
  match brefHierarchy with
  | Some documents =>
      if negb showOnlyRelevant || negb (pollutantActive selectedPollutant)
      then brefHierarchy
      else Some (List.filter (fun doc => doesBrefMatch (snd doc)) documents)
  | None => None
  end.

(** [isRelevant] as [renderTopLevelBref] and [renderNode] compute it. *)
Definition isRelevant (node : hnode) : bool :=
  let matches := checkNodeMatches node in
  fst matches || snd matches.

(** [toggleExpanded]: the updater handed to [setExpandedNodes]. *)
Definition toggleExpanded (nodeId : string) (prev : gmap string bool)
  : gmap string bool :=
  <[nodeId := negb (default false (prev !! nodeId))]> prev.

(** [expandedNodes[nodeId]] as a condition. *)
Definition isExpanded (expandedNodes : gmap string bool) (nodeId : string)
  : bool :=
  default false (expandedNodes !! nodeId).

End BrefSelector.

(** ** PatentRankingBox.jsx *)

Module PatentRanking.
Import Js.

(** A patent as the ranking box holds it: an entry of [topPatents] (from
    [{slug}_top.json]) or one built from the patent index. *)
Record patent : Type := {
  id : string;
  title : option string;
  year : option Z;
  abstract : option string;
  score : Q;
  bref_relevance : option (list (string * Q))
}.

(** [{ ...patent, relevanceScore }] *)
Record ranked : Type := {
  entry : patent;
  relevanceScore : Q
}.

(** An entry of the patent index. *)
Record details : Type := {
  details_title : option string;
  details_year : option Z;
  details_abstract : option string;
  details_text : option string
}.

Section Ranking.
(** The component state and props the memoised values depend on. *)
Variable topPatents : list patent.
Variable selectedBref : option BrefSelector.hnode.
Variable brefRelevanceScores : BrefSelector.matrix.
Variable patentIndex : option (list (string * details)).
(** A count: the component also renders [Array(maxPatents)] rows. *)
Variable maxPatents : nat.

Definition getRelevanceScore (p : patent) (brefId : option string) : Q :=
  match truthy_str brefId with
  | Some b =>
      match
        match bref_relevance p with
        | Some scores => get scores b
        | None => None
        end
      with
      | Some s => s
      | None =>
          match get brefRelevanceScores (id p) with
          | Some patentBrefScores =>
              match get patentBrefScores b with
              | Some s => s
              | None => 0
              end
          | None => 0
          end
      end
  | None => if truthy_num (score p) then score p else 0
  end.

(** [patentBrefScores[selectedBref.id]]; a missing id reads the key
    ["undefined"]. *)
Definition scoreForBref (b : BrefSelector.hnode)
    (patentBrefScores : list (string * Q)) : option Q :=
  get patentBrefScores (default "undefined" (BrefSelector.id_of b)).

Definition getBrefRelevantPatentCount : Z :=
  match selectedBref with
  | None => (-1)%Z
  | Some b =>
      if Nat.eqb (length brefRelevanceScores) 0 then (-1)%Z
      else
        fold_left
          (fun n patentScores =>
             match scoreForBref b (snd patentScores) with
             | Some s =>
                 if truthy_num s && ge_threshold s then (n + 1)%Z else n
             | None => n
             end)
          brefRelevanceScores 0%Z
  end.

(** The first half of the BREF branch: [topPatentsWithScores]. *)
Definition topPatentsWithScores (brefId : string) : list ranked :=
  filter (fun r => ge_threshold (relevanceScore r) = true)
    (map (fun p =>
            {| entry := p;
               relevanceScore := getRelevanceScore p (Some brefId) |})
         topPatents).

(** The body of the [for (const patentId in brefRelevanceScores)] loop,
    pushing onto [brefRelevantPatents]. *)
Definition pushBrefRelevant (brefId : string)
    (index : list (string * details))
    (brefRelevantPatents : list ranked)
    (patentScores : string * list (string * Q)) : list ranked :=
  let '(patentId, scores) := patentScores in
  if existsb (fun p => String.eqb (id p) patentId) topPatents
  then brefRelevantPatents
  else
    match get scores brefId with
    | Some brefScore =>
        if truthy_num brefScore && ge_threshold brefScore then
          match get index patentId with
          | Some patentDetails =>
              brefRelevantPatents ++
              [ {| entry :=
                     {| id := patentId;
                        title :=
                          Some (match truthy_str (details_title patentDetails) with
                                | Some t => t
                                | None => ("Patent " ++ patentId)%string
                                end);
                        year := details_year patentDetails;
                        abstract :=
                          match truthy_str (details_abstract patentDetails) with
                          | Some a => Some a
                          | None => details_text patentDetails
                          end;
                        score := 0;
                        bref_relevance := Some [(brefId, brefScore)] |};
                   relevanceScore := brefScore |} ]
          | None => brefRelevantPatents
          end
        else brefRelevantPatents
    | None => brefRelevantPatents
    end.

Definition brefRelevantPatents (brefId : string) : list ranked :=
  match patentIndex with
  | Some index =>
      fold_left (pushBrefRelevant brefId index) brefRelevanceScores []
  | None => []
  end.

Definition combinedPatents (brefId : string) : list ranked :=
  topPatentsWithScores brefId ++ brefRelevantPatents brefId.

(** [Array.from(new Map(combinedPatents.map(p => [p.id, p])).values())] *)
Definition uniquePatents (brefId : string) : list ranked :=
  Map_values
    (Map_new (map (fun r => (id (entry r), r)) (combinedPatents brefId))).

(** The pollutant branch, before sorting. *)
Definition pollutantPatents : list ranked :=
  filter (fun r => ge_threshold (relevanceScore r) = true)
    (map (fun p => {| entry := p; relevanceScore := score p |})
         topPatents).

(** The id of the selected BREF when the BREF branch is taken:
    [selectedBref && selectedBref.id &&
     Object.keys(brefRelevanceScores).length > 0]. *)
Definition brefBranch : option string :=
  match selectedBref with
  | Some b =>
      match truthy_str (BrefSelector.id_of b) with
      | Some brefId =>
          if Nat.ltb 0 (length brefRelevanceScores) then Some brefId
          else None
      | None => None
      end
  | None => None
  end.


Definition rankedPatents : list ranked :=
  if Nat.eqb (length topPatents) 0 then []
  else
    match brefBranch with
    | Some brefId =>
        if Z.eqb getBrefRelevantPatentCount 0 then []
        else
          slice0 maxPatents
            (sort_desc relevanceScore (uniquePatents brefId))
    | None =>
        slice0 maxPatents (sort_desc relevanceScore pollutantPatents)
    end.
End Ranking.

(** [getColorByScore], the same in the ranking box and in the details
    box.  Of the four literals only [0.6] is a double below its decimal
    value (5404319552844595 / 2^53); the doubles written [0.8], [0.4] and
    [0.2] lie just above theirs, so for them, as for the threshold, the
    decimal value gives the same comparison on doubles. *)
Definition getColorByScore (s : Q) : string :=
  if Qle_bool (8 # 10) s then "#22c55e"
  else if Qle_bool (5404319552844595 # 9007199254740992) s then "#84cc16"
  else if Qle_bool (4 # 10) s then "#eab308"
  else if Qle_bool (2 # 10) s then "#f97316"
  else "#ef4444".

End PatentRanking.

(** ** PatentDetailsBox.jsx *)

Module PatentDetails.
Import Js.

(** An element of [topBrefSections], [{ brefId, score }]. *)
Record section : Type := {
  brefId : string;
  score : Q
}.

(** The value the effect computes for [setTopBrefSections] from the
    scores of the patent shown. *)
Definition topSections (brefRelevanceScores : BrefSelector.matrix)
    (patentId : string) : list section :=
  let patentBrefScores := default [] (get brefRelevanceScores patentId) in
  if Nat.eqb (length patentBrefScores) 0 then []
  else
    slice0 5
      (sort_desc score
         (List.filter (fun item => ge_threshold (score item))
            (map (fun kv => {| brefId := fst kv; score := snd kv |})
                 patentBrefScores))).

(** The effect on [topBrefSections]: nothing is set when the patent has
    no id. *)
Definition topBrefSections (brefRelevanceScores : BrefSelector.matrix)
    (patentId : option string) (prev : list section) : list section :=
  match truthy_str patentId with
  | Some pid => topSections brefRelevanceScores pid
  | None => prev
  end.

End PatentDetails.

(** ** OptimizedPollutionAbatementDashboard.jsx *)

Module Dashboard.
Import Js.

(** The active BREF selection: [selectedBref] and [selectedBrefPath]. *)
Record selection : Type := {
  selectedBref : option BrefSelector.hnode;
  selectedBrefPath : list BrefSelector.pathEntry
}.

(** [handleBrefSelect(bref, brefPath = [])] *)
Definition handleBrefSelect (bref : option BrefSelector.hnode)
    (brefPath : option (list BrefSelector.pathEntry)) (st : selection)
  : selection :=
  {| selectedBref := bref; selectedBrefPath := default [] brefPath |}.

(** The selector is mounted with [onBrefSelect={handleBrefSelect}]: the
    selection after the calls a handler of the selector made. *)
Definition onBrefSelect
    (calls : list (BrefSelector.hnode * list BrefSelector.pathEntry))
    (st : selection) : selection :=
  fold_left (fun s call => handleBrefSelect (Some (fst call)) (Some (snd call)) s)
            calls st.

(** [handleSelectNode] of the selector, seen from the dashboard state. *)
Definition selectNode (selectedPollutant : option string)
    (node : BrefSelector.hnode) (path : option (list BrefSelector.pathEntry))
    (isRelevant isLeaf : bool) (st : selection) : selection :=
  onBrefSelect
    (BrefSelector.handleSelectNode selectedPollutant node path isRelevant isLeaf)
    st.

(** The section handed to [handleAddBrefToContext], and the entry kept in
    [selectedBrefs]. *)
Record bref : Type := {
  bref_id : string;
  bref_name : option string
}.

Record brefInContext : Type := {
  id : string;
  name : string;
  text : Js.text
}.

Definition handleAddBrefToContext (b : bref) (brefText : Js.text)
    (prev : list brefInContext) : list brefInContext :=
  let brefToAdd :=
    {| id := bref_id b;
       name := default (bref_id b) (truthy_str (bref_name b));
       text := brefText |} in
  if existsb (fun b' => String.eqb (id b') (bref_id b)) prev then prev
  else prev ++ [brefToAdd].

Section PatentContext.
(** Patents reach the dashboard from several widgets; only their [id]
    is looked at. *)
Context {Patent : Type} (patent_id : Patent -> string).

Definition handlePatentToggle (patent : Patent) (prev : list Patent)
  : list Patent :=
  if existsb (fun p => String.eqb (patent_id p) (patent_id patent)) prev
  then List.filter
         (fun p => negb (String.eqb (patent_id p) (patent_id patent))) prev
  else prev ++ [patent].

(** [handleRemovePatent] *)
Definition handleRemovePatent (patentId : string) (prev : list Patent)
  : list Patent :=
  List.filter (fun p => negb (String.eqb (patent_id p) patentId)) prev.
End PatentContext.

(** [handleRemoveBref] *)
Definition handleRemoveBref (brefId : string) (prev : list brefInContext)
  : list brefInContext :=
  List.filter (fun b => negb (String.eqb (id b) brefId)) prev.

End Dashboard.

(** ** promptTemplates.js *)

Module PromptTemplates.
Import Js.

(** The button prompts.  A template literal is the concatenation of its
    pieces; the code unit 34 is the double quote around the pollutant. *)
Definition createBrefPollutantConnectionPrompt (selectedPollutant : text) : text :=
  text_of "Analyze the connection between the selected BREF section(s) and the pollutant " ++
  [34%N] ++
  selectedPollutant ++
  [34%N] ++
  text_of ".

Please provide:
1. A detailed explanation of how the techniques described in these BREF sections can help reduce this pollutant
2. The specific mechanisms through which these techniques work
3. Expected reduction levels or efficiency ranges when properly implemented
4. Implementation considerations including cost factors, industry applicability, and technical requirements
5. Any limitations or constraints of these techniques

Focus on practical implementation details and real-world effectiveness.".

Definition createBrefPatentConnectionPrompt : text :=
  text_of "Analyze the connections and synergies between the selected BREF section(s) and patent(s).

Please provide:
1. An assessment of how well the patents align with or implement the techniques described in the BREF documents
2. Identification of specific technological approaches that connect the patents to the BREF requirements
3. Areas of innovation where the patents extend beyond basic BREF requirements
4. Potential implementation strategies that combine BREF guidelines with the patented technologies
5. A comparative analysis of different approaches across the patents and BREF sections

Focus on how these technologies can work together to achieve regulatory compliance while maximizing pollution reduction.".

Definition createPatentPollutantConnectionPrompt (selectedPollutant : text) : text :=
  text_of "Explain the connection between the selected patent(s) and the pollutant " ++
  [34%N] ++
  selectedPollutant ++
  [34%N] ++
  text_of ".

Please provide:
1. A detailed explanation of how the technologies described in these patents help reduce this pollutant
2. The mechanisms of action for each technology (chemical, physical, biological processes)
3. Estimated reduction percentages or efficiency ranges based on the patents' descriptions
4. Implementation considerations including cost implications, scalability, and technical requirements
5. Comparative advantages of these technologies compared to conventional approaches

Focus on practical applications and real-world impact potential of these technologies.".

Definition createSDGReportPrompt (selectedPollutant : text) : text :=
  text_of "Create a comprehensive report connecting the pollutant " ++
  [34%N] ++
  selectedPollutant ++
  [34%N] ++
  text_of " to the Sustainable Development Goals (SDGs), emphasizing where this pollutant is most relevant.

Please provide:
1. An analysis of how this pollutant impacts each relevant SDG
2. Specific ways the selected BREF section(s) address these SDG impacts
3. How the technologies in the selected patent(s) contribute to achieving these SDGs
4. Quantitative assessment (where possible) of potential SDG improvements
5. Strategic recommendations for maximizing SDG benefits while reducing this pollutant

Structure your report with clear sections for each relevant SDG, and prioritize SDGs where this pollutant has the most significant impact.".

(** [truncatedText] of [createSystemPrompt]: the content of a BREF section
    as it enters the system prompt. *)
Definition truncatedText (brefText : text) : text :=
  let maxTextLength := 500 in
  if Nat.ltb maxTextLength (length brefText)
  then firstn maxTextLength brefText ++ text_of "..."
  else brefText.

End PromptTemplates.

(** ** ChatInterface.jsx *)

Module Chat.
Import Js.

Inductive sender : Type := system | user | assistant.

Record message : Type := {
  msg_sender : sender;
  msg_text : text
}.

Record state : Type := {
  messages : list message;
  inputMessage : text;
  isLoading : bool;
  error : option text
}.

(** A request made to the language-model collaborator:
    [callOpenAI(userMessage, systemPrompt, chatHistory)]. *)
Record request : Type := {
  userMessage : text;
  systemPrompt : text;
  chatHistory : list message
}.

Definition isSystem (m : message) : bool :=
  match msg_sender m with system => true | _ => false end.

Section Component.
Context {Patent Bref : Type}.
(** Props. *)
Variable selectedPatents : list Patent.
Variable selectedBrefs : list Bref.
(** [createSystemPrompt] of promptTemplates.js, at the other props. *)
Variable createSystemPrompt : list Patent -> list Bref -> text.
(** The collaborator: the response text, or the message of the error it
    throws. *)
Variable callOpenAI : request -> text + text.

(** [callChatAPI]: the state once the call has settled, and the request
    made.  [messages] inside is the transcript of the render the handler
    was created in, [st0]. *)
Definition callChatAPI (st0 : state) (userMessage systemPrompt : text)
    (st : state) : state * list request :=
  let chatHistory := List.filter (fun m => negb (isSystem m)) (messages st0) in
  let req := {| userMessage := userMessage; systemPrompt := systemPrompt;
                chatHistory := chatHistory |} in
  match callOpenAI req with
  | inl response =>
      ({| messages := messages st ++
                      [{| msg_sender := assistant; msg_text := response |}];
          inputMessage := inputMessage st;
          isLoading := false;
          error := None |}, [req])
  | inr err_message =>
      ({| messages := messages st ++
                      [{| msg_sender := system;
                          msg_text :=
                            (text_of "Error: Unable to process your request. "
                             ++ err_message)%list |}];
          inputMessage := inputMessage st;
          isLoading := false;
          error := Some (text_of "Failed to get response: "
                         ++ err_message)%list |},
       [req])
  end.

Definition handleSendMessage (st : state) (message : text)
  : state * list request :=
  if negb (truthy_text (trim message)) && negb (isLoading st) then (st, [])
  else if Nat.eqb (length selectedPatents) 0
          && Nat.eqb (length selectedBrefs) 0 then
    ({| messages := messages st ++
          [{| msg_sender := system;
              msg_text := text_of
                "Please select at least one patent or BREF section before asking questions." |}];
        inputMessage := inputMessage st;
        isLoading := isLoading st;
        error := error st |}, [])
  else
    let st1 := {| messages := messages st ++
                    [{| msg_sender := user; msg_text := message |}];
                  inputMessage := [];
                  isLoading := isLoading st;
                  error := error st |} in
    callChatAPI st message
                (createSystemPrompt selectedPatents selectedBrefs) st1.

(** The [selectedPollutant] prop. *)
Variable selectedPollutant : text.

(** [setMessages(prev => [...prev, { sender: 'system', text }])] *)
Definition warn (st : state) (warning : string) : state :=
  {| messages := messages st ++
                 [{| msg_sender := system; msg_text := text_of warning |}];
     inputMessage := inputMessage st;
     isLoading := isLoading st;
     error := error st |}.

(** [setInputMessage(message); handleSendMessage(message);] *)
Definition sendPrompt (st : state) (message : text)
  : state * list request :=
  handleSendMessage
    {| messages := messages st;
       inputMessage := message;
       isLoading := isLoading st;
       error := error st |}
    message.

Definition handleBrefPollutantConnection (st : state)
  : state * list request :=
  if Nat.eqb (length selectedBrefs) 0 then
    (warn st "Please select at least one BREF section before analyzing BREF-pollutant connections.", [])
  else
    sendPrompt st
      (PromptTemplates.createBrefPollutantConnectionPrompt selectedPollutant).

Definition handleBrefPatentConnection (st : state)
  : state * list request :=
  if Nat.eqb (length selectedBrefs) 0
     || Nat.eqb (length selectedPatents) 0 then
    (warn st "Please select at least one BREF section and one patent before analyzing BREF-patent connections.", [])
  else
    sendPrompt st PromptTemplates.createBrefPatentConnectionPrompt.

Definition handlePatentPollutantConnection (st : state)
  : state * list request :=
  if Nat.eqb (length selectedPatents) 0 then
    (warn st "Please select at least one patent before analyzing patent-pollutant connections.", [])
  else
    sendPrompt st
      (PromptTemplates.createPatentPollutantConnectionPrompt
         selectedPollutant).

Definition handleSDGReport (st : state) : state * list request :=
  sendPrompt st (PromptTemplates.createSDGReportPrompt selectedPollutant).
End Component.

End Chat.

(** ** chatApiService.js *)

Module ChatApiService.
Import Js.

(** An element of a [content] array and an element of [input]. *)
Record contentPart : Type := {
  part_type : string;
  part_text : text
}.

Record inputItem : Type := {
  role : string;
  content : list contentPart
}.

(** The request body, without the fields [text], [reasoning] and [tools],
    which are constants.  The literal written [0.7] is kept as 7/10; it is
    only passed on. *)
Record requestBody : Type := {
  model : string;
  input : list inputItem;
  temperature : Q;
  max_output_tokens : Q;
  top_p : Q;
  store : bool
}.

(** What [fetch] resolves to: the status, and of the JSON body the fields
    [text] and [response?.text], [None] where the field (or [response])
    is missing. *)
Record httpResponse : Type := {
  status : nat;
  data_text : option text;
  data_response_text : option text
}.

(** [response.ok] *)
Definition ok (response : httpResponse) : bool :=
  (200 <=? status response) && (status response <=? 299).

Definition isUser (msg : Chat.message) : bool :=
  match Chat.msg_sender msg with Chat.user => true | _ => false end.

(** The callback of [chatHistory.map]. *)
Definition formatMessage (msg : Chat.message) : inputItem :=
  {| role := if isUser msg then "user" else "assistant";
     content := [{| part_type := if isUser msg then "input_text"
                                 else "output_text";
                    part_text := Chat.msg_text msg |}] |}.

Definition textItem (role : string) (t : text) : inputItem :=
  {| role := role;
     content := [{| part_type := "input_text"; part_text := t |}] |}.

(** The body [callOpenAI] posts. *)
Definition buildRequestBody (userMessage systemPrompt : text)
    (chatHistory : list Chat.message) : requestBody :=
  let input0 := [textItem "system" systemPrompt] in
  let input1 :=
    if 0 <? length chatHistory then
      match input0 with
      | first :: _ => first :: map formatMessage chatHistory
      | [] => map formatMessage chatHistory
      end
    else input0 in
  {| model := "gpt-4o";
     input := input1 ++ [textItem "user" userMessage];
     temperature := 7 # 10;
     max_output_tokens := 2048;
     top_p := 1;
     store := true |}.

(** [x || y] on strings that may be missing. *)
Definition orElse (x : option text) (y : text) : text :=
  match x with
  | Some t => if truthy_text t then t else y
  | None => y
  end.

(** [data.text || data.response?.text || "I'm sorry, ..."] *)
Definition assistantResponse (data : httpResponse) : text :=
  orElse (data_text data)
    (orElse (data_response_text data)
       (text_of "I'm sorry, I couldn't process your request.")).

Section Client.
(** [fetch(API_URL, { method: 'POST', ... })] for a server that answers
    with a JSON body. *)
Variable fetch : requestBody -> httpResponse.

(** [callOpenAI]: the text it resolves to, or the message of the error
    it throws. *)
Definition callOpenAI (req : Chat.request) : text + text :=
  let response :=
    fetch (buildRequestBody (Chat.userMessage req) (Chat.systemPrompt req)
             (Chat.chatHistory req)) in
  if negb (ok response) then
    inr (text_of ("API request failed with status "
                  ++ pretty (status response))%string)
  else inl (assistantResponse response).
End Client.

End ChatApiService.

(** ** server-render.js: the [/api/openai] route *)

Module Server.
Import Js.

(** [req.body], as far as the route reads it.  [body_input] is [None]
    when [input] is missing, falsy or not an array; the elements of an
    array are objects of the shape [callOpenAI] sends. *)
Record body : Type := {
  body_input : option (list ChatApiService.inputItem);
  body_model : option string;
  body_temperature : option Q;
  body_max_output_tokens : option Q;
  body_top_p : option Q
}.

Record chatMessage : Type := {
  role : string;
  content : text
}.

Record openaiRequest : Type := {
  model : string;
  messages : list chatMessage;
  temperature : Q;
  max_tokens : Q;
  top_p : Q
}.

(** What [axios.post] does: it resolves to a completion, of which
    [choices[0].message.content] is read ([None] when a link of that chain
    is missing), or it throws; [Some status] is [error.response.status],
    [None] an error without a response. *)
Inductive upstream : Type :=
| completion (content : option text)
| failure (response_status : option nat).

(** The response: the status and the [text] field of its JSON body. *)
Record reply : Type := {
  status : nat;
  text_field : option text
}.

(** [parts.join(sep)] *)
Fixpoint join (sep : text) (parts : list text) : text :=
  match parts with
  | [] => []
  | [p] => p
  | p :: rest => p ++ sep ++ join sep rest
  end.

(** The callback of [input.map]. *)
Definition toMessage (item : ChatApiService.inputItem) : chatMessage :=
  {| role := ChatApiService.role item;
     content := join [10%N]
                  (map ChatApiService.part_text
                       (ChatApiService.content item)) |}.

(** [x || dflt] on a number that may be missing. *)
Definition numberOr (x : option Q) (dflt : Q) : Q :=
  match x with
  | Some q => if truthy_num q then q else dflt
  | None => dflt
  end.

Section Route.
(** [process.env.OPENAI_API_KEY] *)
Variable apiKey : option string.
Variable axios_post : openaiRequest -> upstream.

(** The handler of [app.post('/api/openai', ...)]: the response and the
    requests made to the completion service. *)
Definition route (b : body) : reply * list openaiRequest :=
  match truthy_str apiKey with
  | None => ({| status := 500; text_field := None |}, [])
  | Some _ =>
      match body_input b with
      | None => ({| status := 400; text_field := None |}, [])
      | Some input =>
          let openaiRequest :=
            {| model := default "gpt-4o" (truthy_str (body_model b));
               messages := map toMessage input;
               temperature := numberOr (body_temperature b) (7 # 10);
               max_tokens := numberOr (body_max_output_tokens b) 2048;
               top_p := numberOr (body_top_p b) 1 |} in
          match axios_post openaiRequest with
          | completion content =>
              ({| status := 200;
                  text_field :=
                    Some (ChatApiService.orElse content
                            (text_of "No response received")) |},
               [openaiRequest])
          | failure response_status =>
              ({| status := default 500 response_status;
                  text_field := None |},
               [openaiRequest])
          end
      end
  end.

(** [JSON.stringify(requestBody)] read back by [express.json()]. *)
Definition received (rb : ChatApiService.requestBody) : body :=
  {| body_input := Some (ChatApiService.input rb);
     body_model := Some (ChatApiService.model rb);
     body_temperature := Some (ChatApiService.temperature rb);
     body_max_output_tokens := Some (ChatApiService.max_output_tokens rb);
     body_top_p := Some (ChatApiService.top_p rb) |}.

(** [fetch] of chatApiService.js answered by this route. *)
Definition fetch (rb : ChatApiService.requestBody)
  : ChatApiService.httpResponse :=
  let r := fst (route (received rb)) in
  {| ChatApiService.status := status r;
     ChatApiService.data_text := text_field r;
     ChatApiService.data_response_text := None |}.
End Route.

End Server.

(** ** api/openai.js *)

Module ApiOpenai.
Import Js.

Section Handler.
(** The JSON values of [input], [text], [reasoning] and [tools], and the
    response of the client library, are passed through unread. *)
Context {Input TextFormat Reasoning Tools Response : Type}.

(** [req.body], an object; a field is [None] when it is missing or
    falsy, and a numeric field holds a number, [store] a boolean. *)
Record body : Type := {
  body_input : option Input;
  body_model : option string;
  body_text : option TextFormat;
  body_reasoning : option Reasoning;
  body_tools : option Tools;
  body_temperature : option Q;
  body_max_output_tokens : option Q;
  body_top_p : option Q;
  body_store : option bool
}.

(** The argument of [openai.responses.create]. *)
Record params : Type := {
  model : string;
  input : Input;
  text : TextFormat;
  reasoning : Reasoning;
  tools : Tools;
  temperature : Q;
  max_output_tokens : Q;
  top_p : Q;
  store : bool
}.

(** [{ format: { type: "text" } }], [{}] and [[]]. *)
Variable defaultText : TextFormat.
Variable defaultReasoning : Reasoning.
Variable defaultTools : Tools.

(** [process.env.OPENAI_API_KEY] *)
Variable OPENAI_API_KEY : option string.
(** [openai.responses.create]: the response, or the [status] of the
    error it throws ([None] when the error has none). *)
Variable create : params -> Response + option nat.

(** [x || true] on a boolean that may be missing. *)
Definition orTrue (x : option bool) : bool :=
  match x with
  | Some b => b || true
  | None => true
  end.

Definition createParams (requestBody : body) (model : string)
    (input : Input) : params :=
  {| model := model;
     input := input;
     text := default defaultText (body_text requestBody);
     reasoning := default defaultReasoning (body_reasoning requestBody);
     tools := default defaultTools (body_tools requestBody);
     temperature := Server.numberOr (body_temperature requestBody) (7 # 10);
     max_output_tokens :=
       Server.numberOr (body_max_output_tokens requestBody) 2048;
     top_p := Server.numberOr (body_top_p requestBody) 1;
     store := orTrue (body_store requestBody) |}.

(** [handler]: the status of the response, the response passed back on
    success, and the calls made to the client library. *)
Definition handler (method : string) (requestBody : body)
  : nat * option Response * list params :=
  if negb (String.eqb method "POST") then (405, None, [])
  else
    match truthy_str OPENAI_API_KEY with
    | None => (500, None, [])
    | Some _ =>
        match body_input requestBody, truthy_str (body_model requestBody) with
        | Some input, Some model =>
            let p := createParams requestBody model input in
            match create p with
            | inl response => (200, Some response, [p])
            | inr error_status =>
                if bool_decide (error_status = Some 429) then
                  (429, None, [p])
                else if bool_decide (error_status = Some 401) then
                  (401, None, [p])
                else (500, None, [p])
            end
        | _, _ => (400, None, [])
        end
    end.
End Handler.

End ApiOpenai.

(** ** dataLoader.js: the client-side cache *)

Module DataLoader.

(** [const CACHE_EXPIRATION = 5 * 60 * 1000;] *)
Definition CACHE_EXPIRATION : Z := 5 * 60 * 1000.

Section Cache.
(** The truthy values a data file can hold; [None] is [null] (and stands
    for the other falsy JSON values, which the loaders treat as it). *)
Context {A : Type}.

(** An entry of [dataCache]; times are those of [Date.now()]. *)
Record cacheItem : Type := {
  data : option A;
  timestamp : Z
}.

(** [{ data: null, timestamp: 0 }] *)
Definition emptyItem : cacheItem := {| data := None; timestamp := 0 |}.

Definition isCacheValid (item : cacheItem) (now : Z) : bool :=
  match data item with
  | None => false
  | Some _ => (now - timestamp item <? CACHE_EXPIRATION)%Z
  end.

Definition updateCache (value : option A) (now : Z) : cacheItem :=
  {| data := value; timestamp := now |}.

(** What happened to the request of a loader. *)
Inductive outcome : Type :=
| fromCache
| fetched
| fetchFailed.

(** [loadDashboardSummary], for one load at a time.  [checkedAt] is the
    time of the validity check; [response] is what the fetch and
    [response.json()] give, [None] when either throws, with the time the
    cache is updated at.  [loadSdgData], [loadPollutantFilenames] and
    [loadPatentIndex] are the same function on their own cache entry,
    with their own value for [minimal]. *)
Variable minimal : A.

Definition loadDashboardSummary (item : cacheItem) (checkedAt : Z)
    (response : option (option A)) (updatedAt : Z)
  : option A * cacheItem * outcome :=
  if isCacheValid item checkedAt then (data item, item, fromCache)
  else
    match response with
    | Some value => (value, updateCache value updatedAt, fetched)
    | None =>
        match data item with
        | Some stale => (Some stale, item, fetchFailed)
        | None => (Some minimal, item, fetchFailed)
        end
    end.

(** The pair of entries [brefHierarchy] and [brefFlatMap]. *)
Record brefCache : Type := {
  brefHierarchy : cacheItem;
  brefFlatMap : cacheItem
}.

(** The file behind both: [data.hierarchy] and [data.flatMap], [None]
    where the field is missing or falsy. *)
Record brefFile : Type := {
  hierarchy : option A;
  flatMap : option A
}.

(** [{}] *)
Variable emptyObject : A.

(** The two [updateCache] calls that follow a fetch; [t1] and [t2] are
    the times of the first and of the second. *)
Definition storeBoth (file : brefFile) (t1 t2 : Z) : brefCache :=
  {| brefHierarchy :=
       updateCache (Some (default emptyObject (hierarchy file))) t1;
     brefFlatMap :=
       updateCache (Some (default emptyObject (flatMap file))) t2 |}.

(** [loadBrefHierarchy].  A valid entry holds data, which is what the
    first branch returns. *)
Definition loadBrefHierarchy (cache : brefCache) (checkedAt : Z)
    (response : option brefFile) (t1 t2 : Z)
  : A * brefCache * outcome :=
  if isCacheValid (brefHierarchy cache) checkedAt then
    (default emptyObject (data (brefHierarchy cache)), cache, fromCache)
  else
    match response with
    | Some file =>
        (default emptyObject (hierarchy file), storeBoth file t1 t2, fetched)
    | None =>
        (default emptyObject (data (brefHierarchy cache)), cache,
         fetchFailed)
    end.

(** The branches of [loadBrefFlatMap]. *)
Inductive flatMapBranch : Type :=
| cached
| viaHierarchy
| standardLoad
| failed.

(** [loadBrefFlatMap]; the result is [None] where the code returns
    [null].  In the branch [viaHierarchy] the hierarchy is loaded at the
    time [recheckedAt]. *)
Definition loadBrefFlatMap (cache : brefCache) (checkedAt recheckedAt : Z)
    (response : option brefFile) (t1 t2 : Z)
  : option A * brefCache * flatMapBranch :=
  if isCacheValid (brefFlatMap cache) checkedAt then
    (data (brefFlatMap cache), cache, cached)
  else if isCacheValid (brefHierarchy cache) checkedAt
          && negb (isCacheValid (brefFlatMap cache) checkedAt) then
    let cache' :=
      snd (fst (loadBrefHierarchy cache recheckedAt response t1 t2)) in
    (data (brefFlatMap cache'), cache', viaHierarchy)
  else
    match response with
    | Some file =>
        (Some (default emptyObject (flatMap file)), storeBoth file t1 t2,
         standardLoad)
    | None =>
        match data (brefFlatMap cache) with
        | Some stale => (Some stale, cache, failed)
        | None => (Some emptyObject, cache, failed)
        end
    end.
End Cache.

End DataLoader.

(** ** brefUtils.js *)

Module BrefUtils.
Import Js.

(** [s.startsWith(sep)] *)
Fixpoint startsWith (sep s : text) : bool :=
  match sep, s with
  | [], _ => true
  | a :: sep', b :: s' => N.eqb a b && startsWith sep' s'
  | _ :: _, [] => false
  end.

(** [s.split(sep)] for a separator that is not empty, read from left to
    right: [skip] is the number of code units of a separator just found
    that are still to be passed over, [cur] the part being read, last
    unit first. *)
Fixpoint split_from (sep : text) (skip : nat) (cur : text) (s : text)
  : list text :=
  match s with
  | [] => [rev cur]
  | c :: rest =>
      match skip with
      | S k => split_from sep k cur rest
      | O =>
          if startsWith sep s then
            rev cur :: split_from sep (length sep - 1) [] rest
          else split_from sep 0 (c :: cur) rest
      end
  end.

Definition split (sep s : text) : list text := split_from sep 0 [] s.

(** [":::"] *)
Definition separator : text := [58; 58; 58]%N.

(** [s.replace(/_/g, ' ')] *)
Definition replaceUnderscores (s : text) : text :=
  map (fun c => if N.eqb c 95 then 32%N else c) s.

(** [getBrefSectionName]; [undefined] behaves as the empty string. *)
Definition getBrefSectionName (brefId : text) : text :=
  if negb (truthy_text brefId) then []
  else
    let parts := split separator brefId in
    let sectionName :=
      if 1 <? length parts then List.last parts [] else brefId in
    replaceUnderscores sectionName.

Definition getBrefType (brefId : text) : text :=
  if negb (truthy_text brefId) then []
  else
    let parts := split separator brefId in
    if 0 <? length parts then hd [] parts else [].

(** A segment of a path: [name] and [id], either of which may be
    missing. *)
Record segment : Type := {
  seg_name : option text;
  seg_id : option text
}.

(** [segment.name || getBrefSectionName(segment.id)] *)
Definition segmentLabel (s : segment) : text :=
  ChatApiService.orElse (seg_name s)
    (getBrefSectionName (default [] (seg_id s))).

(** [formatBrefPath] on an array ([path] is [None] where the argument is
    missing or not an array). *)
Definition formatBrefPath (path : option (list segment)) : text :=
  match path with
  | None | Some [] => []
  | Some segments =>
      Server.join (text_of " > ") (map segmentLabel segments)
  end.

(** LF and CR, the matches of [/\n|\r|\r\n/]. *)
Definition isLineBreak (c : N) : bool := N.eqb c 10 || N.eqb c 13.

(** [text.split(/\n|\r|\r\n/)[0]]: what precedes the first match. *)
Fixpoint firstLine (s : text) : text :=
  match s with
  | [] => []
  | c :: rest => if isLineBreak c then [] else c :: firstLine rest
  end.

Definition extractBrefTitle (t : text) : text :=
  if negb (truthy_text t) then [] else trim (firstLine t).

End BrefUtils.

(** ** Reference notions the properties are stated with *)

Module Spec.
Import Js.

(** The number of (patentId, nodeId, score) triples of the matrix, for a
    given nodeId, whose score reaches the threshold. *)
Definition triplesAtOrAbove (relevanceScores : BrefSelector.matrix)
    (nodeId : string) : nat :=
  list_sum
    (map (fun patent =>
            length (List.filter
                      (fun e => String.eqb (fst e) nodeId && ge_threshold (snd e))
                      (snd patent)))
         relevanceScores).


(** De-duplication by key in which the first occurrence wins: an element
    is kept unless its key has been seen. *)
Fixpoint dedupFirstFrom {A} (key : A -> string) (seen : list string)
    (l : list A) : list A :=
  match l with
  | [] => []
  | x :: rest =>
      if existsb (String.eqb (key x)) seen then dedupFirstFrom key seen rest
      else x :: dedupFirstFrom key (key x :: seen) rest
  end.

Definition dedupFirst {A} (key : A -> string) (l : list A) : list A :=
  dedupFirstFrom key [] l.

(** [a] may stand before [b] in an array sorted descending by [key]. *)
Definition descending {A} (key : A -> Q) (a b : A) : Prop :=
  (key b <= key a)%Q.

(** A ranked entry whose [relevanceScore] reaches the threshold. *)
Definition reliable (r : PatentRanking.ranked) : Prop :=
  ge_threshold (PatentRanking.relevanceScore r) = true.

(** A ranked entry built from the matrix and the patent index: its id is
    not an id of [topPatents], the matrix has its [relevanceScore] for the
    selected node, the index knows the id, and its base score is 0. *)
Definition hydrated (topPatents : list PatentRanking.patent)
    (brefRelevanceScores : BrefSelector.matrix) (brefId : string)
    (index : list (string * PatentRanking.details))
    (r : PatentRanking.ranked) : Prop :=
  existsb (fun p => String.eqb (PatentRanking.id p)
                      (PatentRanking.id (PatentRanking.entry r)))
          topPatents = false ∧
  (∃ scores,
      (PatentRanking.id (PatentRanking.entry r), scores) ∈ brefRelevanceScores ∧
      get scores brefId = Some (PatentRanking.relevanceScore r)) ∧
  is_Some (get index (PatentRanking.id (PatentRanking.entry r))) ∧
  PatentRanking.score (PatentRanking.entry r) = 0%Q.

(** The id of a ranked entry. *)
Definition rankedId (r : PatentRanking.ranked) : string :=
  PatentRanking.id (PatentRanking.entry r).
End Spec.

(** Notions for the cumulative counts. *)
Module Tree.
Import Js BrefSelector.

(** The children of a node that has an id, each with the id the summing
    loop knows it by: its own id, or in a keyed collection its key when
    it has no id.  An array element without an id is passed over by the
    loop and is not listed. *)
Definition childrenWithIds (children : kids hnode) : list (string * hnode) :=
  match children with
  | KNone => []
  | KArr items =>
      omap (fun child =>
              match truthy_str (id_of child) with
              | Some cid => Some (cid, child)
              | None => None
              end) items
  | KMap entries =>
      map (fun kv => (default (fst kv) (truthy_str (id_of (snd kv))), snd kv))
          entries
  end.

(** The children of a node, whatever the collection. *)
Definition kidsList (children : kids hnode) : list hnode :=
  match children with
  | KNone => []
  | KArr items => items
  | KMap entries => map snd entries
  end.

(** What the walk visits below an object without an id. *)
Definition containerItems (children : kids hnode)
    (others : list (string * hnode)) : list hnode :=
  match children with
  | KNone => map snd others
  | KArr items => items
  | KMap entries => map snd entries
  end.

(** The ids of the children whose id is in the relevant-node set. *)
Definition relevantChildIds (relevantNodes : gset string)
    (children : kids hnode) : list string :=
  List.filter (fun cid => bool_decide (cid ∈ relevantNodes))
              (map fst (childrenWithIds children)).

(** The nodes of a hierarchy: the hierarchy itself, the elements of an
    array, what an object without an id contains, and, below a node that
    has an id, the children whose id satisfies [follow].  With [follow]
    the relevant-node set these are the nodes the walk of
    [calculateCumulativeCounts] comes to. *)
Inductive Reaches (follow : string -> Prop) : hnode -> hnode -> Prop :=
| reaches_here node : Reaches follow node node
| reaches_item items child node :
    child ∈ items -> Reaches follow child node ->
    Reaches follow (HArr items) node
| reaches_contained id m c children others child node :
    truthy_str id = None ->
    child ∈ containerItems children others ->
    Reaches follow child node ->
    Reaches follow (HObj id m c children others) node
| reaches_child id m c children others nid cid child node :
    truthy_str id = Some nid ->
    (cid, child) ∈ childrenWithIds children ->
    follow cid ->
    Reaches follow child node ->
    Reaches follow (HObj id m c children others) node.

(** The identifiers of a hierarchy, one per position: the id of every
    node that has one and, for a child of a keyed collection that has no
    id, the key that stands in for it. *)
Fixpoint labels (node : hnode) : list string :=
  match node with
  | HPrim => []
  | HArr items => flat_map (fun child => labels child) items
  | HObj id _ _ children others =>
      match truthy_str id with
      | None =>
          match children with
          | KNone => flat_map (fun kv => labels (snd kv)) others
          | KArr items => flat_map (fun child => labels child) items
          | KMap entries => flat_map (fun kv => labels (snd kv)) entries
          end
      | Some nid =>
          nid ::
          match children with
          | KNone => []
          | KArr items => flat_map (fun child => labels child) items
          | KMap entries =>
              flat_map
                (fun kv =>
                   match truthy_str (id_of (snd kv)) with
                   | Some _ => labels (snd kv)
                   | None => fst kv :: labels (snd kv)
                   end)
                entries
          end
      end
  end.

(** The labels a child contributes below a node that has an id. *)
Definition entryLabels (p : string * hnode) : list string :=
  match truthy_str (id_of (snd p)) with
  | Some _ => labels (snd p)
  | None => fst p :: labels (snd p)
  end.

(** The recursive equation of the cumulative counts at one node:
    cumulative(node) = direct(node) + the sum of cumulative(child) over
    the children whose id is in the relevant-node set. *)
Definition equationAt (directMatches : gmap string nat)
    (relevantNodes : gset string) (cumulative : gmap string nat)
    (node : hnode) : Prop :=
  match node with
  | HObj id _ _ children _ =>
      match truthy_str id with
      | Some nid =>
          count cumulative nid =
          count directMatches nid +
          list_sum (map (count cumulative)
                        (relevantChildIds relevantNodes children))
      | None => True
      end
  | _ => True
  end.
(** The nodes [findRelevantNodes] walks: the hierarchy itself, the
    elements of an array, what an object without an id contains, and all
    the children of a node that has an id. *)
Inductive Walks : hnode -> hnode -> Prop :=
| walks_here node : Walks node node
| walks_item items child node :
    child ∈ items -> Walks child node -> Walks (HArr items) node
| walks_contained id m c children others child node :
    truthy_str id = None ->
    child ∈ containerItems children others ->
    Walks child node ->
    Walks (HObj id m c children others) node
| walks_child id m c children others nid child node :
    truthy_str id = Some nid ->
    child ∈ kidsList children ->
    Walks child node ->
    Walks (HObj id m c children others) node.

(** A node, or an object below it through [children] of objects. *)
Inductive Below : hnode -> hnode -> Prop :=
| below_here node : Below node node
| below_child id m c children others child node :
    child ∈ kidsList children ->
    Below child node ->
    Below (HObj id m c children others) node.
End Tree.

(** ** Concrete inputs *)

(** The fixture of the aggregator scenario. *)
Module Fixture.
Import Js BrefSelector.

(** [{A: {children: [{id: "A1"}, {id: "A2", children: [{id: "A2a"}]}]}}] *)
Definition hierarchy : hnode :=
  HObj None false false KNone
    [("A",
      HObj None false false
        (KArr [HObj (Some "A1") false false KNone [];
               HObj (Some "A2") false false
                 (KArr [HObj (Some "A2a") false false KNone []]) []])
        [])].

(** [{"p1": {"A1": 0.9}, "p2": {"A2a": 0.7}}] *)
Definition relevanceScores : matrix :=
  [("p1", [("A1", 9 # 10)]); ("p2", [("A2a", 7 # 10)])].

Definition relevantNodes : gset string := {["A"; "A1"; "A2"; "A2a"]}.
End Fixture.

(** Inputs of the ranking box. *)
Module RankingInputs.
Import PatentRanking.

(** The selected BREF section [{id: "B"}]. *)
Definition nodeB : BrefSelector.hnode :=
  BrefSelector.HObj (Some "B") true false BrefSelector.KNone [].

(** [{id: "p1", score: 0.9}] *)
Definition p1 : patent :=
  {| id := "p1"; title := None; year := None; abstract := None;
     score := 9 # 10; bref_relevance := None |}.

(** [{"q": {"B": 0.9}}] and an index that knows [q]. *)
Definition matrixQ : BrefSelector.matrix := [("q", [("B", 9 # 10)])].
Definition indexQ : list (string * details) :=
  [("q", {| details_title := Some "Q"; details_year := None;
            details_abstract := None; details_text := None |})].

(** The entry the ranking builds for [q] from [matrixQ] and [indexQ]. *)
Definition rankedQ : ranked :=
  {| entry := {| id := "q"; title := Some "Q"; year := None;
                 abstract := None; score := 0;
                 bref_relevance := Some [("B", 9 # 10)] |};
     relevanceScore := 9 # 10 |}.

(** Two entries with the id [p], at 0.9 and at 0.7 for [B]. *)
Definition pHigh : patent :=
  {| id := "p"; title := Some "first"; year := None; abstract := None;
     score := 9 # 10; bref_relevance := Some [("B", 9 # 10)] |}.
Definition pLow : patent :=
  {| id := "p"; title := Some "second"; year := None; abstract := None;
     score := 9 # 10; bref_relevance := Some [("B", 7 # 10)] |}.

End RankingInputs.

(** Inputs of the selection handler. *)
Module SelectionInputs.
Import BrefSelector.

(** A relevant leaf, and a node with that leaf as its only child. *)
Definition leaf : hnode := HObj (Some "1.1") true false KNone [].
Definition parent : hnode := HObj (Some "1") false true (KArr [leaf]) [].

(** A leaf that carries no match flag. *)
Definition plainLeaf : hnode := HObj (Some "2.1") false false KNone [].

(** A selection already made. *)
Definition current : Dashboard.selection :=
  {| Dashboard.selectedBref := Some leaf;
     Dashboard.selectedBrefPath :=
       [ {| path_id := Some "1"; path_name := "1" |};
         {| path_id := Some "1.1"; path_name := "1.1" |} ] |}.
End SelectionInputs.

(** Inputs of the context handlers and of the chat. *)
Module ContextInputs.
(** The section [{id: "B", name: "Section B"}] and its context entry. *)
Definition sectionB : Dashboard.bref :=
  {| Dashboard.bref_id := "B"; Dashboard.bref_name := Some "Section B" |}.
Definition sectionB_added : Dashboard.brefInContext :=
  {| Dashboard.id := "B"; Dashboard.name := "Section B";
     Dashboard.text := Js.text_of "text" |}.

(** The system message of the empty-context rejection. *)
Definition selectSomethingFirst : Js.text :=
  Js.text_of
    "Please select at least one patent or BREF section before asking questions.".

(** The chat as it is mounted. *)
Definition chat0 : Chat.state :=
  {| Chat.messages :=
       [{| Chat.msg_sender := Chat.system;
           Chat.msg_text :=
             Js.text_of
               "Select patents to analyze technologies for pollution abatement." |}];
     Chat.inputMessage := [];
     Chat.isLoading := false;
     Chat.error := None |}.
End ContextInputs.

(** A hierarchy in which a node with a match lies below a node without any
    flag: [[{id: "a", children: [{id: "b", children: [{id: "c",
    hasMatchForPollutant: true}]}]}]]. *)
Module Gap.
Import BrefSelector.

Definition nodeC : hnode := HObj (Some "c") true false KNone [].
Definition nodeB : hnode := HObj (Some "b") false false (KArr [nodeC]) [].
Definition nodeA : hnode := HObj (Some "a") false false (KArr [nodeB]) [].
Definition hierarchy : hnode := HArr [nodeA].

(** [{"p": {"c": 0.9}}] *)
Definition relevanceScores : matrix := [("p", [("c", 9 # 10)])].
End Gap.

(** A hierarchy in which an id occurs twice:
    [[{id: "a", children: [{id: "a"}]}]]. *)
Module Twice.
Import BrefSelector.

Definition inner : hnode := HObj (Some "a") true false KNone [].
Definition outer : hnode := HObj (Some "a") true false (KArr [inner]) [].
Definition hierarchy : hnode := HArr [outer].
End Twice.

(** ** Notions used for the loaders and the BREF identifiers *)

Module Loaded.
Import DataLoader.

(** The two BREF entries go together: both are empty, or both hold data
    and the flat map was stored no earlier than the hierarchy. *)
Definition coherent {A} (cache : @brefCache A) : Prop :=
  (data (brefHierarchy cache) = None ∧ data (brefFlatMap cache) = None)
  ∨ (is_Some (data (brefHierarchy cache))
     ∧ is_Some (data (brefFlatMap cache))
     ∧ (timestamp (brefHierarchy cache) ≤ timestamp (brefFlatMap cache))%Z).

(** [dataCache] as the module starts with it. *)
Definition initial {A} : @brefCache A :=
  {| brefHierarchy := emptyItem; brefFlatMap := emptyItem |}.

End Loaded.

Module Ids.
Import Js.

(** [sep] occurs in [s]. *)
Definition occurs (sep s : text) : Prop := ∃ a b, s = a ++ sep ++ b.

(** The text neither starts nor ends with white space. *)
Definition trimmed (s : text) : Prop :=
  trimStart s = s ∧ trimStart (rev s) = rev s.

End Ids.

(** * Properties *)

(** ** Direct-match counts *)

Section DirectMatches.
Import Js BrefSelector.
Variable relevantNodes : gset string.

Lemma countDirectMatch_eq directMatches brefId score :
  countDirectMatch relevantNodes directMatches (brefId, score) =
  if ge_threshold score && bool_decide (brefId ∈ relevantNodes)
  then <[brefId := S (count directMatches brefId)]> directMatches
  else directMatches.
Proof.
  unfold countDirectMatch, count.
  destruct (ge_threshold score && bool_decide (brefId ∈ relevantNodes)); [|done].
  destruct (directMatches !! brefId) as [[|n]|] eqn:E; simpl.
  - rewrite lookup_insert_eq. simpl. by rewrite insert_insert_eq.
  - by rewrite E.
  - rewrite lookup_insert_eq. simpl. by rewrite insert_insert_eq.
Qed.

Lemma countDirectMatch_count directMatches brefId score k :
  count (countDirectMatch relevantNodes directMatches (brefId, score)) k =
  count directMatches k +
  (if String.eqb brefId k && ge_threshold score
      && bool_decide (k ∈ relevantNodes) then 1 else 0).
Proof.
  rewrite countDirectMatch_eq. unfold count.
  destruct (String.eqb_spec brefId k) as [->|Hne]; simpl.
  - destruct (ge_threshold score), (bool_decide (k ∈ relevantNodes)); simpl;
      rewrite ?lookup_insert_eq; simpl; lia.
  - destruct (ge_threshold score && bool_decide (brefId ∈ relevantNodes));
      rewrite ?lookup_insert_ne by done; lia.
Qed.

Lemma countDirectMatch_nonzero directMatches e :
  (∀ k, directMatches !! k ≠ Some 0) →
  ∀ k, countDirectMatch relevantNodes directMatches e !! k ≠ Some 0.
Proof.
  destruct e as [brefId score]. intros Hnz k. rewrite countDirectMatch_eq.
  destruct (ge_threshold score && bool_decide (brefId ∈ relevantNodes)); [|done].
  destruct (decide (brefId = k)) as [->|Hne].
  - by rewrite lookup_insert_eq.
  - by rewrite lookup_insert_ne.
Qed.

Lemma patentScores_count scores directMatches k :
  count (fold_left (countDirectMatch relevantNodes) scores directMatches) k =
  count directMatches k +
  (if bool_decide (k ∈ relevantNodes)
   then length (List.filter
                  (fun e => String.eqb (fst e) k && ge_threshold (snd e)) scores)
   else 0).
Proof.
  revert directMatches.
  induction scores as [|[brefId score] scores IH]; intros directMatches;
    cbn [fold_left List.filter].
  - case_bool_decide; simpl; lia.
  - rewrite IH, countDirectMatch_count. cbn [fst snd].
    destruct (String.eqb brefId k), (ge_threshold score),
      (bool_decide (k ∈ relevantNodes)); simpl; lia.
Qed.

Lemma patentScores_nonzero scores directMatches :
  (∀ k, directMatches !! k ≠ Some 0) →
  ∀ k, fold_left (countDirectMatch relevantNodes) scores directMatches !! k
       ≠ Some 0.
Proof.
  revert directMatches.
  induction scores as [|e scores IH]; intros directMatches Hnz; simpl; [done|].
  apply IH. by apply countDirectMatch_nonzero.
Qed.

Lemma matrix_count (relevanceScores : matrix) directMatches k :
  count (fold_left
           (fun dm patent =>
              fold_left (countDirectMatch relevantNodes) (snd patent) dm)
           relevanceScores directMatches) k =
  count directMatches k +
  (if bool_decide (k ∈ relevantNodes)
   then Spec.triplesAtOrAbove relevanceScores k else 0).
Proof.
  revert directMatches.
  induction relevanceScores as [|[patentId scores] rest IH];
    intros directMatches; simpl.
  - unfold Spec.triplesAtOrAbove. simpl. case_bool_decide; lia.
  - rewrite IH, patentScores_count. unfold Spec.triplesAtOrAbove. simpl.
    case_bool_decide; lia.
Qed.

Lemma matrix_nonzero (relevanceScores : matrix) directMatches :
  (∀ k, directMatches !! k ≠ Some 0) →
  ∀ k, fold_left
         (fun dm patent =>
            fold_left (countDirectMatch relevantNodes) (snd patent) dm)
         relevanceScores directMatches !! k ≠ Some 0.
Proof.
  revert directMatches.
  induction relevanceScores as [|e rest IH]; intros directMatches Hnz; simpl;
    [done|].
  apply IH. by apply patentScores_nonzero.
Qed.
End DirectMatches.

(** C2.  In the direct-match phase of [calculateAllPatentCounts] one matrix
    entry (patentId, nodeId, score) raises the count of nodeId by one exactly
    when score >= 0.68 and nodeId is in the relevant-node set, and changes
    nothing otherwise; so, after the whole matrix, the direct count of a
    relevant node is the number of its entries at or above the threshold
    (the node has no entry when that number is zero), and a node outside the
    relevant set has no direct count at all. *)
Theorem direct_match_counts_threshold_and_relevance :
  ∀ (relevantNodes : gset string),
    (∀ directMatches brefId score k,
        Js.count (BrefSelector.countDirectMatch relevantNodes directMatches
                    (brefId, score)) k =
        Js.count directMatches k +
        (if String.eqb brefId k && Qle_bool (68 # 100) score
            && bool_decide (k ∈ relevantNodes) then 1 else 0)) ∧
    (∀ relevanceScores nodeId,
        BrefSelector.directMatchCounts relevanceScores relevantNodes !! nodeId =
        if bool_decide (nodeId ∈ relevantNodes)
        then match Spec.triplesAtOrAbove relevanceScores nodeId with
             | 0 => None
             | S n => Some (S n)
             end
        else None).
Proof.
  intros relevantNodes. split.
  - intros. apply countDirectMatch_count.
  - intros relevanceScores nodeId.
    pose proof (matrix_count relevantNodes relevanceScores ∅ nodeId) as Hc.
    pose proof (matrix_nonzero relevantNodes relevanceScores ∅) as Hnz.
    specialize (Hnz ltac:(intros k; by rewrite lookup_empty) nodeId).
    unfold BrefSelector.directMatchCounts.
    unfold Js.count in Hc. rewrite lookup_empty in Hc. simpl in Hc.
    destruct (fold_left _ relevanceScores ∅ !! nodeId) as [[|n]|] eqn:E;
      simpl in Hc; [done| |].
    + case_bool_decide; [by rewrite <- Hc | lia].
    + case_bool_decide; [by rewrite <- Hc | done].
Qed.

(** ** The concrete scenario of the aggregator *)

(** C6, as the code has it.  On the fixture the direct counts are
    {A1: 1, A2a: 1} and the cumulative counts are {A1: 1, A2a: 1, A2: 1}:
    the object under the key A has no [id], so it is walked as a container
    and gets no entry of its own. *)
Theorem fixture_counts :
  BrefSelector.directMatchCounts Fixture.relevanceScores Fixture.relevantNodes
  = {["A1" := 1; "A2a" := 1]} ∧
  BrefSelector.calculateAllPatentCounts (Some Fixture.relevanceScores)
    (Some Fixture.hierarchy) Fixture.relevantNodes
  = {["A1" := 1; "A2a" := 1; "A2" := 1]}.
Proof. split; vm_compute; reflexivity. Qed.

(** C6, as stated, fails: the cumulative table of the fixture is not
    {A1: 1, A2a: 1, A2: 1, A: 2}; it has no entry for A. *)
Lemma fixture_table_has_no_entry_for_A :
  BrefSelector.calculateAllPatentCounts (Some Fixture.relevanceScores)
    (Some Fixture.hierarchy) Fixture.relevantNodes !! "A" = None ∧
  BrefSelector.calculateAllPatentCounts (Some Fixture.relevanceScores)
    (Some Fixture.hierarchy) Fixture.relevantNodes
  ≠ {["A1" := 1; "A2a" := 1; "A2" := 1; "A" := 2]}.
Proof.
  split; [vm_compute; reflexivity|].
  intros H. apply (f_equal (fun t => t !! "A")) in H.
  vm_compute in H. discriminate H.
Qed.

(** ** Patent ranking: the early exits *)

Section RankingExits.
Import Js PatentRanking.




End RankingExits.

(** C9.  With an empty [topPatents] list [rankedPatents] is the empty list,
    whatever the selected BREF node, the relevance matrix, the patent index
    and the limit are: the first statement of the computation returns
    before the matrix is looked at. *)
Theorem rankedPatents_empty_topPatents :
  ∀ selectedBref brefRelevanceScores patentIndex maxPatents,
    PatentRanking.rankedPatents [] selectedBref brefRelevanceScores
      patentIndex maxPatents = [].
Proof. reflexivity. Qed.

(** The situation C9 speaks of does occur: a matrix holding a patent at 0.9
    for the selected node, which the matrix walk would pick up, and still an
    empty ranking. *)
Example empty_topPatents_skips_matrix_walk :
  PatentRanking.brefRelevantPatents [] RankingInputs.matrixQ (Some RankingInputs.indexQ) "B"
    ≠ [] ∧
  PatentRanking.rankedPatents [] (Some RankingInputs.nodeB) RankingInputs.matrixQ
    (Some RankingInputs.indexQ) 5 = [].
Proof. split; [vm_compute; discriminate | reflexivity]. Qed.




(** ** Selection *)

(** C7.  [handleSelectNode] calls [onBrefSelect] exactly when the selection
    is accepted: never for a non-leaf node, and never, while a pollutant is
    active, for a node that is not relevant.  [onBrefSelect] is the
    dashboard's [handleBrefSelect], so a rejected selection leaves the
    active BREF node and its path as they were, and an accepted one sets
    them to the node and its path and nothing else.  The same holds for a
    click on a rendered row, where "leaf" means that the node has no
    children and "relevant" that [checkNodeMatches] finds a direct or a
    descendant match. *)
Theorem handleSelectNode_rejects_without_mutation :
  ∀ selectedPollutant node path isRelevant isLeaf st,
    let rejected :=
      negb isLeaf
      || (BrefSelector.pollutantActive selectedPollutant && negb isRelevant) in
    BrefSelector.handleSelectNode selectedPollutant node path isRelevant isLeaf
      = (if rejected then [] else [(node, default [] path)]) ∧
    Dashboard.selectNode selectedPollutant node path isRelevant isLeaf st
      = (if rejected then st
         else {| Dashboard.selectedBref := Some node;
                 Dashboard.selectedBrefPath := default [] path |}) ∧
    ∀ showOnlyRelevant currentPath,
      let matches := BrefSelector.checkNodeMatches node in
      (BrefSelector.hasChildren node
       || (BrefSelector.pollutantActive selectedPollutant
           && negb (fst matches || snd matches)) = true →
       BrefSelector.clickNode selectedPollutant showOnlyRelevant node currentPath
         = [] ∧
       Dashboard.onBrefSelect
         (BrefSelector.clickNode selectedPollutant showOnlyRelevant node
            currentPath) st = st).
Proof.
  intros selectedPollutant node path isRelevant isLeaf st rejected.
  unfold Dashboard.selectNode, BrefSelector.handleSelectNode.
  subst rejected.
  split; [|split].
  - destruct isLeaf; simpl; [|done].
    by destruct (BrefSelector.pollutantActive selectedPollutant && negb isRelevant).
  - destruct isLeaf; simpl; [|done].
    by destruct (BrefSelector.pollutantActive selectedPollutant && negb isRelevant).
  - intros showOnlyRelevant currentPath Hrej.
    set (matches := BrefSelector.checkNodeMatches node) in *.
    assert (Hclick : BrefSelector.clickNode selectedPollutant showOnlyRelevant
                       node currentPath = []).
    { unfold BrefSelector.clickNode. destruct node as [|items|i m c ch o]; [done..|].
      fold matches.
      destruct (BrefSelector.pollutantActive selectedPollutant
                && negb (fst matches || snd matches) && showOnlyRelevant); [done|].
      unfold BrefSelector.handleSelectNode.
      destruct (BrefSelector.hasChildren (BrefSelector.HObj i m c ch o));
        simpl in *; [done|].
      by rewrite Hrej. }
    by rewrite Hclick.
Qed.

Lemma handleSelectNode_rejects_without_mutation_witness :
  BrefSelector.clickNode (Some "NOx") false SelectionInputs.parent [] = [] ∧
  Dashboard.onBrefSelect
    (BrefSelector.clickNode (Some "NOx") false SelectionInputs.parent [])
    SelectionInputs.current = SelectionInputs.current.
Proof.
  apply (handleSelectNode_rejects_without_mutation (Some "NOx") SelectionInputs.parent
           None false false SelectionInputs.current).
  reflexivity.
Defined.

(** ** Chat-context sets *)

Section ContextSets.
Import Js Dashboard.

Lemma existsb_filter_length {A} (f : A → bool) (l : list A) :
  existsb f l = true →
  length (List.filter (fun x => negb (f x)) l) < length l.
Proof.
  induction l as [|x l IH]; simpl; [done|].
  destruct (f x) eqn:E; simpl.
  - intros _. pose proof (List.filter_length_le (fun x => negb (f x)) l). lia.
  - intros H. apply IH in H. lia.
Qed.
End ContextSets.

(** C8, as the code has it.  Adding to the BREF-context set a section whose
    id is already a member changes nothing: the list, and so its size, is
    the same.  The operation on the patent-context set is a toggle: called
    with a patent whose id is already a member it removes the entries with
    that id, so the size goes down; called with a patent whose id is not a
    member it appends the patent, and a second call takes it out again. *)
Theorem context_add_member :
  ∀ (b : Dashboard.bref) (brefText : Js.text) (prev : list Dashboard.brefInContext)
    (Patent : Type) (patent_id : Patent → string) (patent : Patent)
    (selected : list Patent),
    existsb (fun b' => String.eqb (Dashboard.id b') (Dashboard.bref_id b)) prev
      = true →
    existsb (fun p => String.eqb (patent_id p) (patent_id patent)) selected
      = true →
    Dashboard.handleAddBrefToContext b brefText prev = prev ∧
    Dashboard.handleAddBrefToContext b brefText
      (Dashboard.handleAddBrefToContext b brefText prev)
      = Dashboard.handleAddBrefToContext b brefText prev ∧
    Dashboard.handlePatentToggle patent_id patent selected
      = List.filter
          (fun p => negb (String.eqb (patent_id p) (patent_id patent))) selected ∧
    length (Dashboard.handlePatentToggle patent_id patent selected)
      < length selected.
Proof.
  intros b brefText prev Patent patent_id patent selected Hb Hp.
  assert (Hadd : Dashboard.handleAddBrefToContext b brefText prev = prev).
  { unfold Dashboard.handleAddBrefToContext. by rewrite Hb. }
  split; [done|]. split; [by rewrite !Hadd|].
  unfold Dashboard.handlePatentToggle. rewrite Hp.
  split; [done|]. by apply existsb_filter_length.
Qed.

Lemma context_add_member_witness :
  Dashboard.handleAddBrefToContext ContextInputs.sectionB (Js.text_of "text")
    [ContextInputs.sectionB_added] = [ContextInputs.sectionB_added] ∧
  length (Dashboard.handlePatentToggle (fun p : string => p) "P1" ["P0"; "P1"])
    < 2.
Proof.
  pose proof (context_add_member ContextInputs.sectionB (Js.text_of "text")
                [ContextInputs.sectionB_added] string (fun p => p) "P1" ["P0"; "P1"]
                eq_refl eq_refl) as [H1 [_ [_ H2]]].
  split; [exact H1 | exact H2].
Defined.

(** The BREF-context add is idempotent from any state, member or not. *)
Lemma handleAddBrefToContext_idempotent :
  ∀ b brefText prev,
    Dashboard.handleAddBrefToContext b brefText
      (Dashboard.handleAddBrefToContext b brefText prev)
    = Dashboard.handleAddBrefToContext b brefText prev.
Proof.
  intros b brefText prev. unfold Dashboard.handleAddBrefToContext at 1.
  assert (H : existsb (fun b' => String.eqb (Dashboard.id b') (Dashboard.bref_id b))
                (Dashboard.handleAddBrefToContext b brefText prev) = true).
  { unfold Dashboard.handleAddBrefToContext.
    destruct (existsb _ prev) eqn:E; [done|].
    rewrite existsb_app. simpl. rewrite String.eqb_refl. by rewrite orb_true_r. }
  by rewrite H.
Qed.

(** C8, as stated, fails for patents: the second call with patent P1 is not
    a no-op, it takes P1 out again. *)
Lemma handlePatentToggle_twice_removes :
  let once := Dashboard.handlePatentToggle (fun p : string => p) "P1" [] in
  let twice := Dashboard.handlePatentToggle (fun p : string => p) "P1" once in
  once = ["P1"] ∧ twice = [] ∧ twice ≠ once ∧ length twice ≠ length once.
Proof. simpl. repeat split; discriminate. Qed.

(** ** Sending a message *)

(** C10, as the code has it.  Called with a message that is not blank (not
    empty once trimmed), or with any message while a request is in flight,
    and with both context sets empty, [handleSendMessage] appends exactly one
    system message to the transcript, changes nothing else, appends no user
    message and makes no request to the collaborator. *)
Theorem handleSendMessage_empty_context :
  ∀ (Patent Bref : Type) (createSystemPrompt : list Patent → list Bref → Js.text)
    (callOpenAI : Chat.request → Js.text + Js.text) (st : Chat.state)
    (message : Js.text),
    Js.trim message ≠ [] ∨ Chat.isLoading st = true →
    Chat.handleSendMessage [] [] createSystemPrompt callOpenAI st message
    = ({| Chat.messages :=
            Chat.messages st ++
            [{| Chat.msg_sender := Chat.system;
                Chat.msg_text := ContextInputs.selectSomethingFirst |}];
          Chat.inputMessage := Chat.inputMessage st;
          Chat.isLoading := Chat.isLoading st;
          Chat.error := Chat.error st |}, []).
Proof.
  intros Patent Bref createSystemPrompt callOpenAI st message H.
  unfold Chat.handleSendMessage.
  assert (Hguard : negb (Js.truthy_text (Js.trim message))
                   && negb (Chat.isLoading st) = false).
  { destruct H as [H|H].
    - destruct (Js.trim message); [done|reflexivity].
    - rewrite H. by rewrite andb_false_r. }
  rewrite Hguard. reflexivity.
Qed.

Lemma handleSendMessage_empty_context_witness :
  Chat.handleSendMessage (@nil string) (@nil string) (fun _ _ => [])
    (fun _ => inl []) ContextInputs.chat0 (Js.text_of "hello")
  = ({| Chat.messages :=
          Chat.messages ContextInputs.chat0 ++
          [{| Chat.msg_sender := Chat.system;
              Chat.msg_text := ContextInputs.selectSomethingFirst |}];
        Chat.inputMessage := Chat.inputMessage ContextInputs.chat0;
        Chat.isLoading := Chat.isLoading ContextInputs.chat0;
        Chat.error := Chat.error ContextInputs.chat0 |}, []).
Proof.
  apply (handleSendMessage_empty_context string string (fun _ _ => [])
           (fun _ => inl []) ContextInputs.chat0 (Js.text_of "hello")).
  left. vm_compute. discriminate.
Defined.

(** C10, as stated, fails: a message of one space is not empty, and with no
    request in flight the handler returns before the context check, so the
    transcript gets no system message. *)
Lemma handleSendMessage_blank_message_ignored :
  Js.text_of " " ≠ [] ∧
  Chat.handleSendMessage (@nil string) (@nil string) (fun _ _ => [])
    (fun _ => inl []) ContextInputs.chat0 (Js.text_of " ")
  = (ContextInputs.chat0, []).
Proof. split; [discriminate | reflexivity]. Qed.

(** ** The array and [Map] helpers *)

Section SortDesc.
Import Js.
Context {A : Type} (key : A → Q).

Lemma sort_insert_perm x l : sort_insert key x l ≡ₚ x :: l.
Proof.
  induction l as [|y l IH]; simpl; [done|].
  destruct (Qle_bool (key y) (key x)); [done|].
  rewrite IH. apply Permutation_swap.
Qed.

Lemma sort_desc_perm l : sort_desc key l ≡ₚ l.
Proof.
  induction l as [|x l IH]; simpl; [done|].
  by rewrite sort_insert_perm, IH.
Qed.

Lemma Qle_bool_false a b : Qle_bool a b = false → (b < a)%Q.
Proof.
  intros H. apply Qnot_le_lt. intros Hle.
  apply Qle_bool_iff in Hle. congruence.
Qed.

Lemma sort_insert_sorted x l :
  StronglySorted (Spec.descending key) l → StronglySorted (Spec.descending key) (sort_insert key x l).
Proof.
  induction 1 as [|y l Hl IH Hy]; simpl.
  - repeat constructor.
  - destruct (Qle_bool (key y) (key x)) eqn:E.
    + apply Qle_bool_iff in E. constructor; [by constructor|].
      constructor; [done|].
      eapply Forall_impl; [exact Hy|]. intros z Hz. unfold Spec.descending in *.
      by apply Qle_trans with (key y).
    + apply Qle_bool_false in E. constructor; [done|].
      rewrite sort_insert_perm. constructor; [|done].
      unfold Spec.descending. by apply Qlt_le_weak.
Qed.

Lemma sort_desc_sorted l : StronglySorted (Spec.descending key) (sort_desc key l).
Proof.
  induction l as [|x l IH]; simpl; [constructor|].
  by apply sort_insert_sorted.
Qed.





Lemma slice0_sort_elem n l x : x ∈ slice0 n (sort_desc key l) → x ∈ l.
Proof.
  unfold slice0. intros H. apply elem_of_take in H as (i & H & _).
  apply list_elem_of_lookup_2 in H. by rewrite sort_desc_perm in H.
Qed.

Lemma slice0_sort_sorted n l :
  StronglySorted (Spec.descending key) (slice0 n (sort_desc key l)).
Proof.
  unfold slice0. generalize (sort_desc_sorted l). generalize (sort_desc key l).
  intros l' Hl'. revert n. induction Hl' as [|y l' Hl' IH Hy]; intros [|n];
    simpl; try constructor; [apply IH|].
  by apply Forall_take.
Qed.
End SortDesc.

Section MapNew.
Import Js.
Context {A : Type}.
Implicit Types (m es : list (string * A)) (k : string) (v : A).

Lemma get_app es1 es2 k :
  get (es1 ++ es2) k =
  match get es1 k with Some v => Some v | None => get es2 k end.
Proof.
  induction es1 as [|[k' v'] es1 IH]; simpl; [done|].
  by destruct (String.eqb k' k).
Qed.

Lemma get_Map_set m k0 v0 k :
  get (Map_set m k0 v0) k = if String.eqb k0 k then Some v0 else get m k.
Proof.
  induction m as [|[k' v'] m IH]; simpl.
  - done.
  - destruct (String.eqb_spec k' k0) as [->|Hne]; simpl.
    + by destruct (String.eqb k0 k).
    + rewrite IH. destruct (String.eqb_spec k' k) as [->|Hne'];
        destruct (String.eqb_spec k0 k) as [->|Hne'']; done.
Qed.

Lemma keys_Map_set m k v :
  map fst (Map_set m k v) =
  if existsb (String.eqb k) (map fst m) then map fst m else map fst m ++ [k].
Proof.
  induction m as [|[k' v'] m IH]; simpl; [done|].
  rewrite (String.eqb_sym k k').
  destruct (String.eqb k' k); simpl; [done|].
  rewrite IH. by destruct (existsb (String.eqb k) (map fst m)).
Qed.

Lemma elem_of_Map_set m k v x :
  x ∈ Map_set m k v → x = (k, v) ∨ x ∈ m.
Proof.
  induction m as [|[k' v'] m IH]; simpl.
  - intros ->%list_elem_of_singleton. by left.
  - destruct (String.eqb_spec k' k) as [->|Hne].
    + intros [->|H]%elem_of_cons; [by left|]. right. by right.
    + intros [->|H]%elem_of_cons; [right; by left|].
      destruct (IH H) as [->|H']; [by left|]. right. by right.
Qed.

Lemma get_elem_of m k v :
  NoDup (map fst m) → (k, v) ∈ m → get m k = Some v.
Proof.
  induction m as [|[k' v'] m IH]; simpl; [by intros _ ?%elem_of_nil|].
  intros [Hk' Hm]%NoDup_cons [[= -> ->]|H]%elem_of_cons.
  - by rewrite String.eqb_refl.
  - destruct (String.eqb_spec k' k) as [->|Hne]; [|by apply IH].
    exfalso. apply Hk'. apply (list_elem_of_fmap_2 fst) in H. done.
Qed.

Lemma get_Map_fold es m k :
  get (fold_left (fun m' kv => Map_set m' (fst kv) (snd kv)) es m) k =
  match get (rev es) k with Some v => Some v | None => get m k end.
Proof.
  revert m. induction es as [|[k0 v0] es IH]; intros m; simpl; [done|].
  rewrite IH, get_app. destruct (get (rev es) k); [done|].
  rewrite get_Map_set. simpl. by destruct (String.eqb k0 k).
Qed.

Lemma keys_Map_fold es m seen :
  (∀ k, existsb (String.eqb k) seen = existsb (String.eqb k) (map fst m)) →
  map fst (fold_left (fun m' kv => Map_set m' (fst kv) (snd kv)) es m) =
  map fst m ++ Spec.dedupFirstFrom (fun k => k) seen (map fst es).
Proof.
  revert m seen. induction es as [|[k0 v0] es IH]; intros m seen Hseen; simpl.
  - by rewrite app_nil_r.
  - rewrite Hseen.
    destruct (existsb (String.eqb k0) (map fst m)) eqn:E.
    + rewrite (IH (Map_set m k0 v0) seen); [by rewrite keys_Map_set, E|].
      intros k. rewrite keys_Map_set, E. apply Hseen.
    + rewrite (IH _ (k0 :: seen)).
      * rewrite keys_Map_set, E. by rewrite <- app_assoc.
      * intros k. rewrite keys_Map_set, E. rewrite existsb_app.
        simpl. rewrite Hseen.
        by destruct (String.eqb k k0), (existsb (String.eqb k) (map fst m)).
Qed.

Lemma NoDup_keys_Map_set m k v :
  NoDup (map fst m) → NoDup (map fst (Map_set m k v)).
Proof.
  intros Hm. rewrite keys_Map_set.
  destruct (existsb (String.eqb k) (map fst m)) eqn:E; [done|].
  apply NoDup_app. split; [done|]. split; [|apply NoDup_singleton].
  intros k' Hk' ->%list_elem_of_singleton.
  assert (existsb (String.eqb k) (map fst m) = true); [|congruence].
  apply existsb_exists. exists k. split; [by apply list_elem_of_In|].
  apply String.eqb_refl.
Qed.

Lemma NoDup_keys_Map_fold es m :
  NoDup (map fst m) → NoDup (map fst (fold_left (fun m' kv => Map_set m' (fst kv) (snd kv)) es m)).
Proof.
  revert m. induction es as [|e es IH]; intros m Hm; simpl; [done|].
  apply IH. by apply NoDup_keys_Map_set.
Qed.

Lemma elem_of_Map_fold es m x :
  x ∈ fold_left (fun m' kv => Map_set m' (fst kv) (snd kv)) es m → x ∈ es ∨ x ∈ m.
Proof.
  revert m. induction es as [|[k0 v0] es IH]; intros m; simpl; [by right|].
  intros [H|H]%IH; [left; by right|].
  apply elem_of_Map_set in H as [->|H]; [left; by left|by right].
Qed.
End MapNew.

Section DedupFirst.
Context {A : Type} (key : A → string).

Lemma dedupFirstFrom_map seen (l : list A) :
  map key (Spec.dedupFirstFrom key seen l)
  = Spec.dedupFirstFrom (fun k => k) seen (map key l).
Proof.
  revert seen. induction l as [|x l IH]; intros seen; simpl; [done|].
  destruct (existsb (String.eqb (key x)) seen); simpl; by rewrite IH.
Qed.

Lemma get_keyed_find (l : list A) k :
  Js.get (map (fun x => (key x, x)) l) k
  = List.find (fun x => String.eqb (key x) k) l.
Proof.
  induction l as [|x l IH]; simpl; [done|].
  by destruct (String.eqb (key x) k).
Qed.
End DedupFirst.

(** ** Patent ranking: bound, threshold, order and de-duplication *)

Section RankingFacts.
Import Js PatentRanking.
Variable topPatents : list patent.
Variable brefRelevanceScores : BrefSelector.matrix.
Variable patentIndex : option (list (string * details)).

Lemma topPatentsWithScores_reliable brefId :
  Forall Spec.reliable (topPatentsWithScores topPatents brefRelevanceScores brefId).
Proof.
  unfold topPatentsWithScores. apply Forall_forall. intros r Hr.
  by apply list_elem_of_filter in Hr as [Hr _].
Qed.

Lemma pushBrefRelevant_reliable brefId index acc patentScores :
  Forall Spec.reliable acc →
  Forall Spec.reliable (pushBrefRelevant topPatents brefId index acc patentScores).
Proof.
  intros Hacc. unfold pushBrefRelevant. destruct patentScores as [patentId scores].
  destruct (existsb _ topPatents); [done|].
  destruct (get scores brefId) as [brefScore|]; [|done].
  destruct (truthy_num brefScore && ge_threshold brefScore) eqn:E; [|done].
  destruct (get index patentId); [|done].
  apply Forall_app. split; [done|]. repeat constructor.
  unfold Spec.reliable. simpl. by apply andb_prop in E as [_ E].
Qed.

Lemma brefRelevantPatents_reliable brefId :
  Forall Spec.reliable
    (brefRelevantPatents topPatents brefRelevanceScores patentIndex brefId).
Proof.
  unfold brefRelevantPatents. destruct patentIndex as [index|]; [|constructor].
  assert (H : Forall Spec.reliable (@nil ranked)) by constructor.
  revert H. generalize (@nil ranked).
  induction brefRelevanceScores as [|e M IH]; intros acc Hacc; simpl; [done|].
  apply IH. by apply pushBrefRelevant_reliable.
Qed.

Lemma combinedPatents_reliable brefId :
  Forall Spec.reliable
    (combinedPatents topPatents brefRelevanceScores patentIndex brefId).
Proof.
  apply Forall_app. split;
    [apply topPatentsWithScores_reliable | apply brefRelevantPatents_reliable].
Qed.

(** The entries of the [Map] are keyed by their own id. *)
Lemma Map_new_keyed (l : list ranked) kv :
  kv ∈ Map_new (map (fun r => (Spec.rankedId r, r)) l) →
  fst kv = Spec.rankedId (snd kv) ∧ snd kv ∈ l.
Proof.
  unfold Map_new. intros [H|H]%elem_of_Map_fold; [|by apply elem_of_nil in H].
  apply list_elem_of_fmap in H as (r & -> & Hr). done.
Qed.

Lemma uniquePatents_elem brefId r :
  r ∈ uniquePatents topPatents brefRelevanceScores patentIndex brefId →
  r ∈ combinedPatents topPatents brefRelevanceScores patentIndex brefId.
Proof.
  unfold uniquePatents, Map_values.
  intros (kv & -> & Hkv)%list_elem_of_fmap.
  by apply Map_new_keyed in Hkv as [_ ?].
Qed.

Lemma uniquePatents_ids brefId :
  map Spec.rankedId
    (uniquePatents topPatents brefRelevanceScores patentIndex brefId)
  = map fst
      (Map_new (map (fun r => (Spec.rankedId r, r))
         (combinedPatents topPatents brefRelevanceScores patentIndex brefId))).
Proof.
  unfold uniquePatents, Map_values. fold Spec.rankedId.
  rewrite map_map. apply map_ext_in. intros kv Hkv.
  apply list_elem_of_In in Hkv. by apply Map_new_keyed in Hkv as [-> _].
Qed.

Lemma uniquePatents_first_positions brefId :
  map Spec.rankedId
    (uniquePatents topPatents brefRelevanceScores patentIndex brefId)
  = map Spec.rankedId
      (Spec.dedupFirst Spec.rankedId
         (combinedPatents topPatents brefRelevanceScores patentIndex brefId)).
Proof.
  rewrite uniquePatents_ids. unfold Map_new, Spec.dedupFirst.
  rewrite (keys_Map_fold _ [] []) by done.
  by rewrite dedupFirstFrom_map, map_map.
Qed.

Lemma uniquePatents_NoDup brefId :
  NoDup (map Spec.rankedId
           (uniquePatents topPatents brefRelevanceScores patentIndex brefId)).
Proof.
  rewrite uniquePatents_ids. apply NoDup_keys_Map_fold. constructor.
Qed.

Lemma uniquePatents_last_entry brefId r :
  r ∈ uniquePatents topPatents brefRelevanceScores patentIndex brefId →
  List.find (fun r' => String.eqb (Spec.rankedId r') (Spec.rankedId r))
    (rev (combinedPatents topPatents brefRelevanceScores patentIndex brefId))
  = Some r.
Proof.
  unfold uniquePatents, Map_values.
  intros (kv & -> & Hkv)%list_elem_of_fmap.
  pose proof (Map_new_keyed _ _ Hkv) as [Hk _].
  destruct kv as [k r]. simpl in *. subst k.
  apply get_elem_of in Hkv; [|apply NoDup_keys_Map_fold; constructor].
  unfold Map_new in Hkv. rewrite get_Map_fold in Hkv.
  rewrite <- map_rev, get_keyed_find in Hkv.
  by destruct (List.find _ _).
Qed.
End RankingFacts.


(** C4, as the code has it.  With a BREF node selected (its id non-empty)
    and a non-empty relevance matrix, no patent id appears twice in the list
    [rankedPatents] returns.  The de-duplication keeps, for each id of
    [combinedPatents], the position of its first occurrence and the entry of
    its last occurrence, and every returned entry is one of the entries so
    kept. *)
Theorem rankedPatents_bref_deduplicated :
  ∀ topPatents b brefId (brefRelevanceScores : BrefSelector.matrix) patentIndex
    maxPatents,
    Js.truthy_str (BrefSelector.id_of b) = Some brefId →
    brefRelevanceScores ≠ [] →
    let combined :=
      PatentRanking.combinedPatents topPatents brefRelevanceScores patentIndex
        brefId in
    let unique :=
      PatentRanking.uniquePatents topPatents brefRelevanceScores patentIndex
        brefId in
    let result :=
      PatentRanking.rankedPatents topPatents (Some b) brefRelevanceScores
        patentIndex maxPatents in
    NoDup (map Spec.rankedId result) ∧
    map Spec.rankedId unique
      = map Spec.rankedId (Spec.dedupFirst Spec.rankedId combined) ∧
    (∀ r, r ∈ unique →
          List.find (fun r' => String.eqb (Spec.rankedId r') (Spec.rankedId r))
            (rev combined) = Some r) ∧
    (∀ r, r ∈ result → r ∈ unique).
Proof.
  intros topPatents b brefId M patentIndex maxPatents Hid HM combined unique result.
  assert (Hres :
    result = [] ∨
    result = Js.slice0 maxPatents (Js.sort_desc PatentRanking.relevanceScore unique)).
  { subst result unique. unfold PatentRanking.rankedPatents.
    destruct (length topPatents =? 0); [by left|].
    unfold PatentRanking.brefBranch. rewrite Hid.
    destruct M as [|e M]; [done|]. cbn [length Nat.ltb Nat.leb].
    destruct (PatentRanking.getBrefRelevantPatentCount _ _ =? 0)%Z;
      [by left | by right]. }
  split; [|split; [|split]].
  - destruct Hres as [-> | ->]; [constructor|].
    unfold Js.slice0. rewrite <- firstn_map.
    eapply sublist_NoDup; [|apply sublist_take].
    rewrite (Permutation_map Spec.rankedId
               (sort_desc_perm PatentRanking.relevanceScore unique)).
    apply uniquePatents_NoDup.
  - apply uniquePatents_first_positions.
  - apply uniquePatents_last_entry.
  - destruct Hres as [-> | ->]; [by intros r ?%elem_of_nil|].
    intros r. apply slice0_sort_elem.
Qed.

Lemma rankedPatents_bref_deduplicated_witness :
  NoDup (map Spec.rankedId
           (PatentRanking.rankedPatents [RankingInputs.pHigh; RankingInputs.pLow]
              (Some RankingInputs.nodeB) RankingInputs.matrixQ (Some RankingInputs.indexQ) 5)).
Proof.
  apply (rankedPatents_bref_deduplicated [RankingInputs.pHigh; RankingInputs.pLow]
           RankingInputs.nodeB "B" RankingInputs.matrixQ (Some RankingInputs.indexQ) 5);
    [reflexivity | discriminate].
Defined.

(** C4, as stated, fails twice.  In the de-duplication it is the last
    occurrence of an id that wins, not the first: of two [topPatents]
    entries with the id p, at 0.9 and at 0.7 for the selected node, the one
    at 0.7 is returned.  And with a BREF node selected but an empty matrix
    nothing is de-duplicated: an id that is twice in [topPatents] is twice
    in the result. *)
Lemma rankedPatents_dedup_not_first_wins :
  PatentRanking.rankedPatents [RankingInputs.pHigh; RankingInputs.pLow] (Some RankingInputs.nodeB)
    RankingInputs.matrixQ None 5
  = [ {| PatentRanking.entry := RankingInputs.pLow;
         PatentRanking.relevanceScore := 7 # 10 |} ] ∧
  Spec.dedupFirst Spec.rankedId
    (PatentRanking.combinedPatents [RankingInputs.pHigh; RankingInputs.pLow]
       RankingInputs.matrixQ None "B")
  = [ {| PatentRanking.entry := RankingInputs.pHigh;
         PatentRanking.relevanceScore := 9 # 10 |} ] ∧
  ¬ NoDup (map Spec.rankedId
             (PatentRanking.rankedPatents [RankingInputs.p1; RankingInputs.p1]
                (Some RankingInputs.nodeB) [] None 5)).
Proof.
  split; [vm_compute; reflexivity|]. split; [vm_compute; reflexivity|].
  intros H. vm_compute in H. apply NoDup_cons in H as [H _].
  apply H. by left.
Qed.

(** ** Cumulative counts *)

Section HierarchyInduction.
Import Js BrefSelector Tree.

Lemma hnode_nested_ind (P : hnode → Prop) :
  P HPrim →
  (∀ items, Forall P items → P (HArr items)) →
  (∀ id m c children others,
      Forall P (kidsList children) → Forall P (map snd others) →
      P (HObj id m c children others)) →
  ∀ node, P node.
Proof.
  intros HP HA HO. fix IH 1. intros [|items|id m c children others].
  - exact HP.
  - apply HA. induction items as [|x items IHitems]; constructor;
      [apply IH | exact IHitems].
  - apply HO.
    + destruct children as [|items|entries]; simpl.
      * constructor.
      * induction items as [|x items IHitems]; constructor;
          [apply IH | exact IHitems].
      * induction entries as [|[k x] entries IHentries]; constructor;
          [apply IH | exact IHentries].
    + induction others as [|[k x] others IHothers]; constructor;
        [apply IH | exact IHothers].
Qed.

Lemma Forall_containerItems (P : hnode → Prop) children others :
  Forall P (kidsList children) → Forall P (map snd others) →
  Forall P (containerItems children others).
Proof. by destruct children. Qed.

Lemma Forall_childrenWithIds (P : hnode → Prop) children :
  Forall P (kidsList children) →
  Forall (fun p => P (snd p)) (childrenWithIds children).
Proof.
  destruct children as [|items|entries]; simpl; intros H.
  - constructor.
  - induction H as [|x items Hx _ IH]; simpl; [constructor|].
    destruct (truthy_str (id_of x)); simpl; [by constructor | done].
  - rewrite Forall_map in H |- *.
    eapply Forall_impl; [exact H|]. done.
Qed.
End HierarchyInduction.

Section CumulativeFacts.
Import Js BrefSelector Tree.
Variable directMatches : gmap string nat.
Variable relevantNodes : gset string.

Local Notation "'calc'" :=
  (calculateCumulativeCounts directMatches relevantNodes).
Local Notation "'step'" :=
  (fun acc (p : string * hnode) =>
     addChild relevantNodes (Some (fst p)) (calc (snd p)) acc).

(** *** The walk, one shape at a time *)

Lemma fold_left_map' {A B C} (f : A → B → A) (g : C → B) l a :
  fold_left f (map g l) a = fold_left (fun a x => f a (g x)) l a.
Proof. revert a. induction l as [|x l IH]; intros a; simpl; [done|apply IH]. Qed.

Lemma calc_container id m c children others result :
  truthy_str id = None →
  calc (HObj id m c children others) result
  = fold_left (fun res child => calc child res)
              (containerItems children others) result.
Proof.
  intros Hid. cbn [calculateCumulativeCounts]. rewrite Hid.
  destruct children as [|items|entries]; simpl containerItems;
    by rewrite ?fold_left_map'.
Qed.

Lemma calc_node id m c children others nid result :
  truthy_str id = Some nid →
  calc (HObj id m c children others) result
  = let final := fold_left step (childrenWithIds children)
                   (count directMatches nid, result) in
    <[nid := fst final]> (snd final).
Proof.
  intros Hid. cbn [calculateCumulativeCounts]. rewrite Hid. cbv zeta.
  destruct children as [|items|entries]; simpl childrenWithIds.
  - done.
  - f_equal; f_equal.
    all: generalize (count directMatches nid, result).
    all: induction items as [|x items IH]; intros acc; simpl; [done|].
    all: destruct (truthy_str (id_of x)); simpl; apply IH.
  - by rewrite fold_left_map'.
Qed.

(** *** Labels *)

Lemma labels_container id m c children others :
  truthy_str id = None →
  labels (HObj id m c children others)
  = flat_map labels (containerItems children others).
Proof.
  intros Hid. cbn [labels]. rewrite Hid.
  destruct children as [|items|entries]; simpl containerItems;
    by rewrite ?flat_map_concat_map, ?map_map, <- ?flat_map_concat_map.
Qed.

Lemma labels_own_id node cid :
  truthy_str (id_of node) = Some cid → cid ∈ labels node.
Proof.
  destruct node as [| |id m c children others]; simpl; [done..|].
  intros ->. by left.
Qed.

Lemma childrenWithIds_id children p :
  p ∈ childrenWithIds children → fst p ∈ entryLabels p.
Proof.
  intros Hp. unfold entryLabels.
  destruct children as [|items|entries]; simpl in Hp.
  - by apply elem_of_nil in Hp.
  - apply list_elem_of_omap in Hp as (x & _ & Hx).
    destruct (truthy_str (id_of x)) as [cid|] eqn:E; [|done].
    injection Hx as <-. simpl. rewrite E. by apply labels_own_id.
  - apply list_elem_of_fmap in Hp as ([k x] & -> & _). simpl.
    destruct (truthy_str (id_of x)) as [cid|] eqn:E; simpl.
    + by apply labels_own_id.
    + by left.
Qed.

Lemma labels_node id m c children others nid :
  truthy_str id = Some nid →
  ∃ rest, labels (HObj id m c children others) = nid :: rest ∧
          flat_map entryLabels (childrenWithIds children) `sublist_of` rest.
Proof.
  intros Hid. cbn [labels]. rewrite Hid. eexists. split; [done|].
  destruct children as [|items|entries]; simpl childrenWithIds.
  - done.
  - induction items as [|x items IH]; simpl; [done|].
    unfold entryLabels at 1.
    destruct (truthy_str (id_of x)) as [cid|] eqn:E; simpl.
    + rewrite E. by apply sublist_app.
    + by apply sublist_inserts_l.
  - induction entries as [|[k x] entries IH]; simpl; [done|].
    apply sublist_app; [|done]. unfold entryLabels. simpl.
    by destruct (truthy_str (id_of x)).
Qed.

Lemma elem_of_flat_map {A B} (f : A → list B) l y :
  y ∈ flat_map f l ↔ ∃ x, x ∈ l ∧ y ∈ f x.
Proof.
  rewrite list_elem_of_In, in_flat_map. split; intros (x & Hx & Hy); exists x.
  - by rewrite !list_elem_of_In.
  - by rewrite <- !list_elem_of_In.
Qed.

Lemma labels_entryLabels p k : k ∈ labels (snd p) → k ∈ entryLabels p.
Proof.
  unfold entryLabels. destruct (truthy_str (id_of (snd p))); [done|]. by right.
Qed.

Lemma NoDup_entryLabels p : NoDup (entryLabels p) → NoDup (labels (snd p)).
Proof.
  unfold entryLabels. destruct (truthy_str (id_of (snd p))); [done|].
  by intros [_ ?]%NoDup_cons.
Qed.

(** *** Frame: the walk of a node writes only at the labels of the node *)

Local Notation "'frames' node" :=
  (∀ result k, k ∉ labels node → calc node result !! k = result !! k)
  (at level 10, only parsing).

Lemma fold_frame items :
  Forall (fun child => frames child) items →
  ∀ result k, k ∉ flat_map labels items →
    fold_left (fun res child => calc child res) items result !! k = result !! k.
Proof.
  induction 1 as [|child items Hchild _ IH]; intros result k Hk; simpl; [done|].
  simpl in Hk. rewrite elem_of_app in Hk.
  rewrite IH by tauto. apply Hchild. tauto.
Qed.

Lemma step_frame cw :
  Forall (fun p => frames (snd p)) cw →
  ∀ acc k, k ∉ flat_map entryLabels cw →
    snd (fold_left step cw acc) !! k = snd acc !! k.
Proof.
  induction 1 as [|p cw Hp _ IH]; intros acc k Hk; simpl; [done|].
  simpl in Hk. rewrite elem_of_app in Hk.
  rewrite IH by tauto. unfold addChild.
  destruct (bool_decide (fst p ∈ relevantNodes)); [|done]. simpl.
  apply Hp. intros Hin. apply Hk. left. by apply labels_entryLabels.
Qed.

Lemma calc_frame node : frames node.
Proof.
  induction node as [|items IH|id m c children others IHc IHo]
    using hnode_nested_ind; intros result k Hk.
  - done.
  - by apply fold_frame.
  - destruct (truthy_str id) as [nid|] eqn:Hid.
    + rewrite (calc_node _ _ _ _ _ nid) by done. cbv zeta.
      destruct (labels_node id m c children others nid Hid)
        as (rest & Hlabels & Hsub).
      rewrite Hlabels in Hk. apply not_elem_of_cons in Hk as [Hne Hrest].
      rewrite lookup_insert_ne by done.
      rewrite step_frame; [done| |].
      * exact (Forall_childrenWithIds _ _ IHc).
      * intros Hin. apply Hrest. by eapply elem_of_sublist.
    + rewrite calc_container by done. rewrite labels_container in Hk by done.
      apply fold_frame; [|done]. exact (Forall_containerItems _ _ _ IHc IHo).
Qed.

(** *** The keys of the equation at a node are labels of the node *)

Lemma Reaches_labels follow node n :
  Reaches follow node n → ∀ k, k ∈ labels n → k ∈ labels node.
Proof.
  induction 1 as [node|items child node Hchild _ IH
                 |id m c children others child node Hid Hchild _ IH
                 |id m c children others nid cid child node Hid Hchild _ _ IH];
    intros k Hk.
  - done.
  - simpl. apply elem_of_flat_map. exists child. auto.
  - rewrite labels_container by done. apply elem_of_flat_map. exists child. auto.
  - destruct (labels_node id m c children others nid Hid)
      as (rest & -> & Hsub).
    right. eapply elem_of_sublist; [|exact Hsub].
    apply elem_of_flat_map. exists (cid, child). split; [done|].
    apply labels_entryLabels. simpl. auto.
Qed.

Lemma equationAt_agree T T' n :
  (∀ k, k ∈ labels n → T' !! k = T !! k) →
  equationAt directMatches relevantNodes T n →
  equationAt directMatches relevantNodes T' n.
Proof.
  intros Hagree. destruct n as [| |id m c children others]; [done..|].
  unfold equationAt. destruct (truthy_str id) as [nid|] eqn:Hid; [|done].
  destruct (labels_node id m c children others nid Hid)
    as (rest & Hlabels & Hsub).
  assert (Hnid : count T' nid = count T nid).
  { unfold count. rewrite Hagree; [done|]. rewrite Hlabels. by left. }
  assert (Hkids : map (count T') (relevantChildIds relevantNodes children)
                  = map (count T) (relevantChildIds relevantNodes children)).
  { apply map_ext_in. intros cid Hcid. unfold count. rewrite Hagree; [done|].
    rewrite Hlabels. right. eapply elem_of_sublist; [|exact Hsub].
    unfold relevantChildIds in Hcid. apply filter_In in Hcid as [Hcid _].
    apply list_elem_of_In, list_elem_of_fmap in Hcid as (p & -> & Hp).
    apply elem_of_flat_map. exists p. split; [done|].
    by eapply childrenWithIds_id. }
  by rewrite Hnid, Hkids.
Qed.

(** The equation holds at every node the walk comes to from [node]. *)
Local Notation "'Inv' node T" :=
  (∀ n, Reaches (fun cid => cid ∈ relevantNodes) node n →
        equationAt directMatches relevantNodes T n)
  (at level 10, node at level 9, T at level 9, only parsing).

Lemma Inv_agree node T T' :
  (∀ k, k ∈ labels node → T' !! k = T !! k) → Inv node T → Inv node T'.
Proof.
  intros Hagree HT n Hn. apply (equationAt_agree T); [|by apply HT].
  intros k Hk. apply Hagree. by eapply Reaches_labels.
Qed.

(** *** The invariant *)

Local Notation "'sound' node" :=
  (∀ result, NoDup (labels node) → Inv node (calc node result))
  (at level 10, only parsing).

Lemma fold_Inv items :
  Forall (fun child => sound child) items →
  ∀ result, NoDup (flat_map labels items) →
    ∀ child, child ∈ items →
      Inv child (fold_left (fun res child => calc child res) items result).
Proof.
  induction 1 as [|child0 items Hchild0 Hitems IH]; intros result Hnodup child Hin.
  - by apply elem_of_nil in Hin.
  - simpl in Hnodup. apply NoDup_app in Hnodup as (Hnd0 & Hdisj & Hndrest).
    simpl. apply elem_of_cons in Hin as [->|Hin].
    + apply (Inv_agree _ (calc child0 result)); [|by apply Hchild0].
      intros k Hk. apply fold_frame; [|by apply Hdisj].
      eapply Forall_impl; [exact Hitems|]. intros x _. apply calc_frame.
    + by apply IH.
Qed.

Lemma fold_children cw :
  Forall (fun p => sound (snd p)) cw →
  Forall (fun p => fst p ∈ entryLabels p) cw →
  NoDup (flat_map entryLabels cw) →
  ∀ acc,
    let final := fold_left step cw acc in
    fst final =
      fst acc +
      list_sum (map (count (snd final))
                    (List.filter (fun cid => bool_decide (cid ∈ relevantNodes))
                                 (map fst cw))) ∧
    ∀ p, p ∈ cw → fst p ∈ relevantNodes → Inv (snd p) (snd final).
Proof.
  induction 1 as [|p0 cw Hp0 Hcw IH]; intros Hids Hnodup acc.
  - simpl. split; [lia|]. by intros p ?%elem_of_nil.
  - apply Forall_cons in Hids as [Hid0 Hids].
    simpl in Hnodup. apply NoDup_app in Hnodup as (Hnd0 & Hdisj & Hndrest).
    specialize (IH Hids Hndrest).
    assert (Hframes : Forall (fun p => ∀ result k, k ∉ labels (snd p) →
                                calc (snd p) result !! k = result !! k) cw).
    { eapply Forall_impl; [exact Hcw|]. intros x _. apply calc_frame. }
    cbn [fold_left map List.filter]. cbv zeta.
    set (acc1 := addChild relevantNodes (Some (fst p0)) (calc (snd p0)) acc).
    destruct (IH acc1) as [Hsum Hinv]. cbv zeta in Hsum, Hinv.
    set (final := fold_left step cw acc1) in *.
    destruct (bool_decide (fst p0 ∈ relevantNodes)) eqn:HR.
    + set (r1 := calc (snd p0) (snd acc)).
      assert (Hacc1 : acc1 = (fst acc + count r1 (fst p0), r1)).
      { unfold acc1, addChild. by rewrite HR. }
      assert (Hkeep : ∀ k, k ∈ entryLabels p0 → snd final !! k = r1 !! k).
      { intros k Hk. unfold final. rewrite step_frame; [by rewrite Hacc1|done|].
        by apply Hdisj. }
      split.
      * rewrite Hsum, Hacc1. cbn [fst map list_sum foldr].
        unfold count at 3. rewrite (Hkeep _ Hid0).
        fold (count r1 (fst p0)). unfold list_sum. lia.
      * intros p [->|Hp]%elem_of_cons Hrel; [|by apply Hinv].
        apply (Inv_agree _ r1).
        -- intros k Hk. apply Hkeep. by apply labels_entryLabels.
        -- apply Hp0. by apply NoDup_entryLabels.
    + assert (Hacc1 : acc1 = acc).
      { unfold acc1, addChild. by rewrite HR. }
      split; [by rewrite Hsum, Hacc1|].
      intros p [->|Hp]%elem_of_cons Hrel; [|by apply Hinv].
      apply bool_decide_eq_false in HR. done.
Qed.

Lemma calc_Inv node : sound node.
Proof.
  induction node as [|items IH|id m c children others IHc IHo]
    using hnode_nested_ind; intros result Hnodup n Hn.
  - by inversion Hn.
  - inversion Hn as [|? child ? Hchild Hreach| |]; subst; [done|].
    by apply (fold_Inv items IH result Hnodup child).
  - destruct (truthy_str id) as [nid|] eqn:Hid.
    + destruct (labels_node id m c children others nid Hid)
        as (rest & Hlabels & Hsub).
      rewrite Hlabels in Hnodup. apply NoDup_cons in Hnodup as [Hnid Hrest].
      assert (Hndcw : NoDup (flat_map entryLabels (childrenWithIds children))).
      { by eapply sublist_NoDup. }
      assert (Hnidcw : nid ∉ flat_map entryLabels (childrenWithIds children)).
      { intros Hin. apply Hnid. by eapply elem_of_sublist. }
      destruct (fold_children (childrenWithIds children)
                  (Forall_childrenWithIds _ _ IHc)
                  ltac:(apply Forall_forall; intros p Hp;
                        by eapply childrenWithIds_id)
                  Hndcw (count directMatches nid, result)) as [Hsum Hinv].
      cbv zeta in Hsum, Hinv. cbn [fst snd] in Hsum.
      rewrite (calc_node _ _ _ _ _ nid) by done. cbv zeta.
      set (final := fold_left step (childrenWithIds children)
                      (count directMatches nid, result)) in *.
      inversion Hn as [|
                       |? ? ? ? ? child ? Hid' Hchild Hreach
                       |? ? ? ? ? nid' cid child ? Hid' Hchild Hrel Hreach];
        subst.
      * unfold equationAt. rewrite Hid. unfold count at 1.
        rewrite lookup_insert_eq. simpl. rewrite Hsum. f_equal. f_equal.
        apply map_ext_in. intros cid Hcid. unfold count.
        rewrite lookup_insert_ne; [done|]. intros ->. apply Hnidcw.
        apply filter_In in Hcid as [Hcid _].
        apply list_elem_of_In, list_elem_of_fmap in Hcid as (p & -> & Hp).
        apply elem_of_flat_map. exists p. split; [done|].
        by eapply childrenWithIds_id.
      * congruence.
      * apply (Inv_agree child (snd final)); [|by apply (Hinv (cid, child))|done].
        intros k Hk. apply lookup_insert_ne. intros ->. apply Hnidcw.
        apply elem_of_flat_map. exists (cid, child). split; [done|].
        by apply labels_entryLabels.
    + rewrite calc_container by done. rewrite labels_container in Hnodup by done.
      inversion Hn as [|
                       |? ? ? ? ? child ? Hid' Hchild Hreach
                       |? ? ? ? ? nid' cid child ? Hid' Hchild Hrel Hreach];
        subst.
      * unfold equationAt. by rewrite Hid.
      * by apply (fold_Inv _ (Forall_containerItems _ _ _ IHc IHo) result
                    Hnodup child).
      * congruence.
Qed.

(** *** The table has entries only where the walk comes *)

Local Notation "'visited' node k" :=
  (∃ n, Reaches (fun cid => cid ∈ relevantNodes) node n ∧
        truthy_str (id_of n) = Some k)
  (at level 10, node at level 9, k at level 9, only parsing).

Local Notation "'guarded' node" :=
  (∀ result k, is_Some (calc node result !! k) →
               is_Some (result !! k) ∨ visited node k)
  (at level 10, only parsing).

Lemma fold_dom items :
  Forall (fun child => guarded child) items →
  ∀ result k,
    is_Some (fold_left (fun res child => calc child res) items result !! k) →
    is_Some (result !! k) ∨ ∃ child, child ∈ items ∧ visited child k.
Proof.
  induction 1 as [|child0 items Hchild0 _ IH]; intros result k Hk; simpl in Hk.
  - by left.
  - destruct (IH _ _ Hk) as [Hk'|(child & Hin & Hvis)].
    + destruct (Hchild0 _ _ Hk') as [?|Hvis]; [by left|].
      right. exists child0. split; [by left|done].
    + right. exists child. split; [by right|done].
Qed.

Lemma step_dom cw :
  Forall (fun p => guarded (snd p)) cw →
  ∀ acc k,
    is_Some (snd (fold_left step cw acc) !! k) →
    is_Some (snd acc !! k) ∨
    ∃ p, p ∈ cw ∧ fst p ∈ relevantNodes ∧ visited (snd p) k.
Proof.
  induction 1 as [|p0 cw Hp0 _ IH]; intros acc k Hk; simpl in Hk.
  - by left.
  - destruct (IH _ _ Hk) as [Hk'|(p & Hin & Hrel & Hvis)].
    + unfold addChild in Hk'. case_bool_decide as HR; [|by left].
      simpl in Hk'. destruct (Hp0 _ _ Hk') as [?|Hvis]; [by left|].
      right. exists p0. split; [by left|done].
    + right. exists p. split; [by right|done].
Qed.

Lemma calc_dom node : guarded node.
Proof.
  induction node as [|items IH|id m c children others IHc IHo]
    using hnode_nested_ind; intros result k Hk.
  - by left.
  - destruct (fold_dom items IH result k Hk) as [?|(child & Hin & n & Hn & Hid)];
      [by left|].
    right. exists n. split; [|done]. by eapply reaches_item.
  - destruct (truthy_str id) as [nid|] eqn:Hid.
    + rewrite (calc_node _ _ _ _ _ nid) in Hk by done. cbv zeta in Hk.
      destruct (decide (nid = k)) as [->|Hne].
      { right. eexists. split; [apply reaches_here|done]. }
      rewrite lookup_insert_ne in Hk by done.
      destruct (step_dom _ (Forall_childrenWithIds _ _ IHc) _ _ Hk)
        as [?|([cid child] & Hin & Hrel & n & Hn & Hidn)]; [by left|].
      right. exists n. split; [|done]. by eapply reaches_child.
    + rewrite calc_container in Hk by done.
      destruct (fold_dom _ (Forall_containerItems _ _ _ IHc IHo) result k Hk)
        as [?|(child & Hin & n & Hn & Hidn)]; [by left|].
      right. exists n. split; [|done]. by eapply reaches_contained.
Qed.
End CumulativeFacts.

(** C1, as the code has it.  In a hierarchy whose identifiers are unique,
    for every direct-count table and relevant-node set, the table of
    [calculateCumulativeCounts] satisfies at every node with an id that the
    walk comes to (a node is come to from the top through arrays and
    objects without an id, and from a node with an id through the children
    whose id is in the relevant-node set):
    cumulative(node) = direct(node) + the sum of cumulative(child) over the
    children of the node whose id is in the relevant-node set.  The other
    children contribute nothing, whatever their direct counts.  And the
    table has entries only for the ids of nodes the walk comes to. *)
Theorem cumulative_counts_equation_where_reached :
  ∀ (directMatches : gmap string nat) (relevantNodes : gset string)
    (hierarchy : BrefSelector.hnode) id m c children others nid,
    NoDup (Tree.labels hierarchy) →
    Tree.Reaches (fun cid => cid ∈ relevantNodes) hierarchy
      (BrefSelector.HObj id m c children others) →
    Js.truthy_str id = Some nid →
    let cumulative :=
      BrefSelector.calculateCumulativeCounts directMatches relevantNodes
        hierarchy ∅ in
    Js.count cumulative nid =
    Js.count directMatches nid +
    list_sum (map (Js.count cumulative)
                  (Tree.relevantChildIds relevantNodes children)) ∧
    ∀ k, is_Some (cumulative !! k) →
         ∃ n, Tree.Reaches (fun cid => cid ∈ relevantNodes) hierarchy n ∧
              Js.truthy_str (BrefSelector.id_of n) = Some k.
Proof.
  intros directMatches relevantNodes hierarchy id m c children others nid
    Hnodup Hreach Hid cumulative.
  split.
  - pose proof (calc_Inv directMatches relevantNodes hierarchy ∅ Hnodup _ Hreach)
      as Heq.
    unfold Tree.equationAt in Heq. by rewrite Hid in Heq.
  - intros k Hk.
    destruct (calc_dom directMatches relevantNodes hierarchy ∅ k Hk) as [H|H];
      [|done].
    rewrite lookup_empty in H. by destruct H.
Qed.

Lemma cumulative_counts_equation_where_reached_witness :
  let cumulative :=
    BrefSelector.calculateCumulativeCounts
      (BrefSelector.directMatchCounts Fixture.relevanceScores
         Fixture.relevantNodes)
      Fixture.relevantNodes Fixture.hierarchy ∅ in
  Js.count cumulative "A2" = 0 + list_sum (map (Js.count cumulative) ["A2a"]).
Proof.
  apply (cumulative_counts_equation_where_reached
           (BrefSelector.directMatchCounts Fixture.relevanceScores
              Fixture.relevantNodes)
           Fixture.relevantNodes Fixture.hierarchy
           (Some "A2") false false
           (BrefSelector.KArr
              [BrefSelector.HObj (Some "A2a") false false BrefSelector.KNone []])
           [] "A2").
  - apply (bool_decide_unpack _). vm_compute. exact I.
  - eapply Tree.reaches_contained; [reflexivity | by left |].
    eapply Tree.reaches_contained; [reflexivity | right; by left |].
    apply Tree.reaches_here.
  - reflexivity.
Defined.

(** C1, as stated, fails at a node the walk does not come to.  In the
    hierarchy [a > b > c] only [c] carries a match flag, so the relevant
    nodes are {c} and the direct counts {c: 1}; the walk stops at [b], the
    table is {a: 0}, and at [c] cumulative is 0 where direct is 1. *)
Lemma cumulative_counts_equation_fails_below_irrelevant_node :
  let relevantNodes := BrefSelector.findRelevantNodes Gap.hierarchy in
  let directMatches :=
    BrefSelector.directMatchCounts Gap.relevanceScores relevantNodes in
  let cumulative :=
    BrefSelector.calculateCumulativeCounts directMatches relevantNodes
      Gap.hierarchy ∅ in
  NoDup (Tree.labels Gap.hierarchy) ∧
  Tree.Reaches (fun _ => True) Gap.hierarchy Gap.nodeC ∧
  cumulative = {["a" := 0]} ∧
  Js.count directMatches "c" = 1 ∧
  ¬ Tree.equationAt directMatches relevantNodes cumulative Gap.nodeC.
Proof.
  cbv zeta. split; [|split; [|split; [|split]]].
  - apply (bool_decide_unpack _). vm_compute. exact I.
  - eapply Tree.reaches_item; [by left|].
    eapply (Tree.reaches_child _ _ _ _ _ _ "a" "b"); [reflexivity|by left|done|].
    eapply (Tree.reaches_child _ _ _ _ _ _ "b" "c"); [reflexivity|by left|done|].
    apply Tree.reaches_here.
  - vm_compute. reflexivity.
  - vm_compute. reflexivity.
  - unfold Tree.equationAt. vm_compute. discriminate.
Qed.

(** Where an id occurs twice the equation can fail at a node the walk does
    come to: the two nodes share one entry of the table. *)
Example cumulative_counts_equation_needs_unique_ids :
  let relevantNodes : gset string := {["a"]} in
  let directMatches : gmap string nat := {["a" := 1]} in
  let cumulative :=
    BrefSelector.calculateCumulativeCounts directMatches relevantNodes
      Twice.hierarchy ∅ in
  Tree.Reaches (fun cid => cid ∈ relevantNodes) Twice.hierarchy Twice.inner ∧
  ¬ Tree.equationAt directMatches relevantNodes cumulative Twice.inner.
Proof.
  cbv zeta. split.
  - eapply Tree.reaches_item; [by left|].
    eapply (Tree.reaches_child _ _ _ _ _ _ "a" "a");
      [reflexivity|by left|set_solver|].
    apply Tree.reaches_here.
  - unfold Tree.equationAt. vm_compute. discriminate.
Qed.

(** ** Relevance marks, the relevance filter and the expansion state *)

Section Relevance.
Import Js BrefSelector Tree.

Lemma existsb_Forall_iff {A} (f : A → bool) (P : A → Prop) l :
  Forall (fun x => f x = true ↔ P x) l →
  existsb f l = true ↔ ∃ x, x ∈ l ∧ P x.
Proof.
  intros H. rewrite existsb_exists. rewrite Forall_forall in H.
  split; intros (x & Hx & Hp); exists x.
  - apply list_elem_of_In in Hx. split; [done|]. by apply H.
  - split; [by apply list_elem_of_In|]. by apply H.
Qed.

Lemma existsb_map' {A B} (f : B → bool) (g : A → B) l :
  existsb f (map g l) = existsb (fun x => f (g x)) l.
Proof. induction l as [|x l IH]; simpl; [done|]. by rewrite IH. Qed.

Lemma isRelevant_unfold id m c children others :
  isRelevant (HObj id m c children others)
  = m || c || existsb isRelevant (kidsList children).
Proof.
  unfold isRelevant at 1. cbn [checkNodeMatches].
  destruct m, c; try reflexivity. simpl.
  destruct children as [|items|entries]; simpl; [done|done|].
  by rewrite existsb_map'.
Qed.

Lemma isRelevant_below node :
  isRelevant node = true ↔ ∃ n, Below node n ∧ hasFlag n = true.
Proof.
  induction node as [|items _|id m c children others IHc _]
    using hnode_nested_ind.
  - split; [done|]. intros (n & Hn & Hf). inversion Hn; subst. done.
  - split; [done|]. intros (n & Hn & Hf). inversion Hn; subst. done.
  - rewrite isRelevant_unfold. rewrite orb_true_iff.
    rewrite (existsb_Forall_iff _ _ _ IHc). split.
    + intros [Hflag|(child & Hin & n & Hn & Hf)].
      * eexists. split; [apply below_here|done].
      * exists n. split; [|done]. by eapply below_child.
    + intros (n & Hn & Hf).
      inversion Hn as [|? ? ? ? ? child ? Hin Hbelow]; subst.
      * by left.
      * right. exists child. split; [done|]. by exists n.
Qed.

Lemma doesBrefMatch_unfold id m c children others :
  doesBrefMatch (HObj id m c children others)
  = m || c
    || existsb (fun child => hasFlag child || doesBrefMatch child)
               (kidsList children).
Proof.
  cbn [doesBrefMatch]. destruct m, c; try reflexivity. simpl.
  destruct children as [|items|entries]; simpl; [done|done|].
  by rewrite existsb_map'.
Qed.

Lemma isRelevant_doesBrefMatch node :
  isRelevant node = true → doesBrefMatch node = true.
Proof.
  induction node as [|items _|id m c children others IHc _]
    using hnode_nested_ind; [done|done|].
  rewrite isRelevant_unfold, doesBrefMatch_unfold.
  rewrite !orb_true_iff, !existsb_exists.
  intros [Hflag|(child & Hin & Hrel)]; [by left|]. right.
  exists child. split; [done|]. apply orb_true_iff. right.
  rewrite Forall_forall in IHc. apply IHc; [|done]. by apply list_elem_of_In.
Qed.
End Relevance.

(** X1.  [checkNodeMatches] reports a node as relevant (a direct or a
    children match) exactly when the node itself, or an object below it
    through the [children] of objects, carries one of the two match
    flags. *)
Theorem checkNodeMatches_relevant_iff_flag_below :
  ∀ node,
    (let matches := BrefSelector.checkNodeMatches node in
     fst matches || snd matches) = true
    ↔ ∃ n, Tree.Below node n ∧ BrefSelector.hasFlag n = true.
Proof. intros node. apply isRelevant_below. Qed.

(** X2.  The relevance filter never hides a top-level document that the
    tree shows as relevant: whatever the filter switch and the pollutant
    are, a document of the hierarchy for which [checkNodeMatches] reports a
    match is among the documents of [filteredBrefHierarchy], and the
    filtered documents are documents of the hierarchy, in their order. *)
Theorem filteredBrefHierarchy_keeps_relevant :
  ∀ showOnlyRelevant selectedPollutant documents doc,
    doc ∈ documents →
    BrefSelector.isRelevant (snd doc) = true →
    ∃ filtered,
      BrefSelector.filteredBrefHierarchy showOnlyRelevant selectedPollutant
        (Some documents) = Some filtered ∧
      doc ∈ filtered ∧ filtered `sublist_of` documents.
Proof.
  intros showOnlyRelevant selectedPollutant documents doc Hin Hrel.
  unfold BrefSelector.filteredBrefHierarchy.
  destruct (negb showOnlyRelevant
            || negb (BrefSelector.pollutantActive selectedPollutant)).
  - by exists documents.
  - eexists. split; [done|]. split.
    + apply list_elem_of_In, filter_In. split; [by apply list_elem_of_In|].
      by apply isRelevant_doesBrefMatch.
    + induction documents as [|d ds IH]; simpl; [done|].
      assert (Hsub : ∀ l : list (string * BrefSelector.hnode),
                 List.filter (fun doc => BrefSelector.doesBrefMatch (snd doc)) l
                 `sublist_of` l).
      { clear. induction l as [|x l IHl]; simpl; [done|].
        destruct (BrefSelector.doesBrefMatch (snd x));
          [by apply sublist_skip | by apply sublist_cons]. }
      destruct (BrefSelector.doesBrefMatch (snd d));
        [apply sublist_skip | apply sublist_cons]; apply Hsub.
Qed.

Lemma filteredBrefHierarchy_keeps_relevant_witness :
  ∃ filtered,
    BrefSelector.filteredBrefHierarchy true (Some "NOx")
      (Some [("X", SelectionInputs.plainLeaf); ("Y", SelectionInputs.parent)])
      = Some filtered ∧
    ("Y", SelectionInputs.parent) ∈ filtered ∧
    filtered `sublist_of`
      [("X", SelectionInputs.plainLeaf); ("Y", SelectionInputs.parent)].
Proof.
  apply (filteredBrefHierarchy_keeps_relevant true (Some "NOx")
           [("X", SelectionInputs.plainLeaf); ("Y", SelectionInputs.parent)]
           ("Y", SelectionInputs.parent)).
  - right. by left.
  - reflexivity.
Defined.

(** X3.  Toggling a node twice restores, for every node, whether it is
    expanded; one toggle flips the node and leaves every other node as it
    was. *)
Theorem toggleExpanded_involution :
  ∀ (expandedNodes : gmap string bool) nodeId other,
    BrefSelector.isExpanded
      (BrefSelector.toggleExpanded nodeId
         (BrefSelector.toggleExpanded nodeId expandedNodes)) other
    = BrefSelector.isExpanded expandedNodes other ∧
    BrefSelector.isExpanded (BrefSelector.toggleExpanded nodeId expandedNodes)
      other
    = if decide (other = nodeId)
      then negb (BrefSelector.isExpanded expandedNodes nodeId)
      else BrefSelector.isExpanded expandedNodes other.
Proof.
  intros expandedNodes nodeId other.
  unfold BrefSelector.isExpanded, BrefSelector.toggleExpanded.
  split.
  - destruct (decide (nodeId = other)) as [->|Hne].
    + rewrite !lookup_insert_eq. simpl. by rewrite negb_involutive.
    + by rewrite !lookup_insert_ne.
  - case_decide as Heq; [subst; by rewrite lookup_insert_eq|].
    by rewrite lookup_insert_ne.
Qed.

(** ** More on the relevant nodes and the counts *)

Section RelevantNodes.
Import Js BrefSelector Tree.

(** A node that [findRelevantNodes] marks under the id [k]. *)
Local Notation "'marks' n k" :=
  (truthy_str (id_of n) = Some k ∧ hasFlag n = true)
  (at level 10, n at level 9, k at level 9, only parsing).

Local Notation "'collects' node" :=
  (∀ acc k, k ∈ traverseNode node acc ↔
            k ∈ acc ∨ ∃ n, Walks node n ∧ marks n k)
  (at level 10, only parsing).

Lemma traverse_fold items :
  Forall (fun child => collects child) items →
  ∀ acc k,
    k ∈ fold_left (fun acc child => traverseNode child acc) items acc ↔
    k ∈ acc ∨ ∃ child n, child ∈ items ∧ Walks child n ∧ marks n k.
Proof.
  induction 1 as [|child items Hchild _ IH]; intros acc k; simpl.
  - split; [by left|]. intros [?|(child & n & Hin & _)]; [done|].
    by apply elem_of_nil in Hin.
  - rewrite IH, Hchild. split.
    + intros [[?|(n & Hn & Hm)]|(c & n & Hin & Hn & Hm)].
      * by left.
      * right. exists child, n. split; [by left|done].
      * right. exists c, n. split; [by right|done].
    + intros [?|(c & n & [->|Hin]%elem_of_cons & Hn & Hm)].
      * left. by left.
      * left. right. by exists n.
      * right. by exists c, n.
Qed.

Lemma traverse_container id m c children others acc :
  truthy_str id = None →
  traverseNode (HObj id m c children others) acc
  = fold_left (fun acc child => traverseNode child acc)
              (containerItems children others) acc.
Proof.
  intros Hid. cbn [traverseNode]. rewrite Hid.
  destruct children as [|items|entries]; simpl containerItems;
    by rewrite ?fold_left_map'.
Qed.

Lemma traverse_node id m c children others nid acc :
  truthy_str id = Some nid →
  traverseNode (HObj id m c children others) acc
  = fold_left (fun acc child => traverseNode child acc)
              (kidsList children)
              (if m || c then {[nid]} ∪ acc else acc).
Proof.
  intros Hid. cbn [traverseNode]. rewrite Hid. cbv zeta.
  destruct children as [|items|entries]; simpl kidsList;
    by rewrite ?fold_left_map'.
Qed.

Lemma traverseNode_collects node : collects node.
Proof.
  induction node as [|items IH|id m c children others IHc IHo]
    using hnode_nested_ind; intros acc k.
  - simpl. split; [by left|]. intros [?|(n & Hn & Hid & _)]; [done|].
    inversion Hn; subst. done.
  - cbn [traverseNode]. rewrite (traverse_fold items IH). split.
    + intros [?|(child & n & Hin & Hn & Hm)]; [by left|].
      right. exists n. split; [by eapply walks_item|done].
    + intros [?|(n & Hn & Hm)]; [by left|].
      inversion Hn as [|? child ? Hin Hw| |]; subst.
      * destruct Hm as [Hid _]. done.
      * right. by exists child, n.
  - destruct (truthy_str id) as [nid|] eqn:Hid.
    + rewrite (traverse_node _ _ _ _ _ nid) by done.
      rewrite (traverse_fold _ IHc). split.
      * intros [Hacc|(child & n & Hin & Hn & Hm)].
        -- destruct (m || c) eqn:Hflag; [|by left].
           apply elem_of_union in Hacc as [->%elem_of_singleton|?];
             [|by left].
           right. eexists. split; [apply walks_here|]. by split.
        -- right. exists n. split; [by eapply walks_child|done].
      * intros [?|(n & Hn & Hm)].
        -- left. destruct (m || c); [|done]. apply elem_of_union. by right.
        -- inversion Hn as [| |? ? ? ? ? child ? Hid' Hin Hw
                            |? ? ? ? ? nid' child ? Hid' Hin Hw]; subst.
           ++ destruct Hm as [Hk Hflag]. simpl in Hk, Hflag.
              rewrite Hid in Hk. injection Hk as <-.
              left. rewrite Hflag. apply elem_of_union. left.
              by apply elem_of_singleton.
           ++ congruence.
           ++ right. by exists child, n.
    + rewrite traverse_container by done.
      rewrite (traverse_fold _ (Forall_containerItems _ _ _ IHc IHo)). split.
      * intros [?|(child & n & Hin & Hn & Hm)]; [by left|].
        right. exists n. split; [by eapply walks_contained|done].
      * intros [?|(n & Hn & Hm)]; [by left|].
        inversion Hn as [| |? ? ? ? ? child ? Hid' Hin Hw
                         |? ? ? ? ? nid' child ? Hid' Hin Hw]; subst.
        -- destruct Hm as [Hk _]. simpl in Hk. congruence.
        -- right. by exists child, n.
        -- congruence.
Qed.
End RelevantNodes.

(** X4.  [findRelevantNodes] returns exactly the ids of the nodes it walks
    that carry a match flag: an id is in the table if and only if some node
    of the hierarchy (reached through arrays, through objects without an id
    and through the children of nodes with an id) has that id and has
    [hasMatchForPollutant] or [hasChildrenWithMatchForPollutant] set. *)
Theorem findRelevantNodes_exactly_flagged_ids :
  ∀ hierarchy k,
    k ∈ BrefSelector.findRelevantNodes hierarchy ↔
    ∃ n, Tree.Walks hierarchy n ∧
         Js.truthy_str (BrefSelector.id_of n) = Some k ∧
         BrefSelector.hasFlag n = true.
Proof.
  intros hierarchy k. unfold BrefSelector.findRelevantNodes.
  rewrite traverseNode_collects. split; [|by right].
  intros [H|H]; [|done]. by apply not_elem_of_empty in H.
Qed.

Section Counts.
Import Js BrefSelector Tree.
Variable directMatches : gmap string nat.
Variable relevantNodes : gset string.

Local Notation "'calc'" :=
  (calculateCumulativeCounts directMatches relevantNodes).
Local Notation "'step'" :=
  (fun acc (p : string * hnode) =>
     addChild relevantNodes (Some (fst p)) (calc (snd p)) acc).

Hypothesis no_direct : ∀ k, count directMatches k = 0.

Local Notation "'zero' T" := (∀ k, count T k = 0) (at level 10, only parsing).

Lemma fold_zero items :
  Forall (fun child => ∀ result, zero result → zero (calc child result)) items →
  ∀ result, zero result →
    zero (fold_left (fun res child => calc child res) items result).
Proof.
  induction 1 as [|child items Hchild _ IH]; intros result Hz; simpl; [done|].
  apply IH. by apply Hchild.
Qed.

Lemma step_zero cw :
  Forall (fun p => ∀ result, zero result → zero (calc (snd p) result)) cw →
  ∀ acc, fst acc = 0 → zero (snd acc) →
    fst (fold_left step cw acc) = 0 ∧ zero (snd (fold_left step cw acc)).
Proof.
  induction 1 as [|p cw Hp _ IH]; intros acc H0 Hz; simpl; [done|].
  apply IH; unfold addChild; case_bool_decide; simpl; try done.
  - rewrite H0. simpl. by apply Hp.
  - by apply Hp.
Qed.

Lemma calc_zero node : ∀ result, zero result → zero (calc node result).
Proof.
  induction node as [|items IH|id m c children others IHc IHo]
    using hnode_nested_ind; intros result Hz.
  - done.
  - by apply fold_zero.
  - destruct (truthy_str id) as [nid|] eqn:Hid.
    + rewrite (calc_node _ _ _ _ _ _ _ nid) by done. cbv zeta.
      destruct (step_zero _ (Forall_childrenWithIds _ _ IHc)
                  (count directMatches nid, result) (no_direct nid) Hz)
        as [H0 Hz'].
      intros k. unfold count at 1.
      destruct (decide (nid = k)) as [->|Hne].
      * rewrite lookup_insert_eq. simpl. exact H0.
      * rewrite lookup_insert_ne by done. apply Hz'.
    + rewrite calc_container by done.
      apply fold_zero; [|done]. exact (Forall_containerItems _ _ _ IHc IHo).
Qed.
End Counts.

(** X5.  When no entry of the relevance matrix reaches the threshold at a
    relevant node (in particular when the matrix is empty), every count of
    the table [calculateAllPatentCounts] stores is zero, so every badge
    shows 0; with the scores or the hierarchy missing the table is empty. *)
Theorem calculateAllPatentCounts_all_zero :
  ∀ (relevanceScores : BrefSelector.matrix) hierarchy relevantNodes,
    (∀ k, k ∈ relevantNodes → Spec.triplesAtOrAbove relevanceScores k = 0) →
    (∀ k, Js.count
            (BrefSelector.calculateAllPatentCounts (Some relevanceScores)
               (Some hierarchy) relevantNodes) k = 0) ∧
    BrefSelector.calculateAllPatentCounts None (Some hierarchy) relevantNodes
      = ∅ ∧
    BrefSelector.calculateAllPatentCounts (Some relevanceScores) None
      relevantNodes = ∅.
Proof.
  intros M hierarchy R Hlow. split; [|done].
  unfold BrefSelector.calculateAllPatentCounts. apply calc_zero.
  - intros k. unfold BrefSelector.directMatchCounts.
    rewrite matrix_count. unfold Js.count at 1. rewrite lookup_empty. simpl.
    case_bool_decide; [by apply Hlow|done].
  - intros k. unfold Js.count. by rewrite lookup_empty.
Qed.

Lemma calculateAllPatentCounts_all_zero_witness :
  Js.count
    (BrefSelector.calculateAllPatentCounts (Some [])
       (Some Fixture.hierarchy) Fixture.relevantNodes) "A2" = 0.
Proof.
  apply (calculateAllPatentCounts_all_zero [] Fixture.hierarchy
           Fixture.relevantNodes).
  intros k _. reflexivity.
Defined.

Lemma list_sum_elem (l : list nat) x : x ∈ l → x ≤ list_sum l.
Proof.
  induction l as [|y l IH]; [by intros ?%elem_of_nil|].
  intros [->|H]%elem_of_cons; simpl; [lia|]. apply IH in H. lia.
Qed.

(** X6.  In a hierarchy whose identifiers are unique, at every node with an
    id that the walk of [calculateCumulativeCounts] comes to, the cumulative
    count is at least the node's direct count and at least the cumulative
    count of each child whose id is in the relevant-node set: a badge is
    never smaller than the badge of a relevant sub-section. *)
Theorem cumulative_count_dominates_relevant_children :
  ∀ (directMatches : gmap string nat) (relevantNodes : gset string)
    (hierarchy : BrefSelector.hnode) id m c children others nid,
    NoDup (Tree.labels hierarchy) →
    Tree.Reaches (fun cid => cid ∈ relevantNodes) hierarchy
      (BrefSelector.HObj id m c children others) →
    Js.truthy_str id = Some nid →
    let cumulative :=
      BrefSelector.calculateCumulativeCounts directMatches relevantNodes
        hierarchy ∅ in
    Js.count directMatches nid ≤ Js.count cumulative nid ∧
    ∀ cid, cid ∈ Tree.relevantChildIds relevantNodes children →
           Js.count cumulative cid ≤ Js.count cumulative nid.
Proof.
  intros directMatches relevantNodes hierarchy id m c children others nid
    Hnodup Hreach Hid cumulative.
  pose proof (calc_Inv directMatches relevantNodes hierarchy ∅ Hnodup _ Hreach)
    as Heq.
  unfold Tree.equationAt in Heq. rewrite Hid in Heq. fold cumulative in Heq.
  split; [lia|]. intros cid Hcid.
  assert (Js.count cumulative cid
          ≤ list_sum (map (Js.count cumulative)
                          (Tree.relevantChildIds relevantNodes children))).
  { apply list_sum_elem. apply list_elem_of_fmap. by exists cid. }
  lia.
Qed.

Lemma cumulative_count_dominates_relevant_children_witness :
  let cumulative :=
    BrefSelector.calculateCumulativeCounts
      (BrefSelector.directMatchCounts Fixture.relevanceScores
         Fixture.relevantNodes)
      Fixture.relevantNodes Fixture.hierarchy ∅ in
  0 ≤ Js.count cumulative "A2" ∧
  ∀ cid, cid ∈ ["A2a"] → Js.count cumulative cid ≤ Js.count cumulative "A2".
Proof.
  apply (cumulative_count_dominates_relevant_children
           (BrefSelector.directMatchCounts Fixture.relevanceScores
              Fixture.relevantNodes)
           Fixture.relevantNodes Fixture.hierarchy
           (Some "A2") false false
           (BrefSelector.KArr
              [BrefSelector.HObj (Some "A2a") false false BrefSelector.KNone []])
           [] "A2").
  - apply (bool_decide_unpack _). vm_compute. exact I.
  - eapply Tree.reaches_contained; [reflexivity | by left |].
    eapply Tree.reaches_contained; [reflexivity | right; by left |].
    apply Tree.reaches_here.
  - reflexivity.
Defined.

(** ** More on the ranking *)

Section TopK.
Import Js.
Context {A : Type} (key : A → Q).

Lemma StronglySorted_app_le (l1 l2 : list A) :
  StronglySorted (Spec.descending key) (l1 ++ l2) →
  ∀ x y, x ∈ l1 → y ∈ l2 → (key y <= key x)%Q.
Proof.
  induction l1 as [|a l1 IH]; simpl; intros Hs x y Hx Hy.
  - by apply elem_of_nil in Hx.
  - apply StronglySorted_inv in Hs as [Hs Ha].
    apply elem_of_cons in Hx as [->|Hx]; [|by apply IH].
    rewrite Forall_forall in Ha. apply Ha. apply elem_of_app. by right.
Qed.

(** What [slice(0, n)] of the sorted array leaves out is no better than
    what it keeps. *)
Lemma slice0_sort_best n l x :
  x ∈ l →
  x ∈ slice0 n (sort_desc key l) ∨
  ∀ y, y ∈ slice0 n (sort_desc key l) → (key x <= key y)%Q.
Proof.
  intros Hx. rewrite <- (sort_desc_perm key l) in Hx.
  rewrite <- (take_drop n (sort_desc key l)) in Hx.
  apply elem_of_app in Hx as [Hx|Hx]; [by left|]. right.
  intros y Hy. eapply (StronglySorted_app_le (take n (sort_desc key l))
                         (drop n (sort_desc key l))); [|done|done].
  rewrite take_drop. apply sort_desc_sorted.
Qed.

Lemma slice0_sort_length n l :
  length (slice0 n (sort_desc key l)) = n `min` length l.
Proof.
  unfold slice0. rewrite length_take.
  by rewrite (Permutation_length (sort_desc_perm key l)).
Qed.
End TopK.

Section PollutantBranch.
Import Js PatentRanking.

Lemma pollutantPatents_eq topPatents :
  pollutantPatents topPatents
  = map (fun p => {| entry := p; relevanceScore := score p |})
        (List.filter (fun p => ge_threshold (score p)) topPatents).
Proof.
  unfold pollutantPatents.
  induction topPatents as [|p l IH]; [done|].
  cbn [map List.filter]. rewrite filter_cons. cbn [relevanceScore].
  destruct (ge_threshold (score p)) eqn:E.
  - rewrite decide_True by done. cbn [map]. by rewrite IH.
  - rewrite decide_False by congruence. done.
Qed.

Lemma rankedPatents_pollutant topPatents M patentIndex maxPatents :
  rankedPatents topPatents None M patentIndex maxPatents
  = slice0 maxPatents (sort_desc relevanceScore (pollutantPatents topPatents)).
Proof.
  unfold rankedPatents. destruct topPatents; [|reflexivity].
  by destruct maxPatents.
Qed.
End PollutantBranch.

(** X7.  With no BREF node selected [rankedPatents] returns the best of the
    [topPatents] entries that reach the threshold: it has exactly
    min(maxPatents, number of entries with score >= 0.68) entries, each is
    an entry of [topPatents] ranked by its own [score], and an entry with
    score >= 0.68 that is left out scores no higher than any entry
    returned. *)
Theorem rankedPatents_pollutant_top_k :
  ∀ topPatents brefRelevanceScores patentIndex maxPatents,
    let result :=
      PatentRanking.rankedPatents topPatents None brefRelevanceScores
        patentIndex maxPatents in
    length result
      = maxPatents `min`
        length (List.filter (fun p => Js.ge_threshold (PatentRanking.score p))
                  topPatents) ∧
    (∀ r, r ∈ result →
          PatentRanking.entry r ∈ topPatents ∧
          PatentRanking.relevanceScore r
            = PatentRanking.score (PatentRanking.entry r)) ∧
    (∀ p, p ∈ topPatents →
          Js.ge_threshold (PatentRanking.score p) = true →
          {| PatentRanking.entry := p;
             PatentRanking.relevanceScore := PatentRanking.score p |} ∈ result ∨
          ∀ r, r ∈ result →
               (PatentRanking.score p <= PatentRanking.relevanceScore r)%Q).
Proof.
  intros topPatents M patentIndex maxPatents result. subst result.
  rewrite rankedPatents_pollutant. split; [|split].
  - rewrite slice0_sort_length, pollutantPatents_eq. by rewrite length_map.
  - intros r Hr%slice0_sort_elem. rewrite pollutantPatents_eq in Hr.
    apply list_elem_of_fmap in Hr as (p & -> & Hp). split; [|done]. simpl.
    apply list_elem_of_In, filter_In in Hp as [Hp _]. by apply list_elem_of_In.
  - intros p Hp Hge.
    apply (slice0_sort_best PatentRanking.relevanceScore maxPatents
             (PatentRanking.pollutantPatents topPatents)
             {| PatentRanking.entry := p;
                PatentRanking.relevanceScore := PatentRanking.score p |}).
    rewrite pollutantPatents_eq. apply list_elem_of_fmap. exists p.
    split; [done|]. apply list_elem_of_In, filter_In.
    split; [by apply list_elem_of_In|done].
Qed.

Section Provenance.
Import Js PatentRanking.
Variable topPatents : list patent.
Variable brefRelevanceScores : BrefSelector.matrix.
Variable brefId : string.

Local Notation "'hydrated'" :=
  (Spec.hydrated topPatents brefRelevanceScores brefId).

Lemma pushBrefRelevant_hydrated index acc patentScores :
  patentScores ∈ brefRelevanceScores →
  Forall (hydrated index) acc →
  Forall (hydrated index)
    (pushBrefRelevant topPatents brefId index acc patentScores).
Proof.
  intros Hin Hacc. unfold pushBrefRelevant.
  destruct patentScores as [patentId scores].
  destruct (existsb _ topPatents) eqn:Etop; [done|].
  destruct (get scores brefId) as [brefScore|] eqn:Escore; [|done].
  destruct (truthy_num brefScore && ge_threshold brefScore); [|done].
  destruct (get index patentId) as [d|] eqn:Eidx; [|done].
  apply Forall_app. split; [done|]. constructor; [|constructor].
  unfold Spec.hydrated. simpl. split; [done|]. split; [by exists scores|].
  split; [by rewrite Eidx|done].
Qed.

Lemma pushBrefRelevant_fold_hydrated index (M : BrefSelector.matrix) acc :
  (∀ e, e ∈ M → e ∈ brefRelevanceScores) →
  Forall (hydrated index) acc →
  Forall (hydrated index)
    (fold_left (pushBrefRelevant topPatents brefId index) M acc).
Proof.
  revert acc. induction M as [|e M IH]; intros acc Hsub Hacc; simpl; [done|].
  apply IH.
  - intros e' He'. apply Hsub. by right.
  - apply pushBrefRelevant_hydrated; [|done]. apply Hsub. by left.
Qed.

Lemma brefRelevantPatents_hydrated index :
  Forall (hydrated index)
    (brefRelevantPatents topPatents brefRelevanceScores (Some index) brefId).
Proof.
  unfold brefRelevantPatents.
  apply pushBrefRelevant_fold_hydrated; [auto|constructor].
Qed.
End Provenance.

(** X8.  With a BREF node selected and a non-empty matrix, every patent [rankedPatents] returns is
    either an entry of [topPatents], ranked by [getRelevanceScore] for the
    selected node, or a patent built from the matrix and the patent index:
    its id is not an id of [topPatents], the matrix holds its
    [relevanceScore] for the selected node, the patent index knows it, and
    its base score is 0.  A matrix patent the index does not know is never
    returned, and with no patent index only [topPatents] entries are. *)
Theorem rankedPatents_bref_provenance :
  ∀ topPatents b brefId (brefRelevanceScores : BrefSelector.matrix)
    patentIndex maxPatents r,
    Js.truthy_str (BrefSelector.id_of b) = Some brefId →
    brefRelevanceScores ≠ [] →
    r ∈ PatentRanking.rankedPatents topPatents (Some b) brefRelevanceScores
          patentIndex maxPatents →
    (PatentRanking.entry r ∈ topPatents ∧
     PatentRanking.relevanceScore r
       = PatentRanking.getRelevanceScore brefRelevanceScores
           (PatentRanking.entry r) (Some brefId)) ∨
    (∃ index, patentIndex = Some index ∧
              Spec.hydrated topPatents brefRelevanceScores brefId index r).
Proof.
  intros topPatents b brefId M patentIndex maxPatents r Hid HM Hr.
  assert (Hcomb : r ∈ PatentRanking.combinedPatents topPatents M patentIndex
                        brefId).
  { unfold PatentRanking.rankedPatents in Hr.
    destruct (length topPatents =? 0); [by apply elem_of_nil in Hr|].
    unfold PatentRanking.brefBranch in Hr. rewrite Hid in Hr.
    destruct M as [|e M]; [done|]. cbn [length Nat.ltb Nat.leb] in Hr.
    destruct (PatentRanking.getBrefRelevantPatentCount _ _ =? 0)%Z;
      [by apply elem_of_nil in Hr|].
    apply slice0_sort_elem in Hr. by apply uniquePatents_elem in Hr. }
  apply elem_of_app in Hcomb as [Htop|Hbref].
  - left. unfold PatentRanking.topPatentsWithScores in Htop.
    apply list_elem_of_filter in Htop as [_ Htop].
    apply list_elem_of_fmap in Htop as (p & -> & Hp). by split.
  - right. destruct patentIndex as [index|];
      [|by apply elem_of_nil in Hbref].
    exists index. split; [done|].
    pose proof (brefRelevantPatents_hydrated topPatents M brefId index) as H.
    rewrite Forall_forall in H. by apply H.
Qed.

Lemma rankedPatents_bref_provenance_witness :
  (PatentRanking.entry RankingInputs.rankedQ ∈ [RankingInputs.p1] ∧
   PatentRanking.relevanceScore RankingInputs.rankedQ
     = PatentRanking.getRelevanceScore RankingInputs.matrixQ
         (PatentRanking.entry RankingInputs.rankedQ) (Some "B")) ∨
  (∃ index, Some RankingInputs.indexQ = Some index ∧
            Spec.hydrated [RankingInputs.p1] RankingInputs.matrixQ "B" index
              RankingInputs.rankedQ).
Proof.
  apply (rankedPatents_bref_provenance [RankingInputs.p1] RankingInputs.nodeB
           "B" RankingInputs.matrixQ (Some RankingInputs.indexQ) 5
           RankingInputs.rankedQ); [reflexivity | discriminate |].
  vm_compute. by left.
Defined.

(** X9.  The BREF sections the details box lists for a patent are at most
    five, each is an entry of that patent's scores in the relevance matrix
    with score >= 0.68, they are in descending order of score, there are
    exactly min(5, number of entries with score >= 0.68) of them, and an
    entry with score >= 0.68 that is left out scores no higher than any
    section listed. *)
Theorem topBrefSections_best_five :
  ∀ (brefRelevanceScores : BrefSelector.matrix) patentId,
    let scores := default [] (Js.get brefRelevanceScores patentId) in
    let sections := PatentDetails.topSections brefRelevanceScores patentId in
    length sections
      = 5 `min` length (List.filter (fun kv => Js.ge_threshold (snd kv)) scores) ∧
    Forall (fun item =>
              (PatentDetails.brefId item, PatentDetails.score item) ∈ scores ∧
              (68 # 100 <= PatentDetails.score item)%Q) sections ∧
    StronglySorted (Spec.descending PatentDetails.score) sections ∧
    (∀ kv, kv ∈ scores → Js.ge_threshold (snd kv) = true →
           {| PatentDetails.brefId := fst kv; PatentDetails.score := snd kv |}
             ∈ sections ∨
           ∀ item, item ∈ sections → (snd kv <= PatentDetails.score item)%Q).
Proof.
  intros M patentId scores sections.
  set (items := List.filter (fun item => Js.ge_threshold (PatentDetails.score item))
                  (map (fun kv => {| PatentDetails.brefId := fst kv;
                                     PatentDetails.score := snd kv |}) scores)).
  assert (Hsec : sections
                 = Js.slice0 5 (Js.sort_desc PatentDetails.score items)).
  { subst sections items. unfold PatentDetails.topSections. fold scores.
    destruct scores; reflexivity. }
  assert (Hitems : items
                   = map (fun kv => {| PatentDetails.brefId := fst kv;
                                       PatentDetails.score := snd kv |})
                         (List.filter (fun kv => Js.ge_threshold (snd kv)) scores)).
  { subst items. clear. induction scores as [|kv l IH]; [done|].
    cbn [map List.filter PatentDetails.score].
    destruct (Js.ge_threshold (snd kv)); cbn [map]; by rewrite IH. }
  rewrite Hsec. split; [|split; [|split]].
  - by rewrite slice0_sort_length, Hitems, length_map.
  - apply Forall_forall. intros item Hitem%slice0_sort_elem.
    rewrite Hitems in Hitem.
    apply list_elem_of_fmap in Hitem as ([k s] & -> & Hkv). simpl.
    apply list_elem_of_In, filter_In in Hkv as [Hkv Hge]. split.
    + by apply list_elem_of_In.
    + by apply Qle_bool_iff in Hge.
  - apply slice0_sort_sorted.
  - intros kv Hkv Hge.
    apply (slice0_sort_best PatentDetails.score 5 items
             {| PatentDetails.brefId := fst kv; PatentDetails.score := snd kv |}).
    rewrite Hitems. apply list_elem_of_fmap. exists kv. split; [done|].
    apply list_elem_of_In, filter_In. split; [by apply list_elem_of_In|done].
Qed.

Section Colours.
Import Js PatentRanking.

Lemma getColorByScore_reliable s :
  ge_threshold s = true →
  getColorByScore s = "#22c55e" ∨ getColorByScore s = "#84cc16".
Proof.
  intros Hge. unfold getColorByScore.
  destruct (Qle_bool (8 # 10) s); [by left|]. right.
  assert (H : Qle_bool (5404319552844595 # 9007199254740992) s = true);
    [|by rewrite H].
  apply Qle_bool_iff. apply Qle_bool_iff in Hge.
  eapply Qle_trans; [|exact Hge]. unfold RELIABILITY_THRESHOLD, Qle. simpl. lia.
Qed.

Lemma rankedPatents_reliable topPatents selectedBref M patentIndex maxPatents r :
  r ∈ rankedPatents topPatents selectedBref M patentIndex maxPatents →
  ge_threshold (relevanceScore r) = true.
Proof.
  unfold rankedPatents.
  destruct (length topPatents =? 0); [by intros ?%elem_of_nil|].
  destruct (brefBranch selectedBref M) as [brefId|].
  - destruct (getBrefRelevantPatentCount selectedBref M =? 0)%Z;
      [by intros ?%elem_of_nil|].
    intros Hr%slice0_sort_elem%uniquePatents_elem.
    pose proof (combinedPatents_reliable topPatents M patentIndex brefId) as H.
    rewrite Forall_forall in H. by apply H.
  - intros Hr%slice0_sort_elem. unfold pollutantPatents in Hr.
    by apply list_elem_of_filter in Hr as [Hr _].
Qed.
End Colours.

(** X10.  Every patent the ranking box lists is drawn in one of the two
    green shades: for each entry of [rankedPatents], [getColorByScore] of
    its [relevanceScore] is "#22c55e" or "#84cc16", never the yellow,
    orange or red of scores below 0.6. *)
Theorem rankedPatents_colours_green :
  ∀ topPatents selectedBref brefRelevanceScores patentIndex maxPatents,
    Forall (fun r =>
              PatentRanking.getColorByScore (PatentRanking.relevanceScore r)
                = "#22c55e" ∨
              PatentRanking.getColorByScore (PatentRanking.relevanceScore r)
                = "#84cc16")
      (PatentRanking.rankedPatents topPatents selectedBref brefRelevanceScores
         patentIndex maxPatents).
Proof.
  intros. apply Forall_forall. intros r Hr.
  apply getColorByScore_reliable. by eapply rankedPatents_reliable.
Qed.

(** ** More on the chat-context sets *)

Section ContextInvariant.
Context {A : Type} (key : A → string).

Lemma remove_absent k (l : list A) :
  existsb (fun x => String.eqb (key x) k) l = false →
  List.filter (fun x => negb (String.eqb (key x) k)) l = l.
Proof.
  induction l as [|x l IH]; simpl; [done|].
  destruct (String.eqb (key x) k); simpl; [done|].
  intros H. by rewrite IH.
Qed.

Lemma remove_gone k (l : list A) :
  existsb (fun x => String.eqb (key x) k)
          (List.filter (fun x => negb (String.eqb (key x) k)) l) = false.
Proof.
  induction l as [|x l IH]; simpl; [done|].
  destruct (String.eqb (key x) k) eqn:E; simpl; [done|]. by rewrite E.
Qed.

Lemma remove_keeps k k' (l : list A) :
  k' ≠ k →
  List.filter (fun x => String.eqb (key x) k')
              (List.filter (fun x => negb (String.eqb (key x) k)) l)
  = List.filter (fun x => String.eqb (key x) k') l.
Proof.
  intros Hne. induction l as [|x l IH]; simpl; [done|].
  destruct (String.eqb_spec (key x) k) as [Hk|Hk]; simpl.
  - rewrite IH. destruct (String.eqb_spec (key x) k'); [congruence|done].
  - by rewrite IH.
Qed.

Lemma remove_NoDup k (l : list A) :
  NoDup (map key l) →
  NoDup (map key (List.filter (fun x => negb (String.eqb (key x) k)) l)).
Proof.
  induction l as [|x l IH]; simpl; [done|].
  intros [Hx Hl]%NoDup_cons.
  destruct (String.eqb (key x) k); simpl; [by apply IH|].
  apply NoDup_cons. split; [|by apply IH].
  intros Hin. apply Hx.
  apply list_elem_of_fmap in Hin as (y & Hy & Hin).
  apply list_elem_of_fmap. exists y. split; [done|].
  apply list_elem_of_In, filter_In in Hin as [Hin _]. by apply list_elem_of_In.
Qed.

Lemma add_NoDup (x : A) (l : list A) :
  existsb (fun y => String.eqb (key y) (key x)) l = false →
  NoDup (map key l) → NoDup (map key (l ++ [x])).
Proof.
  intros Habs Hl. rewrite map_app. apply NoDup_app. split; [done|].
  split; [|apply NoDup_singleton].
  intros k Hk ->%list_elem_of_singleton.
  apply list_elem_of_fmap in Hk as (y & Hy & Hin).
  assert (existsb (fun y => String.eqb (key y) (key x)) l = true); [|congruence].
  apply existsb_exists. exists y. split; [by apply list_elem_of_In|].
  rewrite Hy. apply String.eqb_refl.
Qed.
End ContextInvariant.

(** X11.  Removing from a chat-context set: after [handleRemovePatent] or
    [handleRemoveBref] no entry with the removed id is left, the entries
    with any other id are kept as they were, in order, and removing an id
    that is not a member changes nothing. *)
Theorem context_remove :
  ∀ (Patent : Type) (patent_id : Patent → string) (patentId : string)
    (selected : list Patent) (brefId : string)
    (brefs : list Dashboard.brefInContext) (other : string),
    existsb (fun p => String.eqb (patent_id p) patentId)
            (Dashboard.handleRemovePatent patent_id patentId selected) = false ∧
    existsb (fun b => String.eqb (Dashboard.id b) brefId)
            (Dashboard.handleRemoveBref brefId brefs) = false ∧
    (existsb (fun p => String.eqb (patent_id p) patentId) selected = false →
     Dashboard.handleRemovePatent patent_id patentId selected = selected) ∧
    (existsb (fun b => String.eqb (Dashboard.id b) brefId) brefs = false →
     Dashboard.handleRemoveBref brefId brefs = brefs) ∧
    (other ≠ patentId →
     List.filter (fun p => String.eqb (patent_id p) other)
       (Dashboard.handleRemovePatent patent_id patentId selected)
     = List.filter (fun p => String.eqb (patent_id p) other) selected) ∧
    (other ≠ brefId →
     List.filter (fun b => String.eqb (Dashboard.id b) other)
       (Dashboard.handleRemoveBref brefId brefs)
     = List.filter (fun b => String.eqb (Dashboard.id b) other) brefs).
Proof.
  intros. unfold Dashboard.handleRemovePatent, Dashboard.handleRemoveBref.
  repeat split.
  - apply remove_gone.
  - apply (remove_gone Dashboard.id).
  - apply remove_absent.
  - apply (remove_absent Dashboard.id).
  - by apply remove_keeps.
  - by apply (remove_keeps Dashboard.id).
Qed.

Lemma context_remove_witness :
  Dashboard.handleRemovePatent (fun p : string => p) "P9" ["P0"; "P1"]
    = ["P0"; "P1"] ∧
  List.filter (fun p => String.eqb p "P0")
    (Dashboard.handleRemovePatent (fun p : string => p) "P1" ["P0"; "P1"])
  = ["P0"].
Proof.
  split.
  - apply (context_remove string (fun p => p) "P9" ["P0"; "P1"] "B" [] "P0").
    reflexivity.
  - apply (context_remove string (fun p => p) "P1" ["P0"; "P1"] "B" [] "P0").
    discriminate.
Defined.

(** X12.  The chat-context sets never hold an id twice: if the ids of a
    set are pairwise different, they still are after [handlePatentToggle],
    [handleRemovePatent], [handleAddBrefToContext] and
    [handleRemoveBref]. *)
Theorem context_ids_stay_unique :
  ∀ (Patent : Type) (patent_id : Patent → string) (patent : Patent)
    (patentId : string) (selected : list Patent)
    (b : Dashboard.bref) (brefText : Js.text) (brefId : string)
    (brefs : list Dashboard.brefInContext),
    NoDup (map patent_id selected) →
    NoDup (map Dashboard.id brefs) →
    NoDup (map patent_id
             (Dashboard.handlePatentToggle patent_id patent selected)) ∧
    NoDup (map patent_id
             (Dashboard.handleRemovePatent patent_id patentId selected)) ∧
    NoDup (map Dashboard.id
             (Dashboard.handleAddBrefToContext b brefText brefs)) ∧
    NoDup (map Dashboard.id (Dashboard.handleRemoveBref brefId brefs)).
Proof.
  intros Patent patent_id patent patentId selected b brefText brefId brefs
    Hsel Hbrefs.
  split; [|split; [|split]].
  - unfold Dashboard.handlePatentToggle.
    destruct (existsb _ selected) eqn:E.
    + by apply remove_NoDup.
    + by apply add_NoDup.
  - by apply remove_NoDup.
  - unfold Dashboard.handleAddBrefToContext.
    destruct (existsb _ brefs) eqn:E; [done|].
    by apply (add_NoDup Dashboard.id).
  - by apply (remove_NoDup Dashboard.id).
Qed.

Lemma context_ids_stay_unique_witness :
  NoDup (map (fun p : string => p)
           (Dashboard.handlePatentToggle (fun p : string => p) "P2"
              ["P0"; "P1"])).
Proof.
  apply (context_ids_stay_unique string (fun p => p) "P2" "P0" ["P0"; "P1"]
           ContextInputs.sectionB [] "B" []).
  - apply (bool_decide_unpack _). vm_compute. exact I.
  - constructor.
Defined.

(** X13.  Adding and taking out again: for a patent whose id is not in the
    context set, [handlePatentToggle] appends it, and a second toggle, or
    [handleRemovePatent] with its id, gives back the set as it was. *)
Theorem handlePatentToggle_round_trip :
  ∀ (Patent : Type) (patent_id : Patent → string) (patent : Patent)
    (selected : list Patent),
    existsb (fun p => String.eqb (patent_id p) (patent_id patent)) selected
      = false →
    Dashboard.handlePatentToggle patent_id patent selected
      = selected ++ [patent] ∧
    Dashboard.handlePatentToggle patent_id patent
      (Dashboard.handlePatentToggle patent_id patent selected) = selected ∧
    Dashboard.handleRemovePatent patent_id (patent_id patent)
      (Dashboard.handlePatentToggle patent_id patent selected) = selected.
Proof.
  intros Patent patent_id patent selected Habs.
  assert (Hadd : Dashboard.handlePatentToggle patent_id patent selected
                 = selected ++ [patent]).
  { unfold Dashboard.handlePatentToggle. by rewrite Habs. }
  assert (Hrem : List.filter
                   (fun p => negb (String.eqb (patent_id p) (patent_id patent)))
                   (selected ++ [patent]) = selected).
  { rewrite List.filter_app. simpl. rewrite String.eqb_refl. simpl.
    rewrite app_nil_r. by apply remove_absent. }
  split; [done|]. rewrite Hadd. split.
  - unfold Dashboard.handlePatentToggle.
    rewrite existsb_app. simpl. rewrite String.eqb_refl, orb_true_r. done.
  - done.
Qed.

Lemma handlePatentToggle_round_trip_witness :
  Dashboard.handlePatentToggle (fun p : string => p) "P2"
    (Dashboard.handlePatentToggle (fun p : string => p) "P2" ["P0"; "P1"])
  = ["P0"; "P1"].
Proof.
  apply (handlePatentToggle_round_trip string (fun p => p) "P2" ["P0"; "P1"]).
  reflexivity.
Defined.

(** ** More on the chat *)

Section Trim.
Import Js.

Lemma trimStart_app_solid l c :
  isWhiteSpace c = false → trimStart (l ++ [c]) ≠ [].
Proof.
  intros Hc. induction l as [|x l IH]; simpl.
  - by rewrite Hc.
  - by destruct (isWhiteSpace x).
Qed.

(** A text that starts with a character that is not white space is not
    blank. *)
Lemma trim_solid_head c rest : isWhiteSpace c = false → trim (c :: rest) ≠ [].
Proof.
  intros Hc. unfold trim. cbn [trimStart]. rewrite Hc. cbn [rev].
  intros H. apply (f_equal (@length N)) in H. rewrite length_rev in H.
  apply (trimStart_app_solid (rev rest) c Hc).
  by apply length_zero_iff_nil.
Qed.
End Trim.

Section Send.
Import Js Chat.
Context {Patent Bref : Type}.
Variable selectedPatents : list Patent.
Variable selectedBrefs : list Bref.
Variable createSystemPrompt : list Patent → list Bref → text.
Variable callOpenAI : request → text + text.

Local Notation "'send'" :=
  (handleSendMessage selectedPatents selectedBrefs createSystemPrompt callOpenAI).

Lemma handleSendMessage_accepted st message :
  trim message ≠ [] ∨ isLoading st = true →
  selectedPatents ≠ [] ∨ selectedBrefs ≠ [] →
  send st message
  = callChatAPI callOpenAI st message
      (createSystemPrompt selectedPatents selectedBrefs)
      {| messages := messages st ++
                     [{| msg_sender := user; msg_text := message |}];
         inputMessage := [];
         isLoading := isLoading st;
         error := error st |}.
Proof.
  intros Hmsg Hctx. unfold handleSendMessage.
  assert (Hguard : negb (truthy_text (trim message)) && negb (isLoading st)
                   = false).
  { destruct Hmsg as [H|H].
    - destruct (trim message); [done|reflexivity].
    - rewrite H. by rewrite andb_false_r. }
  rewrite Hguard.
  assert (Hempty : (length selectedPatents =? 0) && (length selectedBrefs =? 0)
                   = false).
  { destruct Hctx as [H|H].
    - by destruct selectedPatents.
    - destruct selectedBrefs; [done|]. by rewrite andb_false_r. }
  by rewrite Hempty.
Qed.

Lemma filter_not_system (l : list message) :
  Forall (fun m => msg_sender m ≠ system)
         (List.filter (fun m => negb (isSystem m)) l).
Proof.
  apply Forall_forall. intros m Hm.
  apply list_elem_of_In, filter_In in Hm as [_ Hm].
  unfold isSystem in Hm. by destruct (msg_sender m).
Qed.
End Send.

(** X14.  A send that is accepted (the message is not blank, or a request
    is in flight, and one of the context sets is not empty) makes exactly
    one request to the collaborator.  The request carries the message, the
    system prompt of the current context and, as history, the messages of
    the transcript before the send that are not system messages.  The
    transcript gains exactly two messages, the user message and then the
    assistant's reply or, when the call fails, a system message; the input
    is cleared, the busy flag is off, and the error is set exactly when the
    call failed. *)
Theorem handleSendMessage_one_request :
  ∀ (Patent Bref : Type) (selectedPatents : list Patent)
    (selectedBrefs : list Bref)
    (createSystemPrompt : list Patent → list Bref → Js.text)
    (callOpenAI : Chat.request → Js.text + Js.text) (st : Chat.state)
    (message : Js.text),
    Js.trim message ≠ [] ∨ Chat.isLoading st = true →
    selectedPatents ≠ [] ∨ selectedBrefs ≠ [] →
    let result :=
      Chat.handleSendMessage selectedPatents selectedBrefs createSystemPrompt
        callOpenAI st message in
    let req :=
      {| Chat.userMessage := message;
         Chat.systemPrompt := createSystemPrompt selectedPatents selectedBrefs;
         Chat.chatHistory :=
           List.filter (fun m => negb (Chat.isSystem m)) (Chat.messages st) |} in
    snd result = [req] ∧
    Forall (fun m => Chat.msg_sender m ≠ Chat.system) (Chat.chatHistory req) ∧
    (∃ reply,
        Chat.messages (fst result)
          = Chat.messages st ++
            [{| Chat.msg_sender := Chat.user; Chat.msg_text := message |}; reply] ∧
        match callOpenAI req with
        | inl response =>
            reply = {| Chat.msg_sender := Chat.assistant;
                       Chat.msg_text := response |} ∧
            Chat.error (fst result) = None
        | inr _ =>
            Chat.msg_sender reply = Chat.system ∧
            is_Some (Chat.error (fst result))
        end) ∧
    Chat.inputMessage (fst result) = [] ∧
    Chat.isLoading (fst result) = false.
Proof.
  intros Patent Bref selectedPatents selectedBrefs createSystemPrompt callOpenAI
    st message Hmsg Hctx result req.
  subst result. rewrite handleSendMessage_accepted by done.
  unfold Chat.callChatAPI. fold req.
  destruct (callOpenAI req) as [response|err] eqn:E; cbn [fst snd].
  - repeat split; [apply filter_not_system|]. eexists. cbn.
    rewrite <- app_assoc. done.
  - repeat split; [apply filter_not_system|]. eexists. cbn.
    rewrite <- app_assoc. done.
Qed.

Lemma handleSendMessage_one_request_witness :
  snd (Chat.handleSendMessage ["P1"] (@nil string) (fun _ _ => [])
         (fun _ => inl (Js.text_of "ok")) ContextInputs.chat0
         (Js.text_of "hello"))
  = [ {| Chat.userMessage := Js.text_of "hello";
         Chat.systemPrompt := [];
         Chat.chatHistory :=
           List.filter (fun m => negb (Chat.isSystem m))
             (Chat.messages ContextInputs.chat0) |} ].
Proof.
  apply (handleSendMessage_one_request string string ["P1"] [] (fun _ _ => [])
           (fun _ => inl (Js.text_of "ok")) ContextInputs.chat0
           (Js.text_of "hello")).
  - left. vm_compute. discriminate.
  - left. discriminate.
Defined.

Section Buttons.
Import Js Chat.
Context {Patent Bref : Type}.
Variable selectedPatents : list Patent.
Variable selectedBrefs : list Bref.
Variable createSystemPrompt : list Patent → list Bref → text.
Variable callOpenAI : request → text + text.
Variable selectedPollutant : text.

Lemma prompts_not_blank :
  trim (PromptTemplates.createBrefPollutantConnectionPrompt selectedPollutant)
    ≠ [] ∧
  trim PromptTemplates.createBrefPatentConnectionPrompt ≠ [] ∧
  trim (PromptTemplates.createPatentPollutantConnectionPrompt selectedPollutant)
    ≠ [] ∧
  trim (PromptTemplates.createSDGReportPrompt selectedPollutant) ≠ [].
Proof.
  repeat split; by apply trim_solid_head.
Qed.

(** What an accepted prompt leaves behind: one request, carrying the
    prompt, and the prompt as a user message followed by one reply. *)
Lemma sendPrompt_accepted st message :
  trim message ≠ [] →
  selectedPatents ≠ [] ∨ selectedBrefs ≠ [] →
  let result :=
    sendPrompt selectedPatents selectedBrefs createSystemPrompt callOpenAI
      st message in
  (∃ req, snd result = [req] ∧ userMessage req = message) ∧
  ∃ reply,
    messages (fst result)
    = messages st ++ [{| msg_sender := user; msg_text := message |}; reply] ∧
    msg_sender reply ≠ user.
Proof.
  intros Hmsg Hctx result. subst result. unfold sendPrompt.
  rewrite handleSendMessage_accepted by auto.
  unfold callChatAPI. cbn [messages].
  destruct (callOpenAI _); cbn [fst snd messages].
  - split; [by eexists|]. eexists. rewrite <- app_assoc. by split.
  - split; [by eexists|]. eexists. rewrite <- app_assoc. by split.
Qed.
End Buttons.

(** X15.  Each of the three guarded prompt buttons either refuses or sends.
    When the context it needs is missing (no BREF section; no BREF section
    or no patent; no patent) it appends one system message and makes no
    request.  Otherwise it makes exactly one request, carrying its prompt,
    and the transcript gains the prompt as a user message followed by one
    reply: a guarded button never ends in the empty-context warning of
    [handleSendMessage]. *)
Theorem prompt_buttons_refuse_or_send :
  ∀ (Patent Bref : Type) (selectedPatents : list Patent)
    (selectedBrefs : list Bref)
    (createSystemPrompt : list Patent → list Bref → Js.text)
    (callOpenAI : Chat.request → Js.text + Js.text)
    (selectedPollutant : Js.text) (st : Chat.state),
    let sent (result : Chat.state * list Chat.request) (prompt : Js.text) :=
      (∃ req, snd result = [req] ∧ Chat.userMessage req = prompt) ∧
      ∃ reply,
        Chat.messages (fst result)
        = Chat.messages st ++
          [{| Chat.msg_sender := Chat.user; Chat.msg_text := prompt |}; reply] ∧
        Chat.msg_sender reply ≠ Chat.user in
    let refused (result : Chat.state * list Chat.request) :=
      snd result = [] ∧
      ∃ warning,
        fst result
        = Chat.warn st warning in
    (if Nat.eqb (length selectedBrefs) 0
     then refused (Chat.handleBrefPollutantConnection selectedPatents
                     selectedBrefs createSystemPrompt callOpenAI
                     selectedPollutant st)
     else sent (Chat.handleBrefPollutantConnection selectedPatents
                  selectedBrefs createSystemPrompt callOpenAI
                  selectedPollutant st)
               (PromptTemplates.createBrefPollutantConnectionPrompt
                  selectedPollutant)) ∧
    (if Nat.eqb (length selectedBrefs) 0 || Nat.eqb (length selectedPatents) 0
     then refused (Chat.handleBrefPatentConnection selectedPatents
                     selectedBrefs createSystemPrompt callOpenAI st)
     else sent (Chat.handleBrefPatentConnection selectedPatents
                  selectedBrefs createSystemPrompt callOpenAI st)
               PromptTemplates.createBrefPatentConnectionPrompt) ∧
    (if Nat.eqb (length selectedPatents) 0
     then refused (Chat.handlePatentPollutantConnection selectedPatents
                     selectedBrefs createSystemPrompt callOpenAI
                     selectedPollutant st)
     else sent (Chat.handlePatentPollutantConnection selectedPatents
                  selectedBrefs createSystemPrompt callOpenAI
                  selectedPollutant st)
               (PromptTemplates.createPatentPollutantConnectionPrompt
                  selectedPollutant)).
Proof.
  intros Patent Bref selectedPatents selectedBrefs createSystemPrompt callOpenAI
    selectedPollutant st sent refused.
  destruct (prompts_not_blank selectedPollutant) as (H1 & H2 & H3 & _).
  unfold Chat.handleBrefPollutantConnection, Chat.handleBrefPatentConnection,
    Chat.handlePatentPollutantConnection.
  split; [|split].
  - destruct (length selectedBrefs =? 0) eqn:E.
    + split; [done|]. by eexists.
    + apply sendPrompt_accepted; [done|]. right. by destruct selectedBrefs.
  - destruct ((length selectedBrefs =? 0) || (length selectedPatents =? 0)) eqn:E.
    + split; [done|]. by eexists.
    + apply sendPrompt_accepted; [done|]. left.
      apply orb_false_iff in E as [_ E]. by destruct selectedPatents.
  - destruct (length selectedPatents =? 0) eqn:E.
    + split; [done|]. by eexists.
    + apply sendPrompt_accepted; [done|]. left. by destruct selectedPatents.
Qed.

(** X16.  The SDG-report button has no guard of its own: with both context
    sets empty it ends in the empty-context warning of [handleSendMessage],
    makes no request, and leaves its prompt in the input box; with a
    non-empty context it makes exactly one request carrying its prompt. *)
Theorem handleSDGReport_unguarded :
  ∀ (Patent Bref : Type) (selectedPatents : list Patent)
    (selectedBrefs : list Bref)
    (createSystemPrompt : list Patent → list Bref → Js.text)
    (callOpenAI : Chat.request → Js.text + Js.text)
    (selectedPollutant : Js.text) (st : Chat.state),
    Chat.handleSDGReport [] [] createSystemPrompt callOpenAI selectedPollutant st
    = ({| Chat.messages :=
            Chat.messages st ++
            [{| Chat.msg_sender := Chat.system;
                Chat.msg_text := ContextInputs.selectSomethingFirst |}];
          Chat.inputMessage :=
            PromptTemplates.createSDGReportPrompt selectedPollutant;
          Chat.isLoading := Chat.isLoading st;
          Chat.error := Chat.error st |}, []) ∧
    (selectedPatents ≠ [] ∨ selectedBrefs ≠ [] →
     ∃ req,
       snd (Chat.handleSDGReport selectedPatents selectedBrefs
              createSystemPrompt callOpenAI selectedPollutant st) = [req] ∧
       Chat.userMessage req
         = PromptTemplates.createSDGReportPrompt selectedPollutant).
Proof.
  intros Patent Bref selectedPatents selectedBrefs createSystemPrompt callOpenAI
    selectedPollutant st.
  destruct (prompts_not_blank selectedPollutant) as (_ & _ & _ & H4).
  split.
  - unfold Chat.handleSDGReport, Chat.sendPrompt, Chat.handleSendMessage.
    cbn [Chat.isLoading Chat.messages Chat.inputMessage Chat.error].
    destruct (Js.trim (PromptTemplates.createSDGReportPrompt selectedPollutant));
      [done|reflexivity].
  - intros Hctx. unfold Chat.handleSDGReport.
    by destruct (sendPrompt_accepted selectedPatents selectedBrefs
                   createSystemPrompt callOpenAI st _ H4 Hctx) as [Hreq _].
Qed.

Lemma handleSDGReport_unguarded_witness :
  ∃ req,
    snd (Chat.handleSDGReport ["P1"] (@nil string) (fun _ _ => [])
           (fun _ => inl []) (Js.text_of "NOx") ContextInputs.chat0) = [req] ∧
    Chat.userMessage req
      = PromptTemplates.createSDGReportPrompt (Js.text_of "NOx").
Proof.
  apply (handleSDGReport_unguarded string string ["P1"] [] (fun _ _ => [])
           (fun _ => inl []) (Js.text_of "NOx") ContextInputs.chat0).
  left. discriminate.
Defined.

(** X17.  The content of a BREF section enters the system prompt with at
    most 503 code units: a text of at most 500 is taken whole, a longer one
    is cut to its first 500 code units followed by three dots; either way
    the first 500 code units are those of the text. *)
Theorem truncatedText_bounds :
  ∀ brefText : Js.text,
    length (PromptTemplates.truncatedText brefText) ≤ 503 ∧
    firstn 500 (PromptTemplates.truncatedText brefText) = firstn 500 brefText ∧
    PromptTemplates.truncatedText brefText
      = if Nat.leb (length brefText) 500 then brefText
        else firstn 500 brefText ++ Js.text_of "...".
Proof.
  intros brefText. unfold PromptTemplates.truncatedText. cbv zeta.
  destruct (Nat.ltb_spec 500 (length brefText)) as [Hlong|Hshort].
  - rewrite (proj2 (Nat.leb_gt _ _)) by done. split; [|split; [|done]].
    + rewrite length_app, length_take.
      change (length (Js.text_of "...")) with 3. lia.
    + rewrite take_app_le by (rewrite length_take; lia).
      by rewrite take_take.
  - rewrite (proj2 (Nat.leb_le _ _)) by done. split; [lia|done].
Qed.

(** ** The chat service and the completion routes *)

Section Transport.
Import Js.

Lemma join_singleton (sep t : text) : Server.join sep [t] = t.
Proof. reflexivity. Qed.

Lemma toMessage_textItem role t :
  Server.toMessage (ChatApiService.textItem role t)
  = {| Server.role := role; Server.content := t |}.
Proof. reflexivity. Qed.

Lemma toMessage_formatMessage msg :
  Server.toMessage (ChatApiService.formatMessage msg)
  = {| Server.role := if ChatApiService.isUser msg then "user"
                      else "assistant";
       Server.content := Chat.msg_text msg |}.
Proof. reflexivity. Qed.

Lemma input_buildRequestBody userMessage systemPrompt chatHistory :
  ChatApiService.input
    (ChatApiService.buildRequestBody userMessage systemPrompt chatHistory)
  = ChatApiService.textItem "system" systemPrompt
    :: map ChatApiService.formatMessage chatHistory
    ++ [ChatApiService.textItem "user" userMessage].
Proof. by destruct chatHistory. Qed.

Lemma orElse_truthy x y : y ≠ [] → ChatApiService.orElse x y ≠ [].
Proof.
  intros Hy. unfold ChatApiService.orElse.
  destruct x as [[|c t]|]; done.
Qed.

Lemma numberOr_nonzero x dflt :
  ¬ (dflt == 0)%Q → ¬ (Server.numberOr x dflt == 0)%Q.
Proof.
  intros Hd. unfold Server.numberOr, truthy_num.
  destruct x as [q|]; [|done].
  destruct (Qeq_bool q 0) eqn:E; cbn [negb]; [done|].
  intros H. apply Qeq_bool_iff in H. congruence.
Qed.
End Transport.

(** X18.  What the completion service receives for a call of [callOpenAI]
    answered by the route of server-render.js: nothing when the server has
    no API key; otherwise one request, for the model gpt-4o, whose messages
    are the system prompt with role system, then the history in order, a
    message of the user with role user and every other one with role
    assistant, each with its text unchanged, and last the new message with
    role user. *)
Theorem route_receives_callOpenAI_messages :
  ∀ (apiKey : option string) (axios_post : Server.openaiRequest → Server.upstream)
    (userMessage systemPrompt : Js.text) (chatHistory : list Chat.message),
    snd (Server.route apiKey axios_post
           (Server.received
              (ChatApiService.buildRequestBody userMessage systemPrompt
                 chatHistory)))
    = match Js.truthy_str apiKey with
      | None => []
      | Some _ =>
          [ {| Server.model := "gpt-4o";
               Server.messages :=
                 {| Server.role := "system"; Server.content := systemPrompt |}
                 :: map (fun msg =>
                           {| Server.role :=
                                match Chat.msg_sender msg with
                                | Chat.user => "user"
                                | _ => "assistant"
                                end;
                              Server.content := Chat.msg_text msg |})
                        chatHistory
                 ++ [ {| Server.role := "user";
                         Server.content := userMessage |} ];
               Server.temperature := 7 # 10;
               Server.max_tokens := 2048;
               Server.top_p := 1 |} ]
      end.
Proof.
  intros apiKey axios_post userMessage systemPrompt chatHistory.
  unfold Server.route. destruct (Js.truthy_str apiKey) as [k|]; [|done].
  cbn [Server.received Server.body_input Server.body_model
       Server.body_temperature Server.body_max_output_tokens
       Server.body_top_p].
  rewrite input_buildRequestBody.
  cbn [map]. rewrite map_app, map_map. cbn [map].
  rewrite !toMessage_textItem.
  assert (Hmap : map (fun x => Server.toMessage (ChatApiService.formatMessage x))
                   chatHistory
                 = map (fun msg =>
                          {| Server.role :=
                               match Chat.msg_sender msg with
                               | Chat.user => "user"
                               | _ => "assistant"
                               end;
                             Server.content := Chat.msg_text msg |})
                       chatHistory).
  { apply map_ext. intros msg. rewrite toMessage_formatMessage.
    unfold ChatApiService.isUser. by destruct (Chat.msg_sender msg). }
  rewrite Hmap.
  match goal with
  | |- context [axios_post ?r] => destruct (axios_post r)
  end; reflexivity.
Qed.

(** X19.  [callOpenAI] answered by the route of server-render.js, for a
    server with an API key whose completion request succeeds: the call
    resolves to the content of the completion or, when the completion has
    none, to the server's "No response received"; it never resolves to the
    empty text. *)
Theorem callOpenAI_resolves_to_completion :
  ∀ (apiKey : option string) (key : string)
    (axios_post : Server.openaiRequest → Server.upstream)
    (req : Chat.request) (content : option Js.text),
    Js.truthy_str apiKey = Some key →
    (∀ r, axios_post r = Server.completion content) →
    let result :=
      ChatApiService.callOpenAI (Server.fetch apiKey axios_post) req in
    result = inl (match content with
                  | Some (c :: t) => c :: t
                  | _ => Js.text_of "No response received"
                  end) ∧
    result ≠ inl [].
Proof.
  intros apiKey key axios_post req content Hkey Hpost result.
  assert (E : result = inl (match content with
                            | Some (c :: t) => c :: t
                            | _ => Js.text_of "No response received"
                            end)).
  { subst result. unfold ChatApiService.callOpenAI, Server.fetch, Server.route.
    rewrite Hkey. cbn [Server.received Server.body_input].
    rewrite Hpost. cbn [fst Server.status ChatApiService.ok
                        ChatApiService.status].
    change ((200 <=? 200) && (200 <=? 299)) with true. cbn [negb].
    unfold ChatApiService.assistantResponse.
    cbn [ChatApiService.data_text ChatApiService.data_response_text
         Server.text_field].
    destruct content as [[|c t]|]; reflexivity. }
  split; [exact E|]. rewrite E.
  destruct content as [[|c t]|]; discriminate.
Qed.

Lemma callOpenAI_resolves_to_completion_witness :
  ChatApiService.callOpenAI
    (Server.fetch (Some "sk") (fun _ => Server.completion (Some (Js.text_of "ok"))))
    {| Chat.userMessage := Js.text_of "hello";
       Chat.systemPrompt := [];
       Chat.chatHistory := [] |}
  = inl (Js.text_of "ok").
Proof.
  apply (callOpenAI_resolves_to_completion (Some "sk") "sk"
           (fun _ => Server.completion (Some (Js.text_of "ok")))
           {| Chat.userMessage := Js.text_of "hello";
              Chat.systemPrompt := [];
              Chat.chatHistory := [] |}
           (Some (Js.text_of "ok"))); reflexivity.
Defined.

Section Failure.
Import Js.

Lemma callOpenAI_status_500 apiKey axios_post req :
  truthy_str apiKey = None ∨ (∀ r, axios_post r = Server.failure None) →
  ChatApiService.callOpenAI (Server.fetch apiKey axios_post) req
  = inr (text_of "API request failed with status 500").
Proof.
  intros H. unfold ChatApiService.callOpenAI, Server.fetch, Server.route.
  destruct (truthy_str apiKey) as [k|] eqn:Hkey.
  - destruct H as [H|H]; [done|].
    cbn [Server.received Server.body_input]. rewrite H. reflexivity.
  - reflexivity.
Qed.
End Failure.

(** X20.  A send that is accepted, with [callOpenAI] answered by the route
    of server-render.js, when the server has no API key or its completion
    request fails without a response: the route answers 500, the call is
    rejected, and the transcript gains the user message followed by a system
    message that names the status; the error of the component is set and
    the busy flag is off. *)
Theorem handleSendMessage_reports_status_500 :
  ∀ (Patent Bref : Type) (selectedPatents : list Patent)
    (selectedBrefs : list Bref)
    (createSystemPrompt : list Patent → list Bref → Js.text)
    (apiKey : option string)
    (axios_post : Server.openaiRequest → Server.upstream)
    (st : Chat.state) (message : Js.text),
    Js.trim message ≠ [] ∨ Chat.isLoading st = true →
    selectedPatents ≠ [] ∨ selectedBrefs ≠ [] →
    Js.truthy_str apiKey = None ∨ (∀ r, axios_post r = Server.failure None) →
    let result :=
      Chat.handleSendMessage selectedPatents selectedBrefs createSystemPrompt
        (ChatApiService.callOpenAI (Server.fetch apiKey axios_post))
        st message in
    Chat.messages (fst result)
    = Chat.messages st ++
      [ {| Chat.msg_sender := Chat.user; Chat.msg_text := message |};
        {| Chat.msg_sender := Chat.system;
           Chat.msg_text :=
             Js.text_of
               "Error: Unable to process your request. API request failed with status 500" |} ] ∧
    Chat.error (fst result)
    = Some (Js.text_of
              "Failed to get response: API request failed with status 500") ∧
    Chat.isLoading (fst result) = false.
Proof.
  intros Patent Bref selectedPatents selectedBrefs createSystemPrompt apiKey
    axios_post st message Hmsg Hctx Hfail result.
  subst result. rewrite handleSendMessage_accepted by done.
  unfold Chat.callChatAPI. rewrite callOpenAI_status_500 by done.
  cbn [fst Chat.messages Chat.error Chat.isLoading].
  rewrite <- app_assoc. done.
Qed.

Lemma handleSendMessage_reports_status_500_witness :
  Chat.error
    (fst (Chat.handleSendMessage ["P1"] (@nil string) (fun _ _ => [])
            (ChatApiService.callOpenAI
               (Server.fetch None (fun _ => Server.failure None)))
            ContextInputs.chat0 (Js.text_of "hello")))
  = Some (Js.text_of
            "Failed to get response: API request failed with status 500").
Proof.
  apply (handleSendMessage_reports_status_500 string string ["P1"] []
           (fun _ _ => []) None (fun _ => Server.failure None)
           ContextInputs.chat0 (Js.text_of "hello"));
    [by left | by left | by left].
Defined.

Section HandlerFacts.
Import Js.
Context {Input TextFormat Reasoning Tools Response : Type}.
Variable defaultText : TextFormat.
Variable defaultReasoning : Reasoning.
Variable defaultTools : Tools.

Lemma orTrue_true x : ApiOpenai.orTrue x = true.
Proof. destruct x as [[|]|]; reflexivity. Qed.

Lemma truthy_str_nonempty s s' : truthy_str s = Some s' → s' ≠ "".
Proof.
  unfold truthy_str. destruct s as [x|]; [|done].
  destruct (String.eqb x "") eqn:E; [done|].
  intros [= <-]. by apply String.eqb_neq.
Qed.
End HandlerFacts.

(** X21.  The handler of api/openai.js answers with one of the statuses
    200, 400, 401, 405, 429 and 500.  It answers 405 exactly when the method
    is not POST, and 200 exactly when it passes a response back.  It calls
    the client library at most once, and only for a POST, with an API key in
    the environment and both [input] and a non-empty [model] in the body;
    for such a request it does call it. *)
Theorem handler_statuses_and_calls :
  ∀ (Input TextFormat Reasoning Tools Response : Type)
    (defaultText : TextFormat) (defaultReasoning : Reasoning)
    (defaultTools : Tools) (OPENAI_API_KEY : option string)
    (create : ApiOpenai.params → Response + option nat) (method : string)
    (requestBody : @ApiOpenai.body Input TextFormat Reasoning Tools),
    let result :=
      ApiOpenai.handler defaultText defaultReasoning defaultTools
        OPENAI_API_KEY create method requestBody in
    let status := fst (fst result) in
    let calls := snd result in
    status ∈ [200; 400; 401; 405; 429; 500] ∧
    (status = 405 ↔ method ≠ "POST") ∧
    (status = 200 ↔ is_Some (snd (fst result))) ∧
    length calls ≤ 1 ∧
    (calls ≠ [] ↔
       method = "POST" ∧ is_Some (Js.truthy_str OPENAI_API_KEY) ∧
       is_Some (ApiOpenai.body_input requestBody) ∧
       is_Some (Js.truthy_str (ApiOpenai.body_model requestBody))).
Proof.
  intros Input TextFormat Reasoning Tools Response defaultText defaultReasoning
    defaultTools OPENAI_API_KEY create method requestBody result status calls.
  subst status calls result. unfold ApiOpenai.handler.
  destruct (String.eqb method "POST") eqn:Em; cbn [negb].
  - apply String.eqb_eq in Em.
    destruct (Js.truthy_str OPENAI_API_KEY) as [k|]; cbn [fst snd].
    + destruct (ApiOpenai.body_input requestBody) as [i|];
        [destruct (Js.truthy_str (ApiOpenai.body_model requestBody)) as [m|]|];
        cbn [fst snd].
      * destruct (create _) as [r|e]; cbn [fst snd];
          [|repeat case_bool_decide; cbn [fst snd]];
          (split; [set_solver|]);
          (split; [split; [discriminate|congruence]|]);
          (split; [split; [try discriminate; eauto
                          |try (intros [? [=]]); done]|]);
          (split; [cbn; lia|]);
          (split; [intros _; repeat split; eauto|discriminate]).
      * split; [set_solver|]. split; [split; [discriminate|congruence]|].
        split; [split; [discriminate|intros [? [=]]]|].
        split; [cbn; lia|]. split; [done|].
        intros (_ & _ & _ & [? [=]]).
      * split; [set_solver|]. split; [split; [discriminate|congruence]|].
        split; [split; [discriminate|intros [? [=]]]|].
        split; [cbn; lia|]. split; [done|].
        intros (_ & _ & [? [=]] & _).
    + split; [set_solver|]. split; [split; [discriminate|congruence]|].
      split; [split; [discriminate|intros [? [=]]]|].
      split; [cbn; lia|]. split; [done|].
      intros (_ & [? [=]] & _).
  - apply String.eqb_neq in Em. cbn [fst snd].
    split; [set_solver|]. split; [done|].
    split; [split; [discriminate|intros [? [=]]]|].
    split; [cbn; lia|]. split; [done|]. intros [? _]. done.
Qed.

(** X22.  What the two completion routes pass on.  Every call that the
    handler of api/openai.js makes has [store] true, whatever the body says,
    and a temperature, a token limit and a [top_p] that are not zero: a
    zero in the body is replaced by the default (0.7, 2048, 1); its model is
    not the empty string.  The same holds for the temperature, the token
    limit, [top_p] and the model of every request made by the route of
    server-render.js. *)
Theorem routes_never_forward_zero_or_store_false :
  ∀ (Input TextFormat Reasoning Tools Response : Type)
    (defaultText : TextFormat) (defaultReasoning : Reasoning)
    (defaultTools : Tools) (OPENAI_API_KEY : option string)
    (create : ApiOpenai.params → Response + option nat) (method : string)
    (requestBody : @ApiOpenai.body Input TextFormat Reasoning Tools)
    (axios_post : Server.openaiRequest → Server.upstream) (b : Server.body),
    Forall (fun p =>
              ApiOpenai.store p = true ∧
              ¬ (ApiOpenai.temperature p == 0)%Q ∧
              ¬ (ApiOpenai.max_output_tokens p == 0)%Q ∧
              ¬ (ApiOpenai.top_p p == 0)%Q ∧
              ApiOpenai.model p ≠ "")
           (snd (ApiOpenai.handler defaultText defaultReasoning defaultTools
                   OPENAI_API_KEY create method requestBody)) ∧
    Forall (fun r =>
              ¬ (Server.temperature r == 0)%Q ∧
              ¬ (Server.max_tokens r == 0)%Q ∧
              ¬ (Server.top_p r == 0)%Q ∧
              Server.model r ≠ "")
           (snd (Server.route OPENAI_API_KEY axios_post b)).
Proof.
  intros Input TextFormat Reasoning Tools Response defaultText defaultReasoning
    defaultTools OPENAI_API_KEY create method requestBody axios_post b.
  split.
  - assert (Hp : ∀ m i,
               Js.truthy_str (ApiOpenai.body_model requestBody) = Some m →
               let p := ApiOpenai.createParams defaultText defaultReasoning
                          defaultTools requestBody m i in
               ApiOpenai.store p = true ∧
               ¬ (ApiOpenai.temperature p == 0)%Q ∧
               ¬ (ApiOpenai.max_output_tokens p == 0)%Q ∧
               ¬ (ApiOpenai.top_p p == 0)%Q ∧
               ApiOpenai.model p ≠ "").
    { intros m i Hm p. subst p. cbn.
      split; [apply orTrue_true|].
      repeat split; try (apply numberOr_nonzero; discriminate).
      by apply truthy_str_nonempty in Hm. }
    unfold ApiOpenai.handler.
    destruct (String.eqb method "POST"); cbn [negb]; [|by constructor].
    destruct (Js.truthy_str OPENAI_API_KEY) as [k|]; [|by constructor].
    destruct (ApiOpenai.body_input requestBody) as [i|]; [|by constructor].
    destruct (Js.truthy_str (ApiOpenai.body_model requestBody)) as [m|] eqn:Hm;
      [|by constructor].
    specialize (Hp m i eq_refl).
    destruct (create _) as [r|e]; [|repeat case_bool_decide]; cbn [snd];
      (constructor; [exact Hp|constructor]).
  - unfold Server.route.
    destruct (Js.truthy_str OPENAI_API_KEY) as [k|]; [|by constructor].
    destruct (Server.body_input b) as [i|]; [|by constructor].
    match goal with
    | |- context [axios_post ?r] =>
        assert (Hr : ¬ (Server.temperature r == 0)%Q ∧
                     ¬ (Server.max_tokens r == 0)%Q ∧
                     ¬ (Server.top_p r == 0)%Q ∧
                     Server.model r ≠ "");
        [|destruct (axios_post r); cbn [snd];
          (constructor; [exact Hr|constructor])]
    end.
    cbn. repeat split; try (apply numberOr_nonzero; discriminate).
    destruct (Js.truthy_str (Server.body_model b)) as [m|] eqn:Hm; [|done].
    by apply truthy_str_nonempty in Hm.
Qed.

(** ** The client-side cache *)

Section CacheFacts.
Import DataLoader.
Context {A : Type}.

Lemma isCacheValid_data (item : @cacheItem A) now :
  isCacheValid item now = true → is_Some (data item).
Proof. unfold isCacheValid. destruct (data item); [eauto|done]. Qed.

Lemma isCacheValid_updateCache (v : A) (t now : Z) :
  isCacheValid (updateCache (Some v) t) now
  = (now - t <? CACHE_EXPIRATION)%Z.
Proof. reflexivity. Qed.

Lemma loadDashboardSummary_miss (minimal : A) item checkedAt value updatedAt :
  isCacheValid item checkedAt = false →
  loadDashboardSummary minimal item checkedAt (Some value) updatedAt
  = (value, updateCache value updatedAt, fetched).
Proof. intros H. unfold loadDashboardSummary. by rewrite H. Qed.

Lemma coherent_valid (cache : @brefCache A) now :
  Loaded.coherent cache →
  isCacheValid (brefHierarchy cache) now = true →
  isCacheValid (brefFlatMap cache) now = true.
Proof.
  intros [[Hh Hf]|(Hh & [f Hf] & Hle)]; unfold isCacheValid.
  - by rewrite Hh.
  - destruct Hh as [h Hh]. rewrite Hh, Hf.
    intros H. apply Z.ltb_lt in H. apply Z.ltb_lt. lia.
Qed.

Lemma coherent_storeBoth (emptyObject : A) file (t1 t2 : Z) :
  (t1 ≤ t2)%Z → Loaded.coherent (storeBoth emptyObject file t1 t2).
Proof. intros H. right. cbn. eauto. Qed.
End CacheFacts.

(** X23.  A load that finds no valid entry and fetches a value stores it
    with the time of the update, and every load checked less than five
    minutes after that time returns the stored value from the cache, without
    a fetch and without touching the entry, whatever a fetch would have
    given. *)
Theorem loadDashboardSummary_hits_for_five_minutes :
  ∀ (A : Type) (minimal : A) (item : DataLoader.cacheItem) (checkedAt : Z)
    (value : A) (updatedAt : Z) (later : Z) (response : option (option A))
    (updatedLater : Z),
    DataLoader.isCacheValid item checkedAt = false →
    (later - updatedAt < 5 * 60 * 1000)%Z →
    let first :=
      DataLoader.loadDashboardSummary minimal item checkedAt
        (Some (Some value)) updatedAt in
    let stored := snd (fst first) in
    first = (Some value,
             {| DataLoader.data := Some value;
                DataLoader.timestamp := updatedAt |},
             DataLoader.fetched) ∧
    DataLoader.loadDashboardSummary minimal stored later response updatedLater
    = (Some value, stored, DataLoader.fromCache).
Proof.
  intros A minimal item checkedAt value updatedAt later response updatedLater
    Hmiss Hfresh first stored.
  subst stored first. rewrite loadDashboardSummary_miss by done.
  cbn [fst snd]. split; [reflexivity|].
  unfold DataLoader.loadDashboardSummary.
  rewrite isCacheValid_updateCache.
  assert (H : (later - updatedAt <? DataLoader.CACHE_EXPIRATION)%Z = true).
  { apply Z.ltb_lt. unfold DataLoader.CACHE_EXPIRATION. lia. }
  by rewrite H.
Qed.

Lemma loadDashboardSummary_hits_for_five_minutes_witness :
  DataLoader.loadDashboardSummary 0%nat
    (snd (fst (DataLoader.loadDashboardSummary 0%nat DataLoader.emptyItem
                 1000%Z (Some (Some 7%nat)) 1200%Z)))
    301199%Z None 301200%Z
  = (Some 7%nat,
     snd (fst (DataLoader.loadDashboardSummary 0%nat DataLoader.emptyItem
                 1000%Z (Some (Some 7%nat)) 1200%Z)),
     DataLoader.fromCache).
Proof.
  apply (loadDashboardSummary_hits_for_five_minutes nat 0%nat
           DataLoader.emptyItem 1000%Z 7%nat 1200%Z 301199%Z None 301200%Z);
    [reflexivity | lia].
Defined.

(** X24.  A load returns null only for a file that was fetched and is
    itself null (or falsy); then the entry stored is not valid, so the next
    load fetches again.  In particular a failed fetch never gives null: it
    gives the expired data if there is any, the minimal structure if not,
    and leaves the entry as it was. *)
Theorem loadDashboardSummary_null_only_from_file :
  ∀ (A : Type) (minimal : A) (item : DataLoader.cacheItem) (checkedAt : Z)
    (response : option (option A)) (updatedAt : Z),
    let result :=
      DataLoader.loadDashboardSummary minimal item checkedAt response
        updatedAt in
    (fst (fst result) = None →
     response = Some None ∧ snd result = DataLoader.fetched ∧
     ∀ now, DataLoader.isCacheValid (snd (fst result)) now = false) ∧
    (snd result = DataLoader.fetchFailed →
     response = None ∧
     fst (fst result) = Some (default minimal (DataLoader.data item)) ∧
     snd (fst result) = item).
Proof.
  intros A minimal item checkedAt response updatedAt result.
  subst result. unfold DataLoader.loadDashboardSummary.
  destruct (DataLoader.isCacheValid item checkedAt) eqn:Hv; cbn [fst snd].
  - apply isCacheValid_data in Hv as [v Hv]. rewrite Hv.
    split; discriminate.
  - destruct response as [[v|]|]; cbn [fst snd].
    + split; discriminate.
    + split; [|discriminate]. intros _. repeat split.
    + destruct (DataLoader.data item) as [stale|] eqn:Hd; cbn [fst snd];
        (split; [discriminate|]); intros _; repeat split.
Qed.

(** X25.  The entries of the hierarchy and of the flat map stay coherent:
    starting from coherent entries (such as the empty ones the module starts
    with), with a clock that does not go back between the two updates, each
    of [loadBrefHierarchy] and [loadBrefFlatMap] leaves them coherent.  On
    coherent entries [loadBrefFlatMap] never takes the branch that reloads
    the hierarchy, and never returns null. *)
Theorem bref_entries_stay_coherent :
  ∀ (A : Type) (emptyObject : A) (cache : DataLoader.brefCache)
    (checkedAt recheckedAt : Z) (response : option DataLoader.brefFile)
    (t1 t2 : Z),
    Loaded.coherent (@Loaded.initial A) ∧
    (Loaded.coherent cache → (t1 ≤ t2)%Z →
     Loaded.coherent
       (snd (fst (DataLoader.loadBrefHierarchy emptyObject cache checkedAt
                    response t1 t2))) ∧
     let result :=
       DataLoader.loadBrefFlatMap emptyObject cache checkedAt recheckedAt
         response t1 t2 in
     Loaded.coherent (snd (fst result)) ∧
     snd result ≠ DataLoader.viaHierarchy ∧
     is_Some (fst (fst result))).
Proof.
  intros A emptyObject cache checkedAt recheckedAt response t1 t2.
  split; [by left|]. intros Hc Ht. split.
  - unfold DataLoader.loadBrefHierarchy.
    destruct (DataLoader.isCacheValid _ checkedAt); [exact Hc|].
    destruct response as [file|]; cbn [fst snd];
      [by apply coherent_storeBoth|exact Hc].
  - cbn zeta. unfold DataLoader.loadBrefFlatMap.
    destruct (DataLoader.isCacheValid (DataLoader.brefFlatMap cache) checkedAt)
      eqn:Hf.
    + cbn [fst snd]. split; [exact Hc|]. split; [discriminate|].
      by apply isCacheValid_data in Hf.
    + destruct (DataLoader.isCacheValid (DataLoader.brefHierarchy cache)
                  checkedAt) eqn:Hh.
      { apply (coherent_valid _ _ Hc) in Hh. congruence. }
      cbn [andb]. destruct response as [file|]; cbn [fst snd].
      * split; [by apply coherent_storeBoth|]. split; [discriminate|eauto].
      * destruct (DataLoader.data (DataLoader.brefFlatMap cache));
          cbn [fst snd]; (split; [exact Hc|]); split; (discriminate || eauto).
Qed.

Lemma bref_entries_stay_coherent_witness :
  Loaded.coherent
    (snd (fst (DataLoader.loadBrefHierarchy 0%nat Loaded.initial 1000%Z
                 (Some {| DataLoader.hierarchy := Some 3%nat;
                          DataLoader.flatMap := None |})
                 1200%Z 1201%Z))).
Proof.
  apply (bref_entries_stay_coherent nat 0%nat Loaded.initial 1000%Z 1000%Z
           (Some {| DataLoader.hierarchy := Some 3%nat;
                    DataLoader.flatMap := None |})
           1200%Z 1201%Z); [by left | lia].
Defined.

(** ** BREF identifiers, paths and titles *)

Section Splitting.
Import Js BrefUtils.

Lemma startsWith_prefix sep s :
  startsWith sep s = true → ∃ b, s = sep ++ b.
Proof.
  revert s. induction sep as [|a sep IH]; intros s H.
  - by exists s.
  - destruct s as [|c s]; [done|]. cbn in H.
    apply andb_prop in H as [Hc Hs]. apply N.eqb_eq in Hc. subst c.
    destruct (IH s Hs) as [b ->]. by exists b.
Qed.

Lemma not_occurs_tail sep c s : ¬ Ids.occurs sep (c :: s) → ¬ Ids.occurs sep s.
Proof.
  intros H (a & b & ->). apply H. by exists (c :: a), b.
Qed.

(** A text in which the separator does not occur is not split. *)
Lemma split_from_whole sep cur s :
  ¬ Ids.occurs sep s → split_from sep 0 cur s = [rev cur ++ s].
Proof.
  revert cur. induction s as [|c s IH]; intros cur H.
  - cbn. by rewrite app_nil_r.
  - cbn [split_from].
    destruct (startsWith sep (c :: s)) eqn:E.
    + apply startsWith_prefix in E as [b E]. destruct H. by exists [], b.
    + rewrite IH by (by eapply not_occurs_tail). cbn [rev].
      by rewrite <- app_assoc.
Qed.

(** The first part ends at a separator that follows a text without
    colon. *)
Lemma split_from_separator cur type rest :
  58%N ∉ type →
  split_from separator 0 cur (type ++ separator ++ rest)
  = (rev cur ++ type) :: split_from separator 0 [] rest.
Proof.
  revert cur. induction type as [|c type IH]; intros cur H.
  - cbn. by rewrite app_nil_r.
  - apply not_elem_of_cons in H as [Hc H].
    cbn [app split_from].
    assert (E : startsWith separator (c :: type ++ separator ++ rest) = false).
    { change (startsWith separator (c :: type ++ separator ++ rest))
        with ((58 =? c)%N
              && startsWith [58; 58]%N (type ++ separator ++ rest)).
      assert (E : (58 =? c)%N = false) by (apply N.eqb_neq; congruence).
      by rewrite E. }
    rewrite E, (IH (c :: cur) H). cbn [rev].
    by rewrite <- app_assoc.
Qed.

Lemma replaceUnderscores_clean s : 95%N ∉ replaceUnderscores s.
Proof.
  unfold replaceUnderscores. intros H.
  apply list_elem_of_fmap in H as (c & Hc & _).
  destruct (N.eqb c 95) eqn:E; [done|]. apply N.eqb_neq in E. congruence.
Qed.

Lemma join_snoc sep parts p :
  parts ≠ [] →
  Server.join sep (parts ++ [p]) = Server.join sep parts ++ sep ++ p.
Proof.
  induction parts as [|q parts IH]; [done|]. intros _.
  destruct parts as [|q' parts]; [reflexivity|].
  change (Server.join sep ((q :: q' :: parts) ++ [p]))
    with (q ++ sep ++ Server.join sep ((q' :: parts) ++ [p])).
  rewrite IH by done.
  change (Server.join sep (q :: q' :: parts))
    with (q ++ sep ++ Server.join sep (q' :: parts)).
  by rewrite <- !app_assoc.
Qed.
End Splitting.

(** X26.  Identifiers are read back as they are written: for a type without
    colon and a section name in which ":::" does not occur,
    [getBrefType] of type ++ ":::" ++ name is the type, and
    [getBrefSectionName] of it is the name with every underscore replaced by
    a space.  An identifier in which ":::" does not occur is its own type.
    The section name of any identifier has no underscore. *)
Theorem bref_id_round_trip :
  ∀ (type name brefId : Js.text),
    (58%N ∉ type → ¬ Ids.occurs BrefUtils.separator name →
     BrefUtils.getBrefType (type ++ BrefUtils.separator ++ name) = type ∧
     BrefUtils.getBrefSectionName (type ++ BrefUtils.separator ++ name)
     = BrefUtils.replaceUnderscores name) ∧
    (¬ Ids.occurs BrefUtils.separator brefId →
     BrefUtils.getBrefType brefId = brefId) ∧
    95%N ∉ BrefUtils.getBrefSectionName brefId.
Proof.
  intros type name brefId. split; [|split].
  - intros Htype Hname.
    assert (Hsplit : BrefUtils.split BrefUtils.separator
                       (type ++ BrefUtils.separator ++ name)
                     = [type; name]).
    { unfold BrefUtils.split. rewrite split_from_separator by done.
      by rewrite split_from_whole. }
    assert (Htruthy : Js.truthy_text (type ++ BrefUtils.separator ++ name)
                      = true) by (by destruct type).
    unfold BrefUtils.getBrefType, BrefUtils.getBrefSectionName.
    rewrite Htruthy, Hsplit. done.
  - intros H. unfold BrefUtils.getBrefType.
    destruct brefId as [|c s]; [done|]. cbn [Js.truthy_text negb].
    unfold BrefUtils.split. by rewrite split_from_whole.
  - unfold BrefUtils.getBrefSectionName.
    destruct (negb (Js.truthy_text brefId)); [apply not_elem_of_nil|].
    apply replaceUnderscores_clean.
Qed.

Lemma bref_id_round_trip_witness :
  BrefUtils.getBrefType (Js.text_of "LVOC:::4.4_a") = Js.text_of "LVOC" ∧
  BrefUtils.getBrefSectionName (Js.text_of "LVOC:::4.4_a")
  = Js.text_of "4.4 a".
Proof.
  apply (bref_id_round_trip (Js.text_of "LVOC") (Js.text_of "4.4_a") []).
  - apply (bool_decide_unpack _). vm_compute. exact I.
  - intros (a & b & H). vm_compute in H.
    do 5 (destruct a as [|? a]; [discriminate|]; injection H as _ H).
    destruct a; discriminate.
Defined.

(** X27.  [formatBrefPath] is built segment by segment: an empty or missing
    path gives the empty text, a path of one segment gives the label of the
    segment, and a path extended by a segment gives the text of the path
    followed by " > " and the label of the new segment, which is its name
    when it has one and the section name of its id otherwise. *)
Theorem formatBrefPath_extends :
  ∀ (path : list BrefUtils.segment) (s : BrefUtils.segment),
    BrefUtils.formatBrefPath None = [] ∧
    BrefUtils.formatBrefPath (Some []) = [] ∧
    BrefUtils.formatBrefPath (Some [s]) = BrefUtils.segmentLabel s ∧
    (path ≠ [] →
     BrefUtils.formatBrefPath (Some (path ++ [s]))
     = BrefUtils.formatBrefPath (Some path) ++ Js.text_of " > "
       ++ BrefUtils.segmentLabel s) ∧
    BrefUtils.segmentLabel s
    = match BrefUtils.seg_name s with
      | Some (c :: n) => c :: n
      | _ => BrefUtils.getBrefSectionName (default [] (BrefUtils.seg_id s))
      end.
Proof.
  intros path s. repeat split.
  - intros Hp. destruct path as [|q path]; [done|].
    unfold BrefUtils.formatBrefPath. cbn [app].
    change (q :: path ++ [s]) with ((q :: path) ++ [s]).
    rewrite map_app. cbn [map]. by rewrite join_snoc.
  - unfold BrefUtils.segmentLabel, ChatApiService.orElse.
    by destruct (BrefUtils.seg_name s) as [[|c n]|].
Qed.

Section Titles.
Import Js BrefUtils.

Lemma trimStart_idem s : trimStart (trimStart s) = trimStart s.
Proof.
  induction s as [|c s IH]; [done|]. cbn [trimStart].
  destruct (isWhiteSpace c) eqn:E; [exact IH|]. cbn [trimStart]. by rewrite E.
Qed.

Lemma trimStart_suffix s : ∃ pre, s = pre ++ trimStart s.
Proof.
  induction s as [|c s [pre IH]]; [by exists []|]. cbn [trimStart].
  destruct (isWhiteSpace c).
  - exists (c :: pre). cbn. by rewrite <- IH.
  - by exists [].
Qed.

Lemma trimStart_fixed_head c s :
  trimStart (c :: s) = c :: s → isWhiteSpace c = false.
Proof.
  cbn [trimStart]. destruct (isWhiteSpace c); [|done].
  intros H. destruct (trimStart_suffix s) as [pre Hpre].
  apply (f_equal (@length N)) in H. apply (f_equal (@length N)) in Hpre.
  rewrite length_app in Hpre. cbn in H. lia.
Qed.

Lemma trim_trimmed s : Ids.trimmed (trim s).
Proof.
  unfold Ids.trimmed, trim. set (y := trimStart s).
  assert (Hy : trimStart y = y) by apply trimStart_idem.
  split; [|by rewrite rev_involutive, trimStart_idem].
  destruct (trimStart_suffix (rev y)) as [pre Hpre].
  apply (f_equal (@rev N)) in Hpre. rewrite rev_involutive, rev_app_distr in Hpre.
  destruct (rev (trimStart (rev y))) as [|c z] eqn:Ez; [done|].
  rewrite Hpre in Hy. cbn [app] in Hy. apply trimStart_fixed_head in Hy.
  cbn [trimStart]. by rewrite Hy.
Qed.

Lemma trim_fixed s : Ids.trimmed s → trim s = s.
Proof.
  intros [H1 H2]. unfold trim. by rewrite H1, H2, rev_involutive.
Qed.

Lemma trimStart_subset s c : c ∈ trimStart s → c ∈ s.
Proof.
  destruct (trimStart_suffix s) as [pre Hpre]. intros H.
  rewrite Hpre. apply elem_of_app. by right.
Qed.

Lemma trim_subset s c : c ∈ trim s → c ∈ s.
Proof.
  unfold trim. intros H. apply list_elem_of_In, in_rev, list_elem_of_In in H.
  apply trimStart_subset in H.
  apply list_elem_of_In, in_rev, list_elem_of_In in H.
  by apply trimStart_subset in H.
Qed.

Lemma firstLine_no_break s c : c ∈ firstLine s → isLineBreak c = false.
Proof.
  induction s as [|x s IH]; cbn [firstLine]; [by intros ?%elem_of_nil|].
  destruct (isLineBreak x) eqn:E; [by intros ?%elem_of_nil|].
  intros [->|H]%elem_of_cons; [done|by apply IH].
Qed.

Lemma firstLine_fixed s :
  (∀ c, c ∈ s → isLineBreak c = false) → firstLine s = s.
Proof.
  induction s as [|x s IH]; [done|]. intros H. cbn [firstLine].
  rewrite (H x) by (apply elem_of_cons; by left). f_equal. apply IH.
  intros c Hc. apply H. apply elem_of_cons. by right.
Qed.

Lemma firstLine_prefix s : ∃ rest, s = firstLine s ++ rest.
Proof.
  induction s as [|x s [rest IH]]; [by exists []|]. cbn [firstLine].
  destruct (isLineBreak x); [by exists (x :: s)|].
  exists rest. cbn. by rewrite <- IH.
Qed.
End Titles.

(** X28.  The title extracted from a text has no line feed and no carriage
    return, and neither starts nor ends with white space; every code unit of
    it comes from the text.  Extracting is idempotent: the title of a title
    is that title. *)
Theorem extractBrefTitle_idempotent :
  ∀ (t : Js.text),
    let title := BrefUtils.extractBrefTitle t in
    (∀ c, c ∈ title → c ∈ t ∧ c ≠ 10%N ∧ c ≠ 13%N) ∧
    Ids.trimmed title ∧
    BrefUtils.extractBrefTitle title = title.
Proof.
  intros t title.
  assert (Hbreak : ∀ c, c ∈ title → BrefUtils.isLineBreak c = false).
  { intros c Hc. subst title. unfold BrefUtils.extractBrefTitle in Hc.
    destruct (negb (Js.truthy_text t)); [by apply elem_of_nil in Hc|].
    apply trim_subset in Hc. by eapply firstLine_no_break. }
  assert (Htrimmed : Ids.trimmed title).
  { subst title. unfold BrefUtils.extractBrefTitle.
    destruct (negb (Js.truthy_text t)); [by split|apply trim_trimmed]. }
  split; [|split; [exact Htrimmed|]].
  - intros c Hc. split.
    + subst title. unfold BrefUtils.extractBrefTitle in Hc.
      destruct (negb (Js.truthy_text t)); [by apply elem_of_nil in Hc|].
      apply trim_subset in Hc.
      destruct (firstLine_prefix t) as [rest Hrest].
      rewrite Hrest. apply elem_of_app. by left.
    + apply Hbreak in Hc. unfold BrefUtils.isLineBreak in Hc.
      apply orb_false_elim in Hc as [H1 H2].
      apply N.eqb_neq in H1, H2. done.
  - unfold BrefUtils.extractBrefTitle at 1.
    destruct (negb (Js.truthy_text title)) eqn:E.
    + by destruct title.
    + rewrite firstLine_fixed by exact Hbreak. by apply trim_fixed.
Qed.
